(** * AS CS Vocabularies Flashcards: scheduler, session queue, answer verifier

    A shallow embedding of the algorithmic core of the flashcard application:

    - [SM2]: [src/utils/sm2.ts], the spaced-repetition scheduler
      [calculateNextReview] and the due predicate [isDue];
    - [Quiz]: the quiz component, with [getLevenshteinDistance],
      [checkAnswerSmart] and [generateQuiz];
    - [App]: the application component, with [handleRate], [startSession],
      [startMixedSession] and [exitSession].

    JavaScript numbers are IEEE 754 binary64 values.  The scheduler, the
    study time and the quantity of the mixed session are embedded over
    Rocq's primitive [float]s, whose operations are specified by
    [SpecFloat]; array lengths and indices that the code computes from
    lengths and literals, which are small naturals in every run, are
    embedded as [nat] or [Z].  The progress object is embedded as the map
    of its own properties, read through [JS.Get], which also answers for
    the names that a plain object inherits.  The wall clock is embedded as
    the reading [Date.now()] returns, and as the sequence of the readings
    where a handler calls it more than once.

    The first part of the file holds the definitions, the second part the
    lemmas and theorems. *)

From stdpp Require Import gmap strings list fin_maps.
From Stdlib Require Import ZArith Floats Uint63 Lia Bool Ascii String List Permutation.
Import ListNotations.

Set Default Proof Using "Type".
Set Warnings "-inexact-float".

(** * Part I: definitions *)

(** ** The JavaScript runtime *)

Module JS.

(** *** Numbers *)

Abbreviation number := float.

(** [Math.round(x)]: the integral number closest to [x], ties towards
    +infinity; NaN, infinities and integral numbers are returned unchanged,
    and a result of magnitude zero keeps the sign of [x].  A finite [x] is
    [(-1)^s * m * 2^e]; when [e < 0] the result is
    [floor ((-1)^s * m * 2^e + 1/2)], which [round_to_Z] computes. *)
Definition round_to_Z (s : bool) (m : positive) (e : Z) : Z :=
  ((cond_Zopp s (Zpos m) + 2 ^ (- e - 1)) / 2 ^ (- e))%Z.

Definition number_of_Z (n : Z) : number :=
  match n with
  | Z0 => 0%float
  | Zpos _ => of_uint63 (Uint63.of_Z n)
  | Zneg p => (- of_uint63 (Uint63.of_Z (Zpos p)))%float
  end.

Definition Math_round (x : number) : number :=
  match Prim2SF x with
  | S754_finite s m e =>
      if (0 <=? e)%Z then x
      else match round_to_Z s m e with
           | Z0 => if s then (-0)%float else 0%float
           | n => number_of_Z n
           end
  | _ => x
  end.

(** [Math.floor(x)]: the greatest integral number that is at most [x]. *)
Definition floor_to_Z (s : bool) (m : positive) (e : Z) : Z :=
  (cond_Zopp s (Zpos m) / 2 ^ (- e))%Z.

Definition Math_floor (x : number) : number :=
  match Prim2SF x with
  | S754_finite s m e =>
      if (0 <=? e)%Z then x
      else match floor_to_Z s m e with
           | Z0 => 0%float
           | n => number_of_Z n
           end
  | _ => x
  end.

(** [Math.min(x, y)] and [Math.max(x, y)]: NaN when an argument is NaN;
    otherwise the smaller, or the larger, of the two, where -0 counts as
    smaller than +0. *)
Definition Math_min (x y : number) : number :=
  if PrimFloat.is_nan x || PrimFloat.is_nan y then nan
  else if (x <? y)%float then x
  else if (y <? x)%float then y
  else match Prim2SF x with S754_zero false => y | _ => x end.

Definition Math_max (x y : number) : number :=
  if PrimFloat.is_nan x || PrimFloat.is_nan y then nan
  else if (x <? y)%float then y
  else if (y <? x)%float then x
  else match Prim2SF x with S754_zero true => y | _ => x end.

(** [ToIntegerOrInfinity(x)], the conversion that the array methods apply
    to an index: NaN and the zeros give 0, the infinities are kept, and a
    finite number loses its fractional part (truncation towards 0). *)
Inductive integer_or_infinity : Type :=
| Finite (z : Z)
| PlusInfinity
| MinusInfinity.

Definition ToIntegerOrInfinity (x : number) : integer_or_infinity :=
  match Prim2SF x with
  | S754_nan | S754_zero _ => Finite 0
  | S754_infinity s => if s then MinusInfinity else PlusInfinity
  | S754_finite s m e =>
      Finite (cond_Zopp s (if (0 <=? e)%Z then Zpos m * 2 ^ e
                           else Zpos m / 2 ^ (- e)))%Z
  end.

(** An integer or infinity brought into the range from [lo] to [hi]. *)
Definition clamp (lo hi : Z) (v : integer_or_infinity) : Z :=
  match v with
  | Finite z => Z.max lo (Z.min z hi)
  | PlusInfinity => hi
  | MinusInfinity => lo
  end.

(** *** Completions

    A call either returns a value or throws. *)
Inductive completion (A : Type) : Type :=
| Normal (v : A)
| Throw (msg : string).
Arguments Normal {A} v.
Arguments Throw {A} msg.

(** *** Arrays

    [arr.slice(start, end)] with integer arguments: negative arguments
    count from the end of the array, and both are clamped to its bounds. *)
Definition relative_index (len k : Z) : Z :=
  if (k <? 0)%Z then Z.max (len + k) 0 else Z.min k len.

Definition Array_slice {A : Type} (start end_ : Z) (arr : list A) : list A :=
  let len := Z.of_nat (length arr) in
  let k := relative_index len start in
  let final := relative_index len end_ in
  firstn (Z.to_nat (final - k)) (skipn (Z.to_nat k) arr).

(** [arr.slice(start, end)] with arguments that are numbers: each is
    converted by [ToIntegerOrInfinity] first. *)
Definition relative_index_of (len : Z) (k : integer_or_infinity) : Z :=
  match k with
  | MinusInfinity => 0
  | PlusInfinity => len
  | Finite k => relative_index len k
  end.

Definition Array_prototype_slice {A : Type} (start end_ : number) (arr : list A) : list A :=
  let len := Z.of_nat (length arr) in
  let k := relative_index_of len (ToIntegerOrInfinity start) in
  let final := relative_index_of len (ToIntegerOrInfinity end_) in
  firstn (Z.to_nat (final - k)) (skipn (Z.to_nat k) arr).

(** [arr.length], as a number. *)
Definition Array_length {A : Type} (arr : list A) : number :=
  number_of_Z (Z.of_nat (length arr)).

(** *** Plain objects

    An object made by a literal, by a spread or by [JSON.parse] holds its
    own properties and inherits those of [Object.prototype].  The read
    [obj[key]] gives the own property named [key] if there is one;
    otherwise, for the names below, the value found on the prototype (a
    function, or the prototype itself for [__proto__]); otherwise
    [undefined].  An object is embedded as the map of its own properties:
    the spread [{...obj, [key]: v}] copies them and defines [key] as an own
    property, whatever its name. *)
Definition Object_prototype : list string :=
  ["constructor"; "__defineGetter__"; "__defineSetter__"; "hasOwnProperty";
   "__lookupGetter__"; "__lookupSetter__"; "isPrototypeOf";
   "propertyIsEnumerable"; "toString"; "valueOf"; "__proto__";
   "toLocaleString"]%string.

Inductive property (A : Type) : Type :=
| Own (v : A)
| Inherited
| Undefined.
Arguments Own {A} v.
Arguments Inherited {A}.
Arguments Undefined {A}.

Definition Get {A : Type} (obj : gmap string A) (key : string) : property A :=
  match obj !! key with
  | Some v => Own v
  | None => if bool_decide (key ∈ Object_prototype) then Inherited else Undefined
  end.

(** Truthiness of a value read from an object of records: every object
    is truthy, [undefined] is not. *)
Definition truthy {A : Type} (v : property A) : bool :=
  match v with
  | Own _ | Inherited => true
  | Undefined => false
  end.

(** *** Ambient randomness

    [Math.random()] and the comparator-driven [Array.prototype.sort] belong
    to the engine.  The interface below is what the application uses of
    them: a generator state, a draw, and [arr.sort(() => 0.5 - Math.random())],
    the shuffle idiom of the sources, whose result is a rearrangement of the
    array in an order chosen by the engine. *)
Class RandomEngine : Type := {
  rng : Type;
  Math_random : rng -> number * rng;
  sort_random : forall {A : Type}, list A -> rng -> list A * rng;
  sort_random_Permutation :
    forall (A : Type) (l : list A) (g : rng), Permutation l (sort_random l g).1
}.

(** A reference engine: a linear congruential generator, and an insertion
    sort that calls the comparator [() => 0.5 - Math.random()] once per
    comparison and places the new element first when the comparator is
    negative. *)
Definition lcg_next (g : N) : N := ((g * 1103515245 + 12345) mod 2147483648)%N.

Definition lcg_random (g : N) : number * N :=
  let g' := lcg_next g in
  ((of_uint63 (Uint63.of_Z (Z.of_N g')) / 2147483648)%float, g').

Fixpoint insert_random {A : Type} (x : A) (l : list A) (g : N) : list A * N :=
  match l with
  | [] => ([x], g)
  | y :: l' =>
      let '(r, g') := lcg_random g in
      if (0.5 - r <? 0)%float then (x :: y :: l', g')
      else let '(l'', g'') := insert_random x l' g' in (y :: l'', g'')
  end.

Fixpoint insertion_sort_random {A : Type} (l : list A) (g : N) : list A * N :=
  match l with
  | [] => ([], g)
  | x :: l' =>
      let '(sorted, g') := insertion_sort_random l' g in
      insert_random x sorted g'
  end.

End JS.

(** ** The data model: [types.ts] *)

Module Types.
Import JS.

Record Term : Type := mkTerm {
  id : string;
  chapterId : string;
  term : string;
  definition : string;
  aiExplanation : option string
}.

(** Spaced repetition state. *)
Record UserProgress : Type := mkUserProgress {
  termId : string;
  interval : number;   (* Days until next review *)
  repetition : number; (* Consecutive successful recalls *)
  efactor : number;    (* Easiness factor (SM-2 algorithm) *)
  nextReviewDate : number (* Timestamp *)
}.

(** [Rating] is the union type [0 | 1 | 2 | 3 | 4 | 5]; at run time a
    rating is a number. *)
Definition Rating (rating : number) : Prop :=
  In rating [0; 1; 2; 3; 4; 5]%float.

End Types.

(** ** The scheduler: [src/utils/sm2.ts] *)

Module SM2.
Import JS Types.

(** The functions of this file read the wall clock through [Date.now()].
    [Clock] is the number that call returns; a computation that reads the
    clock is a function of it. *)
Abbreviation Clock := number.

(** A computation that calls [Date.now()] several times is a function of
    the readings in the order of the calls: [Date_now k] is the number that
    the call of rank [k] returns, the first call having rank 0. *)
Abbreviation Readings := (nat -> Clock).

Definition oneDay : number := (24 * 60 * 60 * 1000)%float.

(** The ease update of line 40 and the floor of line 41. *)
Definition nextEfactor (efactor rating : number) : number :=
  let efactor :=
    (efactor + (0.1 - (5 - rating) * (0.08 + (5 - rating) * 0.02)))%float in
  if (efactor <? 1.3)%float then 1.3%float else efactor.

Definition calculateNextReview
    (currentProgress : option UserProgress) (rating : number)
    (termId : string) (Date_now : Clock) : UserProgress :=
  (* Default start state *)
  let '(repetition, interval, efactor) :=
    match currentProgress with
    | Some p => (p.(repetition), p.(interval), p.(efactor))
    | None => (0%float, 0%float, 2.5%float)
    end in
  let '(repetition, interval) :=
    if (3 <=? rating)%float then
      (* Correct response *)
      let interval :=
        if (repetition =? 0)%float then
          (if (rating =? 5)%float then 4%float else 1%float)
        else if (repetition =? 1)%float then 6%float
        else Math_round (interval * efactor)%float in
      ((repetition + 1)%float, interval)
    else
      (* Incorrect response *)
      (0%float, 1%float) in
  (* Calculate new Easiness Factor *)
  let efactor := nextEfactor efactor rating in
  let nextReviewDate := (Date_now + interval * oneDay)%float in
  {| termId := termId;
     repetition := repetition;
     interval := interval;
     efactor := efactor;
     nextReviewDate := nextReviewDate |}.

(** The function has no [throw] statement, and number arithmetic, property
    reads on a present object and [Date.now()] do not throw: every call
    completes normally. *)
Definition calculateNextReview_call
    (currentProgress : option UserProgress) (rating : number)
    (termId : string) (Date_now : Clock) : completion UserProgress :=
  Normal (calculateNextReview currentProgress rating termId Date_now).

Definition isDue (progress : option UserProgress) (Date_now : Clock) : bool :=
  match progress with
  | None => true (* New card is always due *)
  | Some p => (p.(nextReviewDate) <=? Date_now)%float
  end.

(** What [calculateNextReview] and [isDue] receive when they are passed
    the value read from an object of records.  A record is passed as it is,
    and [undefined] is the absent argument.  A value inherited from
    [Object.prototype] is a truthy object without any field of a record:
    [repetition], [interval], [efactor] and [nextReviewDate] read from it
    are [undefined], which is different from 0 and from 1 under [===],
    gives NaN in a sum or a product, and makes [<], [>=] false, as NaN
    does.  The functions do not read [termId]. *)
Definition received (v : property UserProgress) : option UserProgress :=
  match v with
  | Own p => Some p
  | Inherited =>
      Some {| termId := ""; interval := nan; repetition := nan;
              efactor := nan; nextReviewDate := nan |}
  | Undefined => None
  end.

(** The change of the ease factor for each rating. *)
Definition easeDelta (rating : number) : number :=
  (0.1 - (5 - rating) * (0.08 + (5 - rating) * 0.02))%float.

(** A sequence of reviews of one term: each step is a rating and the
    clock reading of the call that records it. *)
Fixpoint review_all (p : option UserProgress) (termId : string)
    (steps : list (number * Clock)) : option UserProgress :=
  match steps with
  | [] => p
  | (rating, Date_now) :: rest =>
      review_all (Some (calculateNextReview p rating termId Date_now)) termId rest
  end.

(** The ease factor a review starts from: that of the record, or the seed
    of a term never studied. *)
Definition efactor_of (p : option UserProgress) : number :=
  match p with
  | Some r => r.(efactor)
  | None => 2.5%float
  end.

(** The states from which a success yields a positive interval: no record,
    a record of at most one successful review, or a record with an interval
    of at least a day and an ease factor of at least 1.3. *)
Definition schedulable (p : option UserProgress) : Prop :=
  match p with
  | None => True
  | Some q =>
      (repetition q =? 0)%float = true \/ (repetition q =? 1)%float = true \/
      ((1 <=? interval q)%float = true /\ (1.3 <=? efactor q)%float = true)
  end.

End SM2.

(** ** The quiz component *)

Module Quiz.
Import JS Types.

(** Strings are sequences of 8-bit characters. *)
Abbreviation str := (list ascii).

(** *** [getLevenshteinDistance]

    The matrix has [b.length + 1] rows of [a.length + 1] cells, all [null]
    at first. *)
Abbreviation matrix := (list (list (option nat))).

Definition new_matrix (rows cols : nat) : matrix :=
  replicate rows (replicate cols None).

(** [matrix[j][i]] read as a number ([null] converts to 0).  Every read of
    the function is of a cell written before, inside the matrix. *)
Definition get_cell (m : matrix) (j i : nat) : nat :=
  match m !! j with
  | Some row => match row !! i with Some (Some v) => v | _ => 0 end
  | None => 0
  end.

(** [matrix[j][i] = v], for a cell inside the matrix. *)
Definition set_cell (j i v : nat) (m : matrix) : matrix :=
  alter (fun row => <[i := Some v]> row) j m.

Definition indicator (a b : str) (i j : nat) : nat :=
  if decide (a !! i = b !! j) then 0 else 1.

(** The loops, over the index ranges of the source. *)
Definition init_row (la : nat) (m : matrix) : matrix :=
  foldl (fun m i => set_cell 0 i i m) m (seq 0 (S la)).

Definition init_col (lb : nat) (m : matrix) : matrix :=
  foldl (fun m j => set_cell j 0 j m) m (seq 0 (S lb)).

Definition fill_cell (a b : str) (j i : nat) (m : matrix) : matrix :=
  set_cell j i
    (Nat.min (get_cell m j (i - 1) + 1)
       (Nat.min (get_cell m (j - 1) i + 1)
          (get_cell m (j - 1) (i - 1) + indicator a b (i - 1) (j - 1))))
    m.

Definition fill_row (a b : str) (j : nat) (m : matrix) : matrix :=
  foldl (fun m i => fill_cell a b j i m) m (seq 1 (length a)).

Definition fill_matrix (a b : str) (m : matrix) : matrix :=
  foldl (fun m j => fill_row a b j m) m (seq 1 (length b)).

Definition getLevenshteinDistance (a b : str) : nat :=
  let matrix := new_matrix (S (length b)) (S (length a)) in
  let matrix := init_row (length a) matrix in
  let matrix := init_col (length b) matrix in
  let matrix := fill_matrix a b matrix in
  get_cell matrix (length b) (length a).

(** The Levenshtein distance between the first [i] characters of [a] and
    the first [j] characters of [b], by its defining recurrence with unit
    costs: deleting or inserting a character costs 1, substituting one
    costs 1 unless the characters agree. *)
Fixpoint levenshtein (a b : str) (i : nat) {struct i} : nat -> nat :=
  match i with
  | 0 => fun j => j
  | S i' =>
      fix against (j : nat) : nat :=
        match j with
        | 0 => S i'
        | S j' =>
            Nat.min (levenshtein a b i' (S j') + 1)
              (Nat.min (against j' + 1)
                 (levenshtein a b i' j' + indicator a b i' j'))
        end
  end.

Definition levenshtein_distance (a b : str) : nat :=
  levenshtein a b (length a) (length b).

(** *** The invariant of the matrix computation *)

(** A matrix of [S lb] rows of [S la] cells. *)
Definition shaped (la lb : nat) (m : matrix) : Prop :=
  length m = S lb /\ Forall (fun row => length row = S la) m.

(** The cell of row [j] and column [i] holds the distance between the
    first [i] characters of [a] and the first [j] characters of [b]. *)
Definition cell_ok (a b : str) (m : matrix) (j i : nat) : Prop :=
  get_cell m j i = levenshtein a b i j.

(** The cells written when the outer loop is at row [J] and the inner loop
    at column [I]. *)
Definition written (a b : str) (J I j i : nat) : Prop :=
  j <= length b /\ i <= length a /\ (j = 0 \/ i = 0 \/ j < J \/ (j = J /\ i < I)).

Definition filled (a b : str) (J I : nat) (m : matrix) : Prop :=
  shaped (length a) (length b) m /\
  forall j i, written a b J I j i -> cell_ok a b m j i.

(** Edit scripts: [edits a b n] when [a] can be turned into [b] by a
    script that works through both strings from left to right and makes
    [n] insertions, deletions or substitutions. *)
Inductive edits : str -> str -> nat -> Prop :=
| edits_nil : edits [] [] 0
| edits_keep (a b : str) (c : ascii) (n : nat) :
    edits a b n -> edits (a ++ [c]) (b ++ [c]) n
| edits_substitute (a b : str) (c d : ascii) (n : nat) :
    edits a b n -> edits (a ++ [c]) (b ++ [d]) (S n)
| edits_delete (a b : str) (c : ascii) (n : nat) :
    edits a b n -> edits (a ++ [c]) b (S n)
| edits_insert (a b : str) (d : ascii) (n : nat) :
    edits a b n -> edits a (b ++ [d]) (S n).

(** *** [checkAnswerSmart] *)

(** [str.toLowerCase()] on 8-bit characters: the letters A-Z, and the
    accented capitals 192-222 other than the multiplication sign. *)
Definition toLowerCase_char (c : ascii) : ascii :=
  let n := nat_of_ascii c in
  if ((65 <=? n) && (n <=? 90)) || ((192 <=? n) && (n <=? 222) && negb (n =? 215))
  then ascii_of_nat (n + 32) else c.

Definition toLowerCase (s : str) : str := map toLowerCase_char s.

(** The character class [[a-z0-9]]. *)
Definition is_a_z_0_9 (c : ascii) : bool :=
  let n := nat_of_ascii c in
  ((97 <=? n) && (n <=? 122)) || ((48 <=? n) && (n <=? 57)).

(** [str.toLowerCase().replace(/[^a-z0-9]/g, '')] *)
Definition normalize (s : str) : str := List.filter is_a_z_0_9 (toLowerCase s).

(** The characters of which [normalize] keeps the lower case: the letters
    A-Z and a-z, and the digits 0-9. *)
Definition is_A_Z_a_z_0_9 (c : ascii) : bool :=
  let n := nat_of_ascii c in
  ((65 <=? n) && (n <=? 90)) || is_a_z_0_9 c.

(** The matches of [/\(([^)]+)\)/g] in a string, from left to right: an
    opening parenthesis, one or more characters other than [")"], and a
    closing parenthesis.  The scanner is outside a match ([None]) or has
    read an opening parenthesis and the characters [acc] since, none of them
    [")"] ([Some acc]).  It yields the characters outside the matches
    ([inl]) and the matches ([inr]) in order. *)
Fixpoint scan_parens (pending : option str) (s : str) : list (ascii + str) :=
  match s with
  | [] =>
      match pending with
      | None => []
      | Some acc => map inl ("("%char :: acc)
      end
  | c :: s' =>
      match pending with
      | None =>
          if (c =? "(")%char then scan_parens (Some []) s'
          else inl c :: scan_parens None s'
      | Some acc =>
          if (c =? ")")%char then
            match acc with
            | [] => inl "("%char :: inl ")"%char :: scan_parens None s'
            | _ :: _ => inr ("("%char :: acc ++ [")"%char]) :: scan_parens None s'
            end
          else scan_parens (Some (acc ++ [c])) s'
      end
  end.

(** [s.match(/\(([^)]+)\)/g)], with [null] read as no match. *)
Definition match_parens (s : str) : list str :=
  omap (fun t => match t with inr m => Some m | inl _ => None end)
       (scan_parens None s).

(** [s.replace(/\([^)]+\)/g, '')] *)
Definition remove_parens (s : str) : str :=
  omap (fun t => match t with inl c => Some c | inr _ => None end)
       (scan_parens None s).

(** White space and line terminators among the 8-bit characters. *)
Definition is_space (c : ascii) : bool :=
  let n := nat_of_ascii c in
  ((9 <=? n) && (n <=? 13)) || (n =? 32) || (n =? 160).

Fixpoint trimStart (s : str) : str :=
  match s with
  | c :: s' => if is_space c then trimStart s' else s
  | [] => []
  end.

Definition trim (s : str) : str := rev (trimStart (rev (trimStart s))).

(** [s.split('/')] *)
Fixpoint split_slash (s : str) : list str :=
  match s with
  | [] => [[]]
  | c :: s' =>
      if (c =? "/")%char then [] :: split_slash s'
      else match split_slash s' with
           | seg :: segs => (c :: seg) :: segs
           | [] => [[c]]
           end
  end.

Definition includes_slash (s : str) : bool := existsb (fun c => (c =? "/")%char) s.

(** The alternatives array. *)
Definition candidates (correctTerm : str) : list str :=
  let target := normalize correctTerm in
  let candidates := [target] in
  (* 1. Handle parentheses *)
  let candidates := candidates ++ map normalize (match_parens correctTerm) in
  let withoutParens := trim (remove_parens correctTerm) in
  let candidates :=
    match withoutParens with
    | [] => candidates
    | _ :: _ => candidates ++ [normalize withoutParens]
    end in
  (* 2. Handle slashes *)
  if includes_slash correctTerm
  then candidates ++ map normalize (split_slash correctTerm)
  else candidates.

(** [Math.floor(cand.length * 0.25)]: a quarter is a power of two, so the
    product is exact and its floor is the quotient by 4
    ([Verifier_Facts.allowedErrors_binary64] compares the two on lengths up
    to 400). *)
Definition allowedErrors (cand : str) : nat := length cand / 4.

(** The fuzzy-matching loop. *)
Fixpoint fuzzy_match (user : str) (candidates : list str) : bool :=
  match candidates with
  | [] => false
  | cand :: rest =>
      if 3 <? length cand then
        let dist := getLevenshteinDistance user cand in
        if dist <=? allowedErrors cand then true else fuzzy_match user rest
      else fuzzy_match user rest
  end.

Definition checkAnswerSmart (input correctTerm : str) : bool :=
  let user := normalize input in
  let target := normalize correctTerm in
  match user with
  | [] => false
  | _ :: _ =>
      if bool_decide (user = target) then true
      else
        let candidates := candidates correctTerm in
        (* Check exact match against candidates *)
        if bool_decide (user ∈ candidates) then true
        else (* 3. Fuzzy matching *) fuzzy_match user candidates
  end.

(** The candidates that the fuzzy-matching loop accepts. *)
Definition within_tolerance (user cand : str) : Prop :=
  3 < length cand /\ levenshtein_distance user cand <= length cand / 4.

(** *** [generateQuiz] *)

Inductive QuestionType : Type := multiple_choice | input.

Record Question : Type := mkQuestion {
  q_term : Term;
  q_type : QuestionType;
  q_options : list string (* For multiple choice *)
}.

(** The distractors of a question: terms of the pool with another
    identifier than the term asked, all different. *)
Definition distractors_of (terms : list Term) (t : Term) (ds : list Term) : Prop :=
  NoDup ds /\
  (forall d, In d ds -> In d terms /\ d.(id) <> t.(id)) /\
  length ds = Nat.min (length terms - 1) 3.

Section Generate.
Context `{RandomEngine}.

(** The callback of [selected.map]. *)
Definition makeQuestion (terms : list Term) (t : Term) (g : rng) : Question * rng :=
  (* 50/50 chance for question type *)
  let '(r, g) := Math_random g in
  if (0.5 <? r)%float then
    let '(others, g) :=
      sort_random (List.filter (fun t' => negb (String.eqb t'.(id) t.(id))) terms) g in
    let distractors := map term (Array_slice 0 3 others) in
    (* Combine and shuffle options *)
    let '(options, g) := sort_random (distractors ++ [t.(term)]) g in
    ({| q_term := t; q_type := multiple_choice; q_options := options |}, g)
  else
    ({| q_term := t; q_type := input; q_options := [] |}, g).

Fixpoint map_random {A B : Type} (f : A -> rng -> B * rng) (l : list A) (g : rng)
    : list B * rng :=
  match l with
  | [] => ([], g)
  | x :: l' =>
      let '(y, g) := f x g in
      let '(ys, g) := map_random f l' g in
      (y :: ys, g)
  end.

(** The questions handed to [setQuestions]; [None] when the function
    returns early and leaves the state alone. *)
Definition generateQuiz (terms : list Term) (g : rng) : option (list Question) * rng :=
  match terms with
  | [] => (None, g)
  | _ :: _ =>
      (* 1. Shuffle terms *)
      let '(shuffled, g) := sort_random terms g in
      (* 2. Pick top 10 (or fewer if not enough terms) *)
      let selected :=
        Array_slice 0 (Z.min 10 (Z.of_nat (length terms))) shuffled in
      (* 3. Create questions *)
      let '(newQuestions, g) := map_random (makeQuestion terms) selected g in
      (Some newQuestions, g)
  end.

End Generate.

(** *** Auxiliary notions for the statements about strings *)

(** The text a scanned token stands for. *)
Definition token_text (t : ascii + str) : str :=
  match t with
  | inl c => [c]
  | inr m => m
  end.

(** The characters read since an opening parenthesis hold no closing one. *)
Definition open_run (pending : option str) : Prop :=
  match pending with
  | None => True
  | Some acc => Forall (fun c => c <> ")"%char) acc
  end.

Definition pending_text (pending : option str) : str :=
  match pending with
  | None => []
  | Some acc => "("%char :: acc
  end.

(** A match: an opening parenthesis, a run of one or more characters
    other than the closing parenthesis, and a closing parenthesis. *)
Definition paren_match (m : str) : Prop :=
  exists body, m = "("%char :: body ++ [")"%char] /\ body <> [] /\
               Forall (fun c => c <> ")"%char) body.

(** A segment without a slash. *)
Definition no_slash (seg : str) : Prop := Forall (fun c => c <> "/"%char) seg.

(** The first and the last character of a string that is not empty are
    not white space. *)
Definition trimmed (s : str) : Prop :=
  (forall c, head s = Some c -> is_space c = false) /\
  (forall c, head (rev s) = Some c -> is_space c = false).

(** A scanned token in lower case. *)
Definition token_toLowerCase (t : ascii + str) : ascii + str :=
  match t with
  | inl c => inl (toLowerCase_char c)
  | inr m => inr (toLowerCase m)
  end.

(** [segments.join('/')] *)
Fixpoint join_slash (segments : list str) : str :=
  match segments with
  | [] => []
  | [seg] => seg
  | seg :: rest => seg ++ "/"%char :: join_slash rest
  end.

(** Edit scripts that work through both strings from right to left. *)
Inductive edits_from_end : str -> str -> nat -> Prop :=
| efe_nil : edits_from_end [] [] 0
| efe_keep (a b : str) (c : ascii) (n : nat) :
    edits_from_end a b n -> edits_from_end (c :: a) (c :: b) n
| efe_substitute (a b : str) (c d : ascii) (n : nat) :
    edits_from_end a b n -> edits_from_end (c :: a) (d :: b) (S n)
| efe_delete (a b : str) (c : ascii) (n : nat) :
    edits_from_end a b n -> edits_from_end (c :: a) b (S n)
| efe_insert (a b : str) (d : ascii) (n : nat) :
    edits_from_end a b n -> edits_from_end a (d :: b) (S n).

End Quiz.

(** ** The application component *)

Module App.
Import JS Types SM2.

(** The state hooks of [App].  The catalog [TERMS] of [./data] is a
    parameter of the functions that read it. *)
Record State : Type := mkState {
  selectedChapter : option string;
  progress : gmap string UserProgress;
  sessionDeck : list Term;
  activeCardIndex : nat;
  quizActive : bool;
  (* Time tracking state *)
  totalStudyTime : number; (* In seconds *)
  sessionStartTime : option number;
  currentSessionDuration : number;
  (* Mixed mode state *)
  mixedCount : number
}.

(** State updates.  A handler reads the state of the render it belongs to
    and queues its updates, which React applies in the order of the calls:
    a setter called with a function receives the pending state, a setter
    called with a value replaces it.  Below, a handler takes the rendered
    state [s] for its reads and threads a pending state through the setters. *)
Definition setProgress (v : gmap string UserProgress) (p : State) : State :=
  mkState p.(selectedChapter) v p.(sessionDeck) p.(activeCardIndex)
    p.(quizActive) p.(totalStudyTime) p.(sessionStartTime)
    p.(currentSessionDuration) p.(mixedCount).

Definition setSessionDeck_with (f : list Term -> list Term) (p : State) : State :=
  mkState p.(selectedChapter) p.(progress) (f p.(sessionDeck)) p.(activeCardIndex)
    p.(quizActive) p.(totalStudyTime) p.(sessionStartTime)
    p.(currentSessionDuration) p.(mixedCount).

Definition setSessionDeck (v : list Term) : State -> State :=
  setSessionDeck_with (fun _ => v).

Definition setActiveCardIndex_with (f : nat -> nat) (p : State) : State :=
  mkState p.(selectedChapter) p.(progress) p.(sessionDeck) (f p.(activeCardIndex))
    p.(quizActive) p.(totalStudyTime) p.(sessionStartTime)
    p.(currentSessionDuration) p.(mixedCount).

Definition setActiveCardIndex (v : nat) : State -> State :=
  setActiveCardIndex_with (fun _ => v).

Definition setSelectedChapter (v : option string) (p : State) : State :=
  mkState v p.(progress) p.(sessionDeck) p.(activeCardIndex)
    p.(quizActive) p.(totalStudyTime) p.(sessionStartTime)
    p.(currentSessionDuration) p.(mixedCount).

Definition setQuizActive (v : bool) (p : State) : State :=
  mkState p.(selectedChapter) p.(progress) p.(sessionDeck) p.(activeCardIndex)
    v p.(totalStudyTime) p.(sessionStartTime)
    p.(currentSessionDuration) p.(mixedCount).

Definition setTotalStudyTime (v : number) (p : State) : State :=
  mkState p.(selectedChapter) p.(progress) p.(sessionDeck) p.(activeCardIndex)
    p.(quizActive) v p.(sessionStartTime)
    p.(currentSessionDuration) p.(mixedCount).

Definition setSessionStartTime (v : option number) (p : State) : State :=
  mkState p.(selectedChapter) p.(progress) p.(sessionDeck) p.(activeCardIndex)
    p.(quizActive) p.(totalStudyTime) v
    p.(currentSessionDuration) p.(mixedCount).

Definition setCurrentSessionDuration (v : number) (p : State) : State :=
  mkState p.(selectedChapter) p.(progress) p.(sessionDeck) p.(activeCardIndex)
    p.(quizActive) p.(totalStudyTime) p.(sessionStartTime)
    v p.(mixedCount).

(** Truthiness of [string | null] and of [number | null]. *)
Definition truthy_string (v : option string) : bool :=
  match v with
  | Some EmptyString | None => false
  | Some _ => true
  end.

Definition truthy_number (v : option number) : option number :=
  match v with
  | Some t => if (t =? 0)%float || PrimFloat.is_nan t then None else Some t
  | None => None
  end.

(** [saveProgress] and [saveTime] also write the value to [localStorage],
    which no function below reads back. *)
Definition saveProgress (newProgress : gmap string UserProgress) : State -> State :=
  setProgress newProgress.

Definition saveTime (newTotalTime : number) : State -> State :=
  setTotalStudyTime newTotalTime.

(** Function to finalize time tracking for a session. *)
Definition stopSessionTimer (s : State) (Date_now : Clock) (p : State) : State :=
  match truthy_number s.(sessionStartTime) with
  | Some sessionStartTime =>
      let now := Date_now in
      let sessionSeconds := ((now - sessionStartTime) / 1000)%float in
      let p := saveTime (s.(totalStudyTime) + sessionSeconds)%float p in
      let p := setCurrentSessionDuration sessionSeconds p in
      setSessionStartTime None p
  | None => p
  end.

(** [handleRate] reads the clock in [calculateNextReview], and a second
    time in [stopSessionTimer] when the session ends. *)
Definition handleRate (rating : number) (s : State) (Date_now : Readings) : State :=
  if negb (truthy_string s.(selectedChapter)) || (length s.(sessionDeck) =? 0)
  then s
  else
    match s.(sessionDeck) !! s.(activeCardIndex) with
    | None => s (* Safety check *)
    | Some currentTerm =>
        let currentProgress := Get s.(progress) currentTerm.(id) in
        (* Update long-term progress (SM-2 Algorithm) *)
        let newTermProgress :=
          calculateNextReview (received currentProgress) rating currentTerm.(id)
            (Date_now 0) in
        let newProgress := <[currentTerm.(id) := newTermProgress]> s.(progress) in
        let p := saveProgress newProgress s in
        (* Ebbinghaus / Loop Logic: if rating is low, keep it in the
           current session: append a copy of this card to the end of the
           deck so it appears again. *)
        let p :=
          if (rating <? 3)%float
          then setSessionDeck_with (fun prev => prev ++ [currentTerm]) p
          else p in
        (* Move to next card *)
        if (Z.of_nat s.(activeCardIndex) <? Z.of_nat (length s.(sessionDeck)) - 1)%Z
        then setActiveCardIndex_with (fun prev => prev + 1) p
        else
          (* End of session (Session Complete) *)
          let p := stopSessionTimer s (Date_now 1) p in
          let p := setSessionDeck [] p in
          setActiveCardIndex 0 p
    end.

(** What the component renders: the chapter grid, the quiz, the card of
    an active session, or the session-complete screen. *)
Inductive View : Type := Idle | QuizView | Active | Complete.

Definition view (s : State) : View :=
  if negb (truthy_string s.(selectedChapter)) then Idle
  else if s.(quizActive) then QuizView
  else if 0 <? length s.(sessionDeck) then Active
  else Complete.

(** [terms.filter(term => isDue(progress[term.id]))], from the reading of
    rank [k] on.  [isDue] reads the clock for a truthy argument only, so
    the call for a term takes the reading whose rank is [k] plus the number
    of truthy values met before it.  The second component is the rank of
    the next reading. *)
Fixpoint filter_isDue (progress : gmap string UserProgress) (terms : list Term)
    (Date_now : Readings) (k : nat) : list Term * nat :=
  match terms with
  | [] => ([], k)
  | term :: rest =>
      let termProgress := Get progress term.(id) in
      let due := isDue (received termProgress) (Date_now k) in
      let '(deck, n) :=
        filter_isDue progress rest Date_now (if truthy termProgress then S k else k) in
      (if due then term :: deck else deck, n)
  end.

Section Catalog.
Variable TERMS : list Term.

(** [startSession]; the second component is the text of the [alert], if
    any. *)
Definition startSession (chapterId : string) (forceAll : bool)
    (s : State) (Date_now : Readings) : State * option string :=
  let chapterTerms := List.filter (fun t => String.eqb (Types.chapterId t) chapterId) TERMS in
  let '(deck, k) :=
    if forceAll then (chapterTerms, 0)
    else
      (* Filter for cards that are due or new based on current progress *)
      filter_isDue s.(progress) chapterTerms Date_now 0 in
  if (length deck =? 0) && negb forceAll then
    (s, Some "No cards due for this chapter! Try 'Review All' or choose another chapter.")
  else
    let p := setSessionDeck deck s in
    let p := setSelectedChapter (Some chapterId) p in
    let p := setQuizActive false p in
    let p := setActiveCardIndex 0 p in
    (setSessionStartTime (Some (Date_now k)) p, None). (* Start the clock *)

Context `{RandomEngine}.

(** The deck of a mixed session. *)
Definition mixedDeck (mixedCount : number) (g : rng) : list Term * rng :=
  (* 1. Get all terms, 2. Shuffle *)
  let '(allTerms, g) := sort_random TERMS g in
  (* 3. Slice N *)
  (Array_prototype_slice 0
     (Math_max 1 (Math_min mixedCount (Array_length allTerms))) allTerms, g).

Definition startMixedSession (s : State) (Date_now : Clock) (g : rng) : State * rng :=
  let '(deck, g) := mixedDeck s.(mixedCount) g in
  let p := setSessionDeck deck s in
  let p := setSelectedChapter (Some "MIXED") p in (* Special ID for mixed mode *)
  let p := setQuizActive false p in
  let p := setActiveCardIndex 0 p in
  (setSessionStartTime (Some Date_now) p, g). (* Start the clock *)

End Catalog.

Definition exitSession (s : State) (Date_now : Clock) : State :=
  (* If user exits early, we still count the time spent *)
  let p := stopSessionTimer s Date_now s in
  let p := setSelectedChapter None p in
  let p := setSessionDeck [] p in
  let p := setQuizActive false p in
  setActiveCardIndex 0 p.

(** The strength of a record, as the mastery list shows it. *)
Definition getStrengthColor (p : option UserProgress) : string :=
  match p with
  | None => "bg-slate-200 text-slate-400"
  | Some p =>
      if (p.(repetition) =? 0)%float then "bg-red-100 text-red-600"
      else if (p.(interval) <? 4)%float then "bg-orange-100 text-orange-600"
      else "bg-green-100 text-green-600"
  end.

Definition getStrengthLabel (p : option UserProgress) : string :=
  match p with
  | None => "New"
  | Some p =>
      if (p.(repetition) =? 0)%float then "Weak"
      else if (p.(interval) <? 4)%float then "Moderate"
      else if (p.(interval) <? 21)%float then "Good"
      else "Strong"
  end.

(** The figures of a chapter card on the home screen: its terms, and how
    many of them are due. *)
Section ChapterCard.
Variable TERMS : list Term.

Definition chapterTerms (chapterId : string) : list Term :=
  List.filter (fun t => String.eqb (Types.chapterId t) chapterId) TERMS.

Definition totalTerms (chapterId : string) : nat :=
  length (chapterTerms chapterId).

Definition dueCount (chapterId : string) (s : State) (Date_now : Readings) : nat :=
  length (filter_isDue s.(progress) (chapterTerms chapterId) Date_now 0).1.

Definition hasStarted (chapterId : string) (s : State) : bool :=
  existsb (fun t => truthy (Get s.(progress) t.(id))) (chapterTerms chapterId).

End ChapterCard.

(** A run of ratings: each is handled on the state rendered after the one
    before, with its own readings of the clock. *)
Fixpoint rate_all (ratings : list (number * Readings)) (s : State) : State :=
  match ratings with
  | [] => s
  | (rating, Date_now) :: rest => rate_all rest (handleRate rating s Date_now)
  end.

End App.

(** ** Auxiliary notions on binary64 numbers *)

Module Binary64.

Definition is_nan (x : spec_float) : bool :=
  match x with S754_nan => true | _ => false end.

(** Zeros and finite numbers. *)
Definition is_finite (x : spec_float) : bool :=
  match x with S754_zero _ | S754_finite _ _ _ => true | _ => false end.

(** The order of [SFcompare] on finite numbers of one sign is the
    lexicographic order on exponent and mantissa. *)
Definition lex_cmp (m1 : positive) (e1 : Z) (m2 : positive) (e2 : Z) : comparison :=
  match (e1 ?= e2)%Z with
  | Lt => Lt
  | Gt => Gt
  | Eq => Pos.compare_cont Eq m1 m2
  end.

(** The number of binary digits of the mantissa held by a shift record. *)
Definition digits (mrs : shr_record) : Z := Zdigits2 (shr_m mrs).

(** The number 1. *)
Definition SF_one : spec_float := S754_finite false 4503599627370496 (-52).

(** The value of a finite number, scaled by [2^1074] to an integer: the
    exponent of a valid number is at least -1074. *)
Definition scaled (x : spec_float) : Z :=
  match x with
  | S754_finite s m e => cond_Zopp s (Zpos m * 2 ^ (e + 1074))
  | _ => 0
  end.

End Binary64.

(** ** Sample data *)

Module Samples.
Import JS Types SM2 App.

Definition term1 : Term :=
  {| id := "t1"; chapterId := "c1"; term := "Algorithm";
     definition := "A finite sequence of steps that solves a problem";
     aiExplanation := None |}.

Definition term2 : Term :=
  {| id := "t2"; chapterId := "c1";
     term := "Integrated Development Environment (IDE)";
     definition := "Software that combines an editor, a compiler and a debugger";
     aiExplanation := None |}.

Definition term3 : Term :=
  {| id := "t3"; chapterId := "c2"; term := "Object Oriented Programming";
     definition := "A paradigm built on objects that hold data and methods";
     aiExplanation := None |}.

(** A session in the middle of chapter c1, started at time 1000. *)
Definition session (deck : list Term) (index : nat) : State :=
  {| selectedChapter := Some "c1"; progress := ∅; sessionDeck := deck;
     activeCardIndex := index; quizActive := false; totalStudyTime := 0;
     sessionStartTime := Some 1000%float; currentSessionDuration := 0;
     mixedCount := 20 |}.

(** The state before any session, with a given quantity for the mixed
    mode. *)
Definition home (mixedCount : number) : State :=
  {| selectedChapter := None; progress := ∅; sessionDeck := [];
     activeCardIndex := 0; quizActive := false; totalStudyTime := 0;
     sessionStartTime := None; currentSessionDuration := 0;
     mixedCount := mixedCount |}.

(** Readings of the clock: the calls return the numbers of the list in
    turn, and the last of them from then on. *)
Definition readings (l : list Clock) : Readings :=
  fun k => nth k l (List.last l 0%float).

(** Seven reviews of a term, each with its rating and the reading of the
    clock. *)
Definition review_steps : list (number * number) :=
  [(0, 1000); (1, 2000); (0, 3000); (2, 4000); (5, 5000); (3, 6000); (4, 7000)]%float.

(** Progress records. *)
Definition once_reviewed (id : string) (next : number) : UserProgress :=
  {| termId := id; interval := 6; repetition := 1; efactor := 2.5;
     nextReviewDate := next |}.

Definition twice_reviewed (id : string) (next : number) : UserProgress :=
  {| termId := id; interval := 6; repetition := 2; efactor := 2.5;
     nextReviewDate := next |}.

(** A record with two successful reviews and an interval of 0 days. *)
Definition zero_interval : UserProgress :=
  {| termId := "t1"; interval := 0; repetition := 2; efactor := 2.5;
     nextReviewDate := 0 |}.

End Samples.

(** * Part II: lemmas and theorems *)

(** ** Binary64 arithmetic *)

Module Binary64_Facts.
Import JS Binary64.
Local Open Scope Z_scope.

(** *** Comparisons *)
Lemma compare_cont_Eq (p q : positive) : Pos.compare_cont Eq p q = Pos.compare p q.
Proof. reflexivity. Qed.

(** Swapping the arguments of a comparison reverses its outcome. *)
Lemma SFcompare_swap (x y : spec_float) :
  SFcompare y x = option_map CompOpp (SFcompare x y).
Proof.
  destruct x as [sx|sx| |sx mx ex], y as [sy|sy| |sy my ey]; simpl;
    try (destruct sx); try (destruct sy); simpl; try reflexivity.
  all: rewrite (Z.compare_antisym ex ey), !compare_cont_Eq,
         (Pos.compare_antisym mx my);
       destruct (ex ?= ey); simpl; try reflexivity;
       destruct (mx ?= my)%positive; reflexivity.
Qed.

Lemma SFcompare_None (x y : spec_float) :
  SFcompare x y = None <-> is_nan x = true \/ is_nan y = true.
Proof.
  destruct x as [sx|sx| |sx mx ex], y as [sy|sy| |sy my ey]; simpl;
    intuition discriminate.
Qed.

Lemma SFltb_false_SFleb (x y : spec_float) :
  is_nan x = false -> is_nan y = false ->
  SFltb x y = false -> SFleb y x = true.
Proof.
  intros Hx Hy. unfold SFltb, SFleb. rewrite (SFcompare_swap x y).
  destruct (SFcompare x y) as [[]|] eqn:E; simpl; try easy.
  apply SFcompare_None in E. destruct E; congruence.
Qed.

Lemma SFleb_not_nan (x y : spec_float) :
  SFleb x y = true -> is_nan x = false /\ is_nan y = false.
Proof.
  destruct x as [sx|sx| |sx mx ex], y as [sy|sy| |sy my ey]; simpl; auto;
    discriminate.
Qed.

Lemma lex_cmp_le (m1 : positive) (e1 : Z) (m2 : positive) (e2 : Z) :
  lex_cmp m1 e1 m2 e2 <> Gt <-> e1 < e2 \/ (e1 = e2 /\ (m1 <= m2)%positive).
Proof.
  unfold lex_cmp. rewrite compare_cont_Eq.
  destruct (Z.compare_spec e1 e2) as [He|He|He],
           (Pos.compare_spec m1 m2) as [Hm|Hm|Hm];
    split; intros Hc; try lia; try congruence; try discriminate.
  all: try (exfalso; apply Hc; reflexivity).
Qed.

Lemma lex_cmp_ge (m1 : positive) (e1 : Z) (m2 : positive) (e2 : Z) :
  lex_cmp m1 e1 m2 e2 <> Lt <-> e2 < e1 \/ (e1 = e2 /\ (m2 <= m1)%positive).
Proof.
  unfold lex_cmp. rewrite compare_cont_Eq.
  destruct (Z.compare_spec e1 e2) as [He|He|He],
           (Pos.compare_spec m1 m2) as [Hm|Hm|Hm];
    split; intros Hc; try lia; try congruence; try discriminate.
  all: try (exfalso; apply Hc; reflexivity).
Qed.

Lemma SFleb_finite_pos (m1 : positive) (e1 : Z) (m2 : positive) (e2 : Z) :
  SFleb (S754_finite false m1 e1) (S754_finite false m2 e2) = true <->
  e1 < e2 \/ (e1 = e2 /\ (m1 <= m2)%positive).
Proof.
  rewrite <- lex_cmp_le. unfold SFleb, lex_cmp. simpl.
  destruct (e1 ?= e2); try destruct (Pos.compare_cont Eq m1 m2);
    split; intros; try reflexivity; try discriminate; try congruence.
Qed.

Lemma SFleb_finite_neg (m1 : positive) (e1 : Z) (m2 : positive) (e2 : Z) :
  SFleb (S754_finite true m1 e1) (S754_finite true m2 e2) = true <->
  e2 < e1 \/ (e1 = e2 /\ (m2 <= m1)%positive).
Proof.
  rewrite <- lex_cmp_ge. unfold SFleb, lex_cmp. simpl.
  destruct (e1 ?= e2); try destruct (Pos.compare_cont Eq m1 m2);
    split; intros; try reflexivity; try discriminate; try congruence.
Qed.

(** [SFleb] is transitive. *)
Lemma SFleb_trans (x y z : spec_float) :
  SFleb x y = true -> SFleb y z = true -> SFleb x z = true.
Proof.
  destruct x as [sx|sx| |sx mx ex], y as [sy|sy| |sy my ey],
           z as [sz|sz| |sz mz ez];
    try (destruct sx); try (destruct sy); try (destruct sz);
    try (intros; reflexivity); try (intros; discriminate);
    try (intros H; exact (fun _ => H)); try (intros _ H; exact H).
  all: rewrite ?SFleb_finite_pos, ?SFleb_finite_neg; lia.
Qed.

(** *** Rounding *)

(** Shifting a mantissa right. *)

Lemma shr_1_nonneg (mrs : shr_record) :
  0 <= shr_m mrs -> 0 <= shr_m (shr_1 mrs).
Proof.
  destruct mrs as [[|[p|p|]|p] r s]; simpl; lia.
Qed.

Lemma shr_1_digits (mrs : shr_record) :
  0 <= shr_m mrs -> digits (shr_1 mrs) = Z.max 0 (digits mrs - 1).
Proof.
  unfold digits. destruct mrs as [[|[p|p|]|p] r s]; simpl; lia.
Qed.

Lemma iter_pos_shr_1 (n : positive) (mrs : shr_record) :
  0 <= shr_m mrs ->
  0 <= shr_m (iter_pos shr_1 n mrs) /\
  digits (iter_pos shr_1 n mrs) = Z.max 0 (digits mrs - Zpos n).
Proof.
  revert mrs. induction n as [n IH|n IH|]; intros mrs Hm; simpl.
  - pose proof (shr_1_nonneg mrs Hm) as H1.
    pose proof (shr_1_digits mrs Hm) as D1.
    destruct (IH _ H1) as [H2 D2]. destruct (IH _ H2) as [H3 D3].
    split; [exact H3|]. rewrite D3, D2, D1. lia.
  - destruct (IH _ Hm) as [H2 D2]. destruct (IH _ H2) as [H3 D3].
    split; [exact H3|]. rewrite D3, D2. lia.
  - split; [apply shr_1_nonneg, Hm|]. rewrite shr_1_digits by exact Hm. lia.
Qed.

Lemma digits_nonneg (mrs : shr_record) : 0 <= digits mrs.
Proof. unfold digits. destruct (shr_m mrs); simpl; lia. Qed.

Lemma shr_spec (mrs : shr_record) (e n : Z) :
  0 <= shr_m mrs ->
  0 <= shr_m (fst (shr mrs e n)) /\
  digits (fst (shr mrs e n)) = Z.max 0 (digits mrs - Z.max 0 n) /\
  snd (shr mrs e n) = e + Z.max 0 n.
Proof.
  intros Hm. pose proof (digits_nonneg mrs).
  destruct n as [|p|p]; simpl.
  - repeat split; try lia.
  - destruct (iter_pos_shr_1 p mrs Hm) as [H1 D1].
    repeat split; try lia.
  - repeat split; try lia.
Qed.

Lemma shr_record_of_loc_m (m : Z) (l : location) :
  shr_m (shr_record_of_loc m l) = m.
Proof. destruct l as [|[]]; reflexivity. Qed.

Lemma shr_fexp_spec (prec emax m e : Z) (l : location) :
  0 <= m ->
  let n := Z.max 0 (fexp prec emax (Zdigits2 m + e) - e) in
  0 <= shr_m (fst (shr_fexp prec emax m e l)) /\
  digits (fst (shr_fexp prec emax m e l)) = Z.max 0 (Zdigits2 m - n) /\
  snd (shr_fexp prec emax m e l) = e + n.
Proof.
  intros Hm n. unfold shr_fexp.
  pose proof (shr_spec (shr_record_of_loc m l) e
                (fexp prec emax (Zdigits2 m + e) - e)) as H.
  unfold digits in *. rewrite shr_record_of_loc_m in H. apply H, Hm.
Qed.

Lemma Zdigits2_succ (m : Z) :
  0 <= m -> Zdigits2 m <= Zdigits2 (m + 1) <= Zdigits2 m + 1.
Proof.
  intros Hm. destruct m as [|p|p]; [simpl; lia| |lia].
  simpl. rewrite Pos.add_1_r.
  induction p as [p IH|p IH|]; simpl in *; lia.
Qed.

Lemma round_nearest_even_spec (m : Z) (l : location) :
  0 <= m ->
  m <= round_nearest_even m l /\
  Zdigits2 m <= Zdigits2 (round_nearest_even m l) <= Zdigits2 m + 1.
Proof.
  intros Hm. pose proof (Zdigits2_succ m Hm).
  destruct l as [|[]]; simpl; try destruct (Z.even m); lia.
Qed.

(** The rounding of a non-negative mantissa is never NaN. *)
Lemma binary_round_aux_not_nan (prec emax : Z) (sx : bool) (mx ex : Z) (lx : location) :
  0 <= mx -> binary_round_aux prec emax sx mx ex lx <> S754_nan.
Proof.
  intros Hm. unfold binary_round_aux.
  destruct (shr_fexp prec emax mx ex lx) as [mrs' e'] eqn:E1.
  pose proof (shr_fexp_spec prec emax mx ex lx Hm) as [H1 _].
  rewrite E1 in H1. simpl in H1.
  pose proof (round_nearest_even_spec (shr_m mrs') (loc_of_shr_record mrs') H1) as [H2 _].
  assert (H3 : 0 <= round_nearest_even (shr_m mrs') (loc_of_shr_record mrs')) by lia.
  destruct (shr_fexp prec emax _ e' loc_Exact) as [mrs'' e''] eqn:E2.
  pose proof (shr_fexp_spec prec emax _ e' loc_Exact H3) as [H4 _].
  rewrite E2 in H4. simpl in H4.
  destruct (shr_m mrs''); try lia; try discriminate.
  destruct (e'' <=? emax - prec); discriminate.
Qed.

(** In the normal range, a mantissa of at least [prec] digits is
    rounded to a finite number that keeps the sign and whose exponent is
    at least [digits + ex - prec], or overflows to the infinity of that
    sign. *)
Lemma binary_round_aux_normal (prec emax : Z) (sx : bool) (mx : positive) (ex : Z) (lx : location) :
  0 < prec ->
  let d := Zpos (digits2_pos mx) in
  prec <= d ->
  SpecFloat.emin prec emax <= d + ex - prec ->
  binary_round_aux prec emax sx (Zpos mx) ex lx = S754_infinity sx \/
  exists m e, binary_round_aux prec emax sx (Zpos mx) ex lx = S754_finite sx m e /\
              Zpos (digits2_pos m) = prec /\ d + ex - prec <= e.
Proof.
  intros Hp d Hd Hn. unfold binary_round_aux.
  destruct (shr_fexp prec emax (Zpos mx) ex lx) as [mrs' e'] eqn:E1.
  pose proof (shr_fexp_spec prec emax (Zpos mx) ex lx ltac:(lia)) as (H1 & D1 & X1).
  rewrite E1 in H1, D1, X1. simpl in H1, D1, X1. fold d in D1, X1.
  assert (F1 : fexp prec emax (d + ex) = d + ex - prec) by (unfold fexp; lia).
  rewrite F1 in D1, X1.
  pose proof (round_nearest_even_spec (shr_m mrs') (loc_of_shr_record mrs') H1) as [H2 D2].
  set (m2 := round_nearest_even (shr_m mrs') (loc_of_shr_record mrs')) in *.
  unfold digits in D1.
  destruct (shr_fexp prec emax m2 e' loc_Exact) as [mrs'' e''] eqn:E2.
  pose proof (shr_fexp_spec prec emax m2 e' loc_Exact ltac:(lia)) as (H4 & D4 & X4).
  rewrite E2 in H4, D4, X4. simpl in H4, D4, X4.
  assert (F2 : fexp prec emax (Zdigits2 m2 + e') = Zdigits2 m2 + e' - prec)
    by (unfold fexp; lia).
  rewrite F2 in D4, X4. unfold digits in D4.
  destruct (shr_m mrs'') as [|m''|m''] eqn:M; simpl in D4; try lia.
  destruct (e'' <=? emax - prec); [right|left; reflexivity].
  exists m'', e''. repeat split; lia.
Qed.

Lemma digits2_pos_bounds (p : positive) :
  2 ^ (Zpos (digits2_pos p) - 1) <= Zpos p < 2 ^ Zpos (digits2_pos p).
Proof.
  induction p as [p IH|p IH|]; simpl digits2_pos.
  - rewrite Pos2Z.inj_succ.
    replace (Z.succ (Zpos (digits2_pos p)) - 1) with (Z.succ (Zpos (digits2_pos p) - 1)) by lia.
    rewrite !Z.pow_succ_r by lia. lia.
  - rewrite Pos2Z.inj_succ.
    replace (Z.succ (Zpos (digits2_pos p)) - 1) with (Z.succ (Zpos (digits2_pos p) - 1)) by lia.
    rewrite !Z.pow_succ_r by lia. lia.
  - simpl. lia.
Qed.

Lemma digits2_pos_lower (p : positive) (k : Z) :
  0 <= k -> 2 ^ k <= Zpos p -> k < Zpos (digits2_pos p).
Proof.
  intros Hk Hp. pose proof (digits2_pos_bounds p) as [_ Hu].
  apply (Z.pow_lt_mono_r_iff 2); lia.
Qed.

Lemma digits2_pos_iter_xO (p k : positive) :
  digits2_pos (Pos.iter xO p k) = (digits2_pos p + k)%positive.
Proof.
  induction k as [|k IH] using Pos.peano_ind.
  - simpl. lia.
  - rewrite Pos.iter_succ. simpl. rewrite IH. lia.
Qed.

(** [binary_round] in the normal range. *)
Lemma binary_round_normal (prec emax : Z) (sx : bool) (mx : positive) (ex : Z) :
  0 < prec ->
  let d := Zpos (digits2_pos mx) in
  SpecFloat.emin prec emax <= d + ex - prec ->
  binary_round prec emax sx mx ex = S754_infinity sx \/
  exists m e, binary_round prec emax sx mx ex = S754_finite sx m e /\
              Zpos (digits2_pos m) = prec /\ d + ex - prec <= e.
Proof.
  intros Hp d Hn. unfold binary_round.
  assert (F : fexp prec emax (d + ex) = d + ex - prec) by (unfold fexp; lia).
  fold d. rewrite F. unfold shl_align.
  destruct (d + ex - prec - ex) as [|k|k] eqn:K.
  - destruct (binary_round_aux_normal prec emax sx mx ex loc_Exact Hp)
      as [H|(m & e & H & Hd & He)]; fold d; try lia; [left; exact H|].
    right. exists m, e. fold d in He. auto.
  - destruct (binary_round_aux_normal prec emax sx mx ex loc_Exact Hp)
      as [H|(m & e & H & Hd & He)]; fold d; try lia; [left; exact H|].
    right. exists m, e. fold d in He. auto.
  - pose proof (digits2_pos_iter_xO mx k) as Hk.
    destruct (binary_round_aux_normal prec emax sx (Pos.iter xO mx k)
                (d + ex - prec) loc_Exact Hp)
      as [H|(m & e & H & Hd & He)]; rewrite ?Hk; try lia; [left; exact H|].
    right. exists m, e. rewrite Hk in He. repeat split; auto; lia.
Qed.

(** *** Sums, products and integers *)

Lemma Prim2SF_one : Prim2SF 1%float = SF_one.
Proof. vm_compute. reflexivity. Qed.

(** A number that is at least a positive finite number is a positive
    finite number or +infinity. *)
Lemma SFleb_pos_inv (m : positive) (e : Z) (x : spec_float) :
  SFleb (S754_finite false m e) x = true ->
  x = S754_infinity false \/
  exists mx ex, x = S754_finite false mx ex /\
                (e < ex \/ (e = ex /\ (m <= mx)%positive)).
Proof.
  destruct x as [s|[]| |[] mx ex]; try discriminate; auto.
  intros H. right. exists mx, ex. split; [reflexivity|].
  apply SFleb_finite_pos, H.
Qed.

(** A valid finite number with exponent above [emin] has 53 digits. *)
Lemma valid_normal_digits (s : bool) (m : positive) (e : Z) :
  valid_binary (S754_finite s m e) = true -> emin < e ->
  Zpos (digits2_pos m) = prec.
Proof.
  unfold SpecFloat.valid_binary, bounded, canonical_mantissa, fexp.
  intros H He. apply andb_true_iff in H as [H _].
  apply Z.eqb_eq in H. unfold SpecFloat.emin, prec, emax in *. lia.
Qed.

Lemma SFleb_one_normal (m : positive) (e : Z) :
  Zpos (digits2_pos m) = prec -> -52 <= e ->
  SFleb SF_one (S754_finite false m e) = true.
Proof.
  intros Hd He. apply SFleb_finite_pos.
  pose proof (digits2_pos_bounds m) as [Hl _]. rewrite Hd in Hl.
  change (2 ^ (prec - 1)) with 4503599627370496 in Hl. lia.
Qed.

(** Sums: adding a zero or a finite number to a number that is not NaN
    never yields NaN. *)

Lemma SF64add_not_nan (x y : spec_float) :
  is_nan x = false -> is_finite y = true -> is_nan (SF64add x y) = false.
Proof.
  destruct x as [sx|sx| |sx mx ex], y as [sy|sy| |sy my ey];
    try discriminate; intros _ _; simpl; try reflexivity.
  - destruct sx, sy; reflexivity.
  - destruct (_ + _) as [|p|p] eqn:E; simpl; try reflexivity;
      unfold binary_round;
      match goal with
      | |- context [shl_align ?a ?b ?c] => destruct (shl_align a b c) as [mz ez]
      end;
      match goal with
      | |- is_nan ?r = false =>
          pose proof (binary_round_aux_not_nan prec emax) as HN;
          destruct r eqn:R; try reflexivity
      end; exfalso; refine (HN _ _ _ _ _ R); lia.
Qed.

(** Products: the product of a number at least 1 with a number at least
    1 is at least 1. *)
Lemma SF64mul_ge_one (x y : spec_float) :
  valid_binary x = true -> valid_binary y = true ->
  SFleb SF_one x = true -> SFleb SF_one y = true ->
  SFleb SF_one (SF64mul x y) = true.
Proof.
  intros Vx Vy Hx Hy.
  apply SFleb_pos_inv in Hx as [->|(mx & ex & -> & Hx)];
    apply SFleb_pos_inv in Hy as [->|(my & ey & -> & Hy)];
    try reflexivity.
  pose proof (valid_normal_digits _ _ _ Vx ltac:(unfold SpecFloat.emin, emax, prec; lia)) as Dx.
  pose proof (valid_normal_digits _ _ _ Vy ltac:(unfold SpecFloat.emin, emax, prec; lia)) as Dy.
  pose proof (digits2_pos_bounds mx) as [Lx _].
  pose proof (digits2_pos_bounds my) as [Ly _].
  rewrite Dx in Lx. rewrite Dy in Ly.
  change (2 ^ (prec - 1)) with (2 ^ 52) in Lx, Ly.
  assert (Hd : 104 < Zpos (digits2_pos (mx * my))).
  { apply digits2_pos_lower; [lia|]. rewrite Pos2Z.inj_mul.
    change (2 ^ 104) with (2 ^ 52 * 2 ^ 52). nia. }
  unfold SF64mul, SFmul. simpl xorb.
  destruct (binary_round_aux_normal prec emax false (mx * my) (ex + ey) loc_Exact)
    as [H|(m & e & H & Hm & He)];
    try (unfold SpecFloat.emin, emax, prec; lia);
    rewrite H; [reflexivity|].
  apply SFleb_one_normal; [exact Hm|]. unfold prec in He. lia.
Qed.

(** Integers: a positive integer below [2^63] converts to a number that
    is at least 1. *)
Lemma number_of_Z_ge_one (n : Z) :
  1 <= n < wB -> (1 <=? number_of_Z n)%float = true.
Proof.
  intros Hn. destruct n as [|p|p]; try lia.
  unfold number_of_Z. rewrite FloatAxioms.leb_spec, of_uint63_spec, of_Z_spec, Prim2SF_one.
  rewrite Z.mod_small by lia. simpl binary_normalize.
  destruct (binary_round_normal prec emax false p 0)
    as [H|(m & e & H & Hm & He)];
    try (unfold SpecFloat.emin, emax, prec; lia);
    rewrite H; [reflexivity|].
  apply SFleb_one_normal; [exact Hm|]. unfold prec in He. lia.
Qed.

(** Rounding to an integer keeps a number at least 1. *)
Lemma Math_round_ge_one (x : number) :
  (1 <=? x)%float = true -> (1 <=? Math_round x)%float = true.
Proof.
  intros Hx. pose proof Hx as Hx'.
  rewrite FloatAxioms.leb_spec, Prim2SF_one in Hx'.
  pose proof (Prim2SF_valid x) as V.
  unfold Math_round.
  apply SFleb_pos_inv in Hx' as [E|(m & e & E & He)]; rewrite E in *;
    [exact Hx|].
  destruct (0 <=? e) eqn:E0; [exact Hx|]. apply Z.leb_gt in E0.
  pose proof (valid_normal_digits _ _ _ V ltac:(unfold SpecFloat.emin, emax, prec; lia)) as D.
  pose proof (digits2_pos_bounds m) as [L U]. rewrite D in L, U.
  change (2 ^ (prec - 1)) with (2 ^ 52) in L.
  change (2 ^ prec) with (2 ^ 53) in U.
  assert (He' : -52 <= e < 0) by lia.
  assert (Hr : 1 <= round_to_Z false m e < wB).
  { unfold round_to_Z. simpl cond_Zopp.
    assert (P1 : 0 < 2 ^ (- e - 1)) by (apply Z.pow_pos_nonneg; lia).
    assert (P2 : 2 ^ (- e) = 2 * 2 ^ (- e - 1)).
    { rewrite <- Z.pow_succ_r by lia. f_equal. lia. }
    assert (P3 : 2 ^ (- e) <= 2 ^ 52) by (apply Z.pow_le_mono_r; lia).
    split.
    - apply Z.div_le_lower_bound; lia.
    - apply Z.div_lt_upper_bound; [lia|].
      change wB with (2 ^ 63). change (2^63) with (1024 * 2 ^ 53). nia. }
  pose proof (number_of_Z_ge_one _ Hr) as G.
  destruct (round_to_Z false m e) as [|q|q]; try lia; exact G.
Qed.

Lemma ltb_zero_of_ge_one (x : number) :
  (1 <=? x)%float = true -> (0 <? x)%float = true.
Proof.
  rewrite FloatAxioms.leb_spec, FloatAxioms.ltb_spec, Prim2SF_one. intros H.
  apply SFleb_pos_inv in H as [->|(m & e & -> & _)]; reflexivity.
Qed.

(** *** Numbers and integers *)

Lemma is_nan_Prim2SF (x : number) : PrimFloat.is_nan x = is_nan (Prim2SF x).
Proof.
  unfold PrimFloat.is_nan. rewrite FloatAxioms.eqb_spec. unfold SFeqb.
  destruct (Prim2SF x) as [s|s| |s m e]; simpl; try reflexivity.
  - destruct s; reflexivity.
  - rewrite Z.compare_refl, Pos.compare_cont_refl. destruct s; reflexivity.
Qed.

(** A valid finite number has an exponent of at least -1074 and a mantissa
    below [2^53], of 53 digits when the exponent is above -1074. *)
Lemma valid_finite_bounds (s : bool) (m : positive) (e : Z) :
  valid_binary (S754_finite s m e) = true ->
  -1074 <= e <= 971 /\ Zpos m < 2 ^ 53 /\ (-1074 < e -> 2 ^ 52 <= Zpos m).
Proof.
  unfold SpecFloat.valid_binary, bounded, canonical_mantissa, fexp.
  intros H. apply andb_true_iff in H as [H1 H2].
  apply Z.eqb_eq in H1. apply Z.leb_le in H2.
  unfold SpecFloat.emin, prec, emax in *.
  pose proof (digits2_pos_bounds m) as [L U].
  assert (D : Zpos (digits2_pos m) <= 53) by lia.
  split; [lia|]. split.
  - apply Z.lt_le_trans with (1 := U). apply Z.pow_le_mono_r; lia.
  - intros He. assert (D' : Zpos (digits2_pos m) = 53) by lia.
    rewrite D' in L. exact L.
Qed.

(** The order of valid positive numbers is the order of their values,
    scaled by [2^1074] to integers. *)
Lemma scaled_finite_pos (m : positive) (e : Z) :
  scaled (S754_finite false m e) = Zpos m * 2 ^ (e + 1074).
Proof. reflexivity. Qed.

Lemma SFcompare_scaled (m1 : positive) (e1 : Z) (m2 : positive) (e2 : Z) :
  valid_binary (S754_finite false m1 e1) = true ->
  valid_binary (S754_finite false m2 e2) = true ->
  SFcompare (S754_finite false m1 e1) (S754_finite false m2 e2)
  = Some (scaled (S754_finite false m1 e1) ?= scaled (S754_finite false m2 e2)).
Proof.
  intros V1 V2. rewrite !scaled_finite_pos.
  destruct (valid_finite_bounds _ _ _ V1) as (E1 & U1 & L1).
  destruct (valid_finite_bounds _ _ _ V2) as (E2 & U2 & L2).
  assert (Hlt : forall (ma mb : positive) (ea eb : Z),
            -1074 <= ea -> ea < eb -> Zpos ma < 2 ^ 53 -> 2 ^ 52 <= Zpos mb ->
            Zpos ma * 2 ^ (ea + 1074) < Zpos mb * 2 ^ (eb + 1074)).
  { intros ma mb ea eb Ha Hab Ua Lb.
    replace (eb + 1074) with ((ea + 1074) + (eb - ea)) by lia.
    rewrite (Z.pow_add_r 2 (ea + 1074) (eb - ea)) by lia.
    assert (P1 : 0 < 2 ^ (ea + 1074)) by (apply Z.pow_pos_nonneg; lia).
    assert (P2 : 2 ^ 1 <= 2 ^ (eb - ea)) by (apply Z.pow_le_mono_r; lia).
    change (2 ^ 1) with 2 in P2. change (2 ^ 53) with (2 * 2 ^ 52) in Ua.
    apply Z.lt_le_trans with (2 * 2 ^ 52 * 2 ^ (ea + 1074)).
    - apply Z.mul_lt_mono_pos_r; assumption.
    - rewrite (Z.mul_comm (2 ^ (ea + 1074))), Z.mul_assoc.
      apply Z.mul_le_mono_nonneg_r; [lia|].
      rewrite (Z.mul_comm 2). apply Z.mul_le_mono_nonneg; lia. }
  simpl SFcompare. f_equal.
  destruct (Z.compare_spec e1 e2) as [He|He|He].
  - subst e2. rewrite compare_cont_Eq.
    assert (P : 0 < 2 ^ (e1 + 1074)) by (apply Z.pow_pos_nonneg; lia).
    destruct (Pos.compare_spec m1 m2) as [Hm|Hm|Hm]; symmetry.
    + subst. apply Z.compare_refl.
    + apply Z.compare_lt_iff. nia.
    + apply Z.compare_gt_iff. nia.
  - symmetry. apply Z.compare_lt_iff. apply Hlt; lia.
  - symmetry. apply Z.compare_gt_iff. apply Hlt; lia.
Qed.

(** Integers: a positive integer below [2^53] converts exactly. *)
Lemma Zpos_iter_xO (p k : positive) :
  Zpos (Pos.iter xO p k) = Zpos p * 2 ^ Zpos k.
Proof.
  induction k as [|k IH] using Pos.peano_ind.
  - simpl. lia.
  - rewrite Pos.iter_succ, Pos2Z.inj_xO, IH, Pos2Z.inj_succ, Z.pow_succ_r by lia. lia.
Qed.

Lemma binary_round_aux_exact (s : bool) (m : positive) (e : Z) :
  Zpos (digits2_pos m) = prec -> -1074 <= e <= 971 ->
  binary_round_aux prec emax s (Zpos m) e loc_Exact = S754_finite s m e.
Proof.
  intros D He.
  assert (F : fexp prec emax (Zdigits2 (Zpos m) + e) - e = 0).
  { simpl Zdigits2. rewrite D. unfold fexp, SpecFloat.emin, prec, emax. lia. }
  unfold binary_round_aux, shr_fexp. rewrite F. simpl.
  rewrite D.
  replace (fexp prec emax (prec + e) - e) with 0
    by (unfold fexp, SpecFloat.emin, prec, emax; lia).
  simpl. destruct (Z.leb_spec e (emax - prec)) as [_|H]; [reflexivity|].
  unfold emax, prec in H. lia.
Qed.

Lemma number_of_Z_exact (n : Z) :
  1 <= n < 2 ^ 53 ->
  exists m e, Prim2SF (number_of_Z n) = S754_finite false m e /\
              -52 <= e <= 0 /\ Zpos m = n * 2 ^ (- e).
Proof.
  intros Hn. destruct n as [|p|p]; try lia.
  unfold number_of_Z. rewrite of_uint63_spec, of_Z_spec.
  rewrite Z.mod_small by (change wB with (2 ^ 63); split; [lia|];
    apply Z.lt_trans with (2 ^ 53); [lia|reflexivity]).
  simpl binary_normalize. unfold binary_round.
  pose proof (digits2_pos_bounds p) as [L U].
  set (d := Zpos (digits2_pos p)) in *.
  assert (Hd : 1 <= d <= 53).
  { split; [unfold d; lia|].
    destruct (Z.le_gt_cases d 53) as [?|G]; [assumption|exfalso].
    assert (2 ^ 53 <= 2 ^ (d - 1)) by (apply Z.pow_le_mono_r; lia). lia. }
  assert (F : fexp prec emax (d + 0) = d - 53)
    by (unfold fexp, SpecFloat.emin, prec, emax; lia).
  rewrite F. unfold shl_align.
  destruct (d - 53 - 0) as [|k|k] eqn:K; try lia.
  - assert (d = 53) by lia.
    rewrite binary_round_aux_exact by (fold d; unfold prec; lia).
    exists p, 0. split; [reflexivity|]. split; [lia|]. simpl. lia.
  - rewrite binary_round_aux_exact.
    + exists (Pos.iter xO p k), (d - 53). split; [reflexivity|]. split; [lia|].
      rewrite Zpos_iter_xO. f_equal. f_equal. lia.
    + rewrite digits2_pos_iter_xO, Pos2Z.inj_add. fold d. unfold prec. lia.
    + lia.
Qed.

Lemma ToIntegerOrInfinity_finite (x : number) (s : bool) (m : positive) (e : Z) :
  Prim2SF x = S754_finite s m e -> -1074 <= e ->
  ToIntegerOrInfinity x = Finite (cond_Zopp s (Zpos m * 2 ^ (e + 1074) / 2 ^ 1074)).
Proof.
  intros E He. unfold ToIntegerOrInfinity. rewrite E. do 2 f_equal.
  destruct (Z.leb_spec 0 e) as [H0|H0].
  - rewrite (Z.pow_add_r 2 e 1074) by lia. rewrite Z.mul_assoc, Z.div_mul; [reflexivity|].
    apply Z.pow_nonzero; lia.
  - replace (2 ^ 1074) with (2 ^ (- e) * 2 ^ (e + 1074))
      by (rewrite <- Z.pow_add_r by lia; f_equal; lia).
    rewrite Z.div_mul_cancel_r; [reflexivity| |]; apply Z.pow_nonzero; lia.
Qed.

Lemma ToIntegerOrInfinity_number_of_Z (n : Z) :
  1 <= n < 2 ^ 53 -> ToIntegerOrInfinity (number_of_Z n) = Finite n.
Proof.
  intros Hn. destruct (number_of_Z_exact n Hn) as (m & e & E & He & Hm).
  rewrite (ToIntegerOrInfinity_finite _ _ _ _ E) by lia.
  simpl cond_Zopp. f_equal. rewrite Hm.
  rewrite <- Z.mul_assoc, <- Z.pow_add_r by lia.
  replace (- e + (e + 1074)) with 1074 by lia.
  apply Z.div_mul. apply Z.pow_nonzero; lia.
Qed.

(** [Math.min], [Math.max] and [ToIntegerOrInfinity] on sample numbers. *)
Example Math_min_max_samples :
  map (fun xy => Math_min xy.1 xy.2)
      [(2.5, 3); (3, 2.5); (0, -0); (-0, 0); (neg_infinity, 1); (infinity, 3)]%float
  = [2.5; 2.5; -0; -0; neg_infinity; 3]%float /\
  map (fun xy => Math_max xy.1 xy.2)
      [(1, 2.5); (1, 0.5); (-0, 0); (0, -0); (1, neg_infinity); (1, 1)]%float
  = [2.5; 1; 0; 0; 1; 1]%float /\
  PrimFloat.is_nan (Math_min nan 3) = true /\
  PrimFloat.is_nan (Math_max 1 nan) = true /\
  map ToIntegerOrInfinity [2.5; -2.5; 0.9; -0; 20; nan; infinity; neg_infinity]%float
  = [Finite 2; Finite (-2); Finite 0; Finite 0; Finite 20; Finite 0;
     PlusInfinity; MinusInfinity].
Proof. vm_compute. repeat split. Qed.

(** [Math.min] and [Math.max] of numbers that are not NaN. *)
Lemma Math_min_cases (x y : number) :
  is_nan (Prim2SF x) = false -> is_nan (Prim2SF y) = false ->
  (Math_min x y = x /\ SFleb (Prim2SF x) (Prim2SF y) = true) \/
  (Math_min x y = y /\ SFleb (Prim2SF y) (Prim2SF x) = true).
Proof.
  intros Hx Hy. unfold Math_min.
  rewrite !is_nan_Prim2SF, Hx, Hy, !FloatAxioms.ltb_spec. cbn [orb].
  unfold SFltb, SFleb. rewrite (SFcompare_swap (Prim2SF x) (Prim2SF y)).
  destruct (SFcompare (Prim2SF x) (Prim2SF y)) as [[]|] eqn:E; cbn.
  - destruct (Prim2SF x) as [[]| | |]; auto.
  - auto.
  - auto.
  - apply SFcompare_None in E. destruct E; congruence.
Qed.

Lemma Math_max_cases (x y : number) :
  is_nan (Prim2SF x) = false -> is_nan (Prim2SF y) = false ->
  (Math_max x y = x /\ SFleb (Prim2SF y) (Prim2SF x) = true) \/
  (Math_max x y = y /\ SFleb (Prim2SF x) (Prim2SF y) = true).
Proof.
  intros Hx Hy. unfold Math_max.
  rewrite !is_nan_Prim2SF, Hx, Hy, !FloatAxioms.ltb_spec. cbn [orb].
  unfold SFltb, SFleb. rewrite (SFcompare_swap (Prim2SF x) (Prim2SF y)).
  destruct (SFcompare (Prim2SF x) (Prim2SF y)) as [[]|] eqn:E; cbn.
  - destruct (Prim2SF x) as [[]| | |]; auto.
  - auto.
  - auto.
  - apply SFcompare_None in E. destruct E; congruence.
Qed.

Lemma Math_min_nan (x y : number) :
  is_nan (Prim2SF x) = true -> Math_min x y = nan.
Proof. intros H. unfold Math_min. rewrite is_nan_Prim2SF, H. reflexivity. Qed.

Lemma Math_max_nan_r (x : number) : Math_max x nan = nan.
Proof.
  unfold Math_max. replace (PrimFloat.is_nan nan) with true by reflexivity.
  rewrite orb_true_r. reflexivity.
Qed.

Lemma SFleb_scaled (m1 : positive) (e1 : Z) (m2 : positive) (e2 : Z) :
  valid_binary (S754_finite false m1 e1) = true ->
  valid_binary (S754_finite false m2 e2) = true ->
  SFleb (S754_finite false m1 e1) (S754_finite false m2 e2) = true ->
  scaled (S754_finite false m1 e1) <= scaled (S754_finite false m2 e2).
Proof.
  intros V1 V2. unfold SFleb. rewrite (SFcompare_scaled _ _ _ _ V1 V2).
  destruct (Z.compare_spec (scaled (S754_finite false m1 e1))
              (scaled (S754_finite false m2 e2))); intros; try lia; discriminate.
Qed.

(** The number of elements that [slice(0, Math.max(1, Math.min(x, len)))]
    keeps of an array of [len] elements. *)
Lemma slice_end_clamped (x : number) (len : Z) :
  1 <= len < 2 ^ 53 ->
  relative_index_of len
    (ToIntegerOrInfinity (Math_max 1 (Math_min x (number_of_Z len))))
  = if PrimFloat.is_nan x then 0 else clamp 1 len (ToIntegerOrInfinity x).
Proof.
  intros Hlen. rewrite is_nan_Prim2SF.
  destruct (number_of_Z_exact len Hlen) as (mL & eL & EL & HeL & HmL).
  pose proof (Prim2SF_valid (number_of_Z len)) as VL. rewrite EL in VL.
  pose proof (Prim2SF_valid x) as Vx.
  pose proof (Prim2SF_valid 1) as V1. rewrite Prim2SF_one in V1.
  set (K := 2 ^ 1074).
  assert (HK : 0 < K) by (apply Z.pow_pos_nonneg; lia).
  assert (SL : scaled (S754_finite false mL eL) = len * K).
  { rewrite scaled_finite_pos, HmL, <- Z.mul_assoc, <- Z.pow_add_r by lia.
    unfold K. do 2 f_equal. lia. }
  assert (S1 : scaled (S754_finite false 4503599627370496 (-52)) = K) by reflexivity.
  assert (T1 : ToIntegerOrInfinity 1 = Finite 1) by reflexivity.
  assert (TL : ToIntegerOrInfinity (number_of_Z len) = Finite len)
    by (apply ToIntegerOrInfinity_number_of_Z, Hlen).
  assert (N1 : is_nan (Prim2SF 1) = false) by reflexivity.
  assert (NL : is_nan (Prim2SF (number_of_Z len)) = false) by (rewrite EL; reflexivity).
  (* the slice of [Math.max(1, r)] for a number [r] that is at least 1 and
     the length, or below 1 *)
  assert (Hone : forall r, is_nan (Prim2SF r) = false ->
            SFleb SF_one (Prim2SF r) = false ->
            relative_index_of len (ToIntegerOrInfinity (Math_max 1 r)) = 1).
  { intros r Nr Hr.
    destruct (Math_max_cases 1 r N1 Nr) as [[-> _]|[_ H]].
    - rewrite T1. unfold relative_index_of, relative_index. simpl. lia.
    - rewrite Prim2SF_one in H. congruence. }
  destruct (Prim2SF x) as [sx|sx| |sx mx ex] eqn:EX; cbn [is_nan].
  - (* zero *)
    assert (NX : is_nan (Prim2SF x) = false) by (rewrite EX; reflexivity).
    assert (R : Math_min x (number_of_Z len) = x).
    { destruct (Math_min_cases x (number_of_Z len) NX NL) as [[-> _]|[_ H]];
        [reflexivity|]. rewrite EX, EL in H. discriminate. }
    rewrite R, Hone by (rewrite EX; reflexivity).
    unfold ToIntegerOrInfinity. rewrite EX. simpl. lia.
  - (* infinity *)
    destruct sx.
    + assert (NX : is_nan (Prim2SF x) = false) by (rewrite EX; reflexivity).
      assert (R : Math_min x (number_of_Z len) = x).
      { destruct (Math_min_cases x (number_of_Z len) NX NL) as [[-> _]|[_ H]];
          [reflexivity|]. rewrite EX, EL in H. discriminate. }
      rewrite R, Hone by (rewrite EX; reflexivity).
      unfold ToIntegerOrInfinity. rewrite EX. reflexivity.
    + assert (NX : is_nan (Prim2SF x) = false) by (rewrite EX; reflexivity).
      assert (R : Math_min x (number_of_Z len) = number_of_Z len).
      { destruct (Math_min_cases x (number_of_Z len) NX NL) as [[_ H]|[-> _]];
          [|reflexivity]. rewrite EX, EL in H. discriminate. }
      rewrite R.
      destruct (Math_max_cases 1 (number_of_Z len) N1 NL) as [[-> H]|[-> _]].
      * rewrite Prim2SF_one, EL in H. apply SFleb_scaled in H; try assumption.
        rewrite SL, S1 in H. assert (len = 1) by nia. subst len.
        rewrite T1. unfold ToIntegerOrInfinity. rewrite EX. reflexivity.
      * rewrite TL. unfold ToIntegerOrInfinity. rewrite EX.
        unfold relative_index_of, relative_index, clamp.
        destruct (Z.ltb_spec len 0); lia.
  - (* NaN *)
    rewrite Math_min_nan by (rewrite EX; reflexivity).
    rewrite Math_max_nan_r.
    replace (ToIntegerOrInfinity nan) with (Finite 0) by (vm_compute; reflexivity).
    unfold relative_index_of, relative_index. simpl. lia.
  - (* finite *)
    destruct (valid_finite_bounds _ _ _ Vx) as (Ex & _).
    rewrite (ToIntegerOrInfinity_finite x _ _ _ EX) by lia.
    destruct sx.
    + assert (NX : is_nan (Prim2SF x) = false) by (rewrite EX; reflexivity).
      assert (R : Math_min x (number_of_Z len) = x).
      { destruct (Math_min_cases x (number_of_Z len) NX NL) as [[-> _]|[_ H]];
          [reflexivity|]. rewrite EX, EL in H. discriminate. }
      rewrite R, Hone by (rewrite EX; reflexivity).
      unfold clamp. simpl cond_Zopp. fold K.
      assert (0 <= Zpos mx * 2 ^ (ex + 1074) / K).
      { apply Z.div_pos; [|exact HK]. apply Z.mul_nonneg_nonneg; [lia|].
        apply Z.pow_nonneg. lia. }
      lia.
    + simpl cond_Zopp. rewrite <- scaled_finite_pos. fold K.
      set (S := scaled (S754_finite false mx ex)).
      assert (HS : 0 <= S).
      { unfold S. rewrite scaled_finite_pos. apply Z.mul_nonneg_nonneg; [lia|].
        apply Z.pow_nonneg. lia. }
      (* a number [r] between 1 and the length whose integral part is [t] *)
      assert (Hmax : forall r mr er,
                Prim2SF r = S754_finite false mr er ->
                relative_index_of len (ToIntegerOrInfinity (Math_max 1 r))
                = Z.min (Z.max 1 (scaled (S754_finite false mr er) / K)) len).
      { intros r mr er Er.
        pose proof (Prim2SF_valid r) as Vr. rewrite Er in Vr.
        destruct (valid_finite_bounds _ _ _ Vr) as (Hr & _).
        assert (Nr : is_nan (Prim2SF r) = false) by (rewrite Er; reflexivity).
        assert (Tr : ToIntegerOrInfinity r
                     = Finite (scaled (S754_finite false mr er) / K)).
        { rewrite (ToIntegerOrInfinity_finite r _ _ _ Er) by lia. reflexivity. }
        assert (0 <= scaled (S754_finite false mr er)).
        { rewrite scaled_finite_pos. apply Z.mul_nonneg_nonneg; [lia|].
          apply Z.pow_nonneg. lia. }
        destruct (Math_max_cases 1 r N1 Nr) as [[-> H1]|[-> H1]];
          rewrite Prim2SF_one, Er in H1; apply SFleb_scaled in H1; try assumption;
          rewrite S1 in H1.
        - rewrite T1. cbn [relative_index_of]. unfold relative_index.
          assert (scaled (S754_finite false mr er) / K <= 1).
          { apply Z.div_le_upper_bound; lia. }
          destruct (Z.ltb_spec 1 0); lia.
        - rewrite Tr. cbn [relative_index_of]. unfold relative_index.
          assert (1 <= scaled (S754_finite false mr er) / K).
          { apply Z.div_le_lower_bound; lia. }
          destruct (Z.ltb_spec (scaled (S754_finite false mr er) / K) 0); lia. }
      assert (NX : is_nan (Prim2SF x) = false) by (rewrite EX; reflexivity).
      destruct (Math_min_cases x (number_of_Z len) NX NL) as [[-> H]|[-> H]];
        rewrite EX, EL in H; apply SFleb_scaled in H; try assumption;
        rewrite SL in H; fold S in H.
      * rewrite (Hmax x mx ex EX). fold S. unfold clamp.
        assert (S / K <= len) by (apply Z.div_le_upper_bound; lia).
        lia.
      * rewrite (Hmax _ mL eL EL), SL, Z.div_mul by lia. unfold clamp.
        assert (len <= S / K) by (apply Z.div_le_lower_bound; lia).
        lia.
Qed.

(** A number below 1 has an integral part of at most 0. *)
Lemma clamp_below_one (x : number) (hi : Z) :
  1 <= hi -> (x <? 1)%float = true ->
  PrimFloat.is_nan x = false /\ clamp 1 hi (ToIntegerOrInfinity x) = 1.
Proof.
  intros Hhi Hx. rewrite is_nan_Prim2SF.
  rewrite FloatAxioms.ltb_spec, Prim2SF_one in Hx.
  pose proof (Prim2SF_valid x) as Vx.
  pose proof (Prim2SF_valid 1) as V1. rewrite Prim2SF_one in V1.
  destruct (Prim2SF x) as [sx|sx| |sx mx ex] eqn:EX; try discriminate.
  - split; [reflexivity|]. unfold ToIntegerOrInfinity. rewrite EX. simpl. lia.
  - destruct sx; [|discriminate]. split; [reflexivity|].
    unfold ToIntegerOrInfinity. rewrite EX. reflexivity.
  - split; [reflexivity|].
    destruct (valid_finite_bounds _ _ _ Vx) as (Ex & _).
    rewrite (ToIntegerOrInfinity_finite x _ _ _ EX) by lia.
    assert (HK : 0 < 2 ^ 1074) by (apply Z.pow_pos_nonneg; lia).
    assert (HS : 0 <= Zpos mx * 2 ^ (ex + 1074)).
    { apply Z.mul_nonneg_nonneg; [lia|]. apply Z.pow_nonneg. lia. }
    destruct sx; unfold clamp; simpl cond_Zopp.
    + assert (0 <= Zpos mx * 2 ^ (ex + 1074) / 2 ^ 1074) by (apply Z.div_pos; lia).
      lia.
    + unfold SFltb, SF_one in Hx. unfold SF_one in V1.
      rewrite (SFcompare_scaled _ _ _ _ Vx V1) in Hx.
      rewrite (scaled_finite_pos mx ex) in Hx.
      change (scaled (S754_finite false 4503599627370496 (-52))) with (2 ^ 1074) in Hx.
      destruct (Z.compare_spec (Zpos mx * 2 ^ (ex + 1074)) (2 ^ 1074)) as [?|Hlt|?];
        try discriminate.
      rewrite Z.div_small by lia. lia.
Qed.

End Binary64_Facts.

(** ** The scheduler *)

Module SM2_Facts.
Import JS Types SM2 Binary64 Binary64_Facts Samples.

(** [Math.round] on sample numbers: ties go up, and a zero result keeps
    the sign. *)
Example Math_round_samples :
  map Math_round [2.5; -2.5; 6.5; 0.5; -0.5; -0.6; 15; 0.49999999999999994;
                  4503599627370495.5; infinity]%float
  = [3; -2; 7; 1; -0; -1; 15; 0; 4503599627370496; infinity]%float.
Proof. vm_compute. reflexivity. Qed.

(** Two numbers that are equal compare equal. *)
Lemma number_eq_eqb (x y : number) : x = y -> (x =? y)%float = (y =? y)%float.
Proof. intros ->. reflexivity. Qed.

Lemma leb_trans (x y z : number) :
  (x <=? y)%float = true -> (y <=? z)%float = true -> (x <=? z)%float = true.
Proof. rewrite !FloatAxioms.leb_spec. apply SFleb_trans. Qed.

Lemma leb_not_nan (x y : number) :
  (x <=? y)%float = true ->
  is_nan (Prim2SF x) = false /\ is_nan (Prim2SF y) = false.
Proof. rewrite FloatAxioms.leb_spec. apply SFleb_not_nan. Qed.

(** *** The ease factor *)

Lemma easeDelta_finite (rating : number) :
  Rating rating -> is_finite (Prim2SF (easeDelta rating)) = true.
Proof.
  unfold Rating. simpl. intros H.
  repeat (destruct H as [<-|H]; [vm_compute; reflexivity|]). destruct H.
Qed.

Lemma nextEfactor_floor (e rating : number) :
  is_nan (Prim2SF e) = false -> Rating rating ->
  (1.3 <=? nextEfactor e rating)%float = true.
Proof.
  intros He Hr. unfold nextEfactor. fold (easeDelta rating).
  destruct (e + easeDelta rating <? 1.3)%float eqn:E; [reflexivity|].
  rewrite FloatAxioms.ltb_spec in E. rewrite FloatAxioms.leb_spec.
  apply SFltb_false_SFleb; [| reflexivity | exact E].
  rewrite FloatAxioms.add_spec. apply SF64add_not_nan; [exact He|].
  apply easeDelta_finite, Hr.
Qed.

Lemma efactor_calculateNextReview (p : option UserProgress) (rating : number)
    (id : string) (now : Clock) :
  efactor (calculateNextReview p rating id now) = nextEfactor (efactor_of p) rating.
Proof.
  unfold calculateNextReview, efactor_of.
  destruct p as [r|]; destruct (3 <=? rating)%float; reflexivity.
Qed.

(** C6: starting from an ease factor of at least 1.3, or from the seed
    2.5 of a term never studied, the ease factor is at least 1.3 after
    every finite sequence of reviews with ratings among 0, ..., 5. *)
Theorem efactor_never_below_floor (p : option UserProgress) (id : string)
    (steps : list (number * Clock)) :
  (1.3 <=? efactor_of p)%float = true ->
  Forall (fun step => Rating step.1) steps ->
  (1.3 <=? efactor_of (review_all p id steps))%float = true.
Proof.
  intros Hp Hs. revert p Hp.
  induction Hs as [|[rating now] steps Hr _ IH]; intros p Hp; simpl.
  - exact Hp.
  - apply IH. simpl. rewrite efactor_calculateNextReview.
    apply nextEfactor_floor; [|exact Hr].
    apply leb_not_nan in Hp. apply Hp.
Qed.

Lemma efactor_never_below_floor_witness :
  (1.3 <=? efactor_of None)%float = true /\
  Forall (fun step => Rating step.1) review_steps /\
  (1.3 <=? efactor_of (review_all None "t1" review_steps))%float = true.
Proof.
  assert (H1 : (1.3 <=? efactor_of None)%float = true) by reflexivity.
  assert (H2 : Forall (fun step => Rating step.1) review_steps)
    by (unfold Rating; repeat constructor; simpl; tauto).
  split; [exact H1|]. split; [exact H2|].
  exact (efactor_never_below_floor None "t1" review_steps H1 H2).
Defined.

(** *** Worked reviews *)

(** C1, as stated: from repetition 1, interval 6 and ease factor 2.5, a
    rating of 4 does not give interval 15. *)
Lemma example_interval_is_not_15 :
  let r := calculateNextReview (Some (once_reviewed "t1" 0)) 4 "t1" 0 in
  ~ (repetition r = 2%float /\ interval r = 15%float).
Proof.
  intros r [_ H]. apply number_eq_eqb in H. vm_compute in H. discriminate.
Qed.

(** C1, amended: from repetition 1, interval 6 and ease factor 2.5, a
    rating of 4 gives repetition 2 and interval 6, by the rule of the
    second successful review; the interval 15 = round (6 * 2.5) is that of
    the review after, from repetition 2. *)
Theorem example_second_review (id : string) (next now : number) :
  let r := calculateNextReview (Some (once_reviewed id next)) 4 id now in
  repetition r = 2%float /\ interval r = 6%float /\
  let r' := calculateNextReview (Some (twice_reviewed id next)) 4 id now in
  repetition r' = 3%float /\ interval r' = 15%float.
Proof. vm_compute. repeat split. Qed.

(** *** The wall clock *)

(** At the readings 0 and 1000 of the clock, the same arguments give
    different records, and different answers on whether a record is due. *)
Lemma records_at_0_and_1000 :
  calculateNextReview None 3 "t1" 0 <> calculateNextReview None 3 "t1" 1000.
Proof.
  intros H. apply (f_equal nextReviewDate) in H.
  apply number_eq_eqb in H. vm_compute in H. discriminate.
Qed.

Lemma due_at_0_and_1000 :
  isDue (Some (once_reviewed "t1" 500)) 0 <> isDue (Some (once_reviewed "t1" 500)) 1000.
Proof. vm_compute. discriminate. Qed.

(** C3, as stated: two calls with the same arguments return different
    records, and give different answers on whether a record is due, when
    the wall clock reads differently. *)
Lemma same_arguments_different_results :
  calculateNextReview None 3 "t1" 0 <> calculateNextReview None 3 "t1" 1000 /\
  isDue (Some (once_reviewed "t1" 500)) 0 <> isDue (Some (once_reviewed "t1" 500)) 1000.
Proof. split; [exact records_at_0_and_1000|exact due_at_0_and_1000]. Qed.

(** C3, amended: the result of the scheduler is a function of its
    arguments and of the reading of the wall clock: the term, repetition,
    interval and ease factor of the record do not depend on the reading,
    and the review date is the reading plus the interval in milliseconds,
    so that two calls with the same arguments return the same record
    exactly when that sum is the same number at both readings.  The due
    predicate holds of an absent record at every reading, and of any record
    exactly when its review date is at most the reading.  Both results
    do change with the reading: there are arguments and two readings at
    which the records differ, and a record and two readings at which the
    due predicate differs. *)
Theorem clock_dependence (p : option UserProgress) (q : UserProgress)
    (rating : number) (id : string) (now now' : Clock) :
  let r := calculateNextReview p rating id now in
  let r' := calculateNextReview p rating id now' in
  termId r = termId r' /\ repetition r = repetition r' /\
  interval r = interval r' /\ efactor r = efactor r' /\
  nextReviewDate r = (now + interval r * oneDay)%float /\
  nextReviewDate r' = (now' + interval r * oneDay)%float /\
  (r = r' <->
   (now + interval r * oneDay)%float = (now' + interval r * oneDay)%float) /\
  isDue None now = true /\
  isDue (Some q) now = (nextReviewDate q <=? now)%float /\
  (exists p0 rating0 id0 t t',
     calculateNextReview p0 rating0 id0 t <> calculateNextReview p0 rating0 id0 t') /\
  (exists q0 t t', isDue (Some q0) t <> isDue (Some q0) t').
Proof.
  intros r r'.
  assert (Hfields : termId r = termId r' /\ repetition r = repetition r' /\
                    interval r = interval r' /\ efactor r = efactor r' /\
                    nextReviewDate r = (now + interval r * oneDay)%float /\
                    nextReviewDate r' = (now' + interval r * oneDay)%float).
  { unfold r, r', calculateNextReview.
    destruct p as [q0|]; destruct (3 <=? rating)%float; simpl; repeat split. }
  destruct Hfields as (H1 & H2 & H3 & H4 & H5 & H6).
  do 6 (split; [assumption|]).
  split; [|split; [reflexivity|split; [reflexivity|split]]].
  - split.
    + intros E. rewrite <- H5, <- H6, E. reflexivity.
    + intros E. rewrite <- H5, <- H6 in E.
      destruct r as [i1 n1 k1 e1 d1], r' as [i2 n2 k2 e2 d2]. simpl in *.
      congruence.
  - exists None, 3%float, "t1"%string, 0%float, 1000%float.
    exact records_at_0_and_1000.
  - exists (once_reviewed "t1" 500), 0%float, 1000%float. exact due_at_0_and_1000.
Qed.

(** *** Ratings outside 0, ..., 5 *)

Lemma seven_is_no_Rating : ~ Rating 7.
Proof.
  unfold Rating. simpl. intros H.
  repeat (destruct H as [H|H];
          [apply number_eq_eqb in H; vm_compute in H; discriminate|]).
  exact H.
Qed.

(** C4, as stated: the rating 7 is outside 0, ..., 5, and the call with it
    is not rejected: it returns a record. *)
Lemma rating_7_is_not_rejected :
  ~ Rating 7 /\
  ~ (exists msg, calculateNextReview_call None 7 "t1" 0 = Throw msg) /\
  exists r, calculateNextReview_call None 7 "t1" 0 = Normal r.
Proof.
  split; [exact seven_is_no_Rating|]. split.
  - intros [msg H]. discriminate.
  - eexists. reflexivity.
Qed.

(** C4, amended: the scheduler does not validate the rating, which only
    the type [Rating] restricts: for a number outside 0, ..., 5 the call
    returns a record, computed from the number as given: a success when
    it is at least 3, with the ease update applied to it. *)
Theorem rating_not_validated (p : option UserProgress) (rating : number)
    (id : string) (now : Clock) :
  ~ Rating rating ->
  exists r, calculateNextReview_call p rating id now = Normal r /\
    efactor r = nextEfactor (efactor_of p) rating /\
    ((3 <=? rating)%float = false -> repetition r = 0%float /\ interval r = 1%float) /\
    ((3 <=? rating)%float = true ->
     repetition r = (match p with Some q => repetition q | None => 0 end + 1)%float).
Proof.
  intros _. eexists. split; [reflexivity|].
  split; [apply efactor_calculateNextReview|].
  unfold calculateNextReview.
  destruct p as [q|]; destruct (3 <=? rating)%float; simpl;
    split; intros; try discriminate; auto.
Qed.

Lemma rating_not_validated_witness :
  ~ Rating 7 /\
  exists r, calculateNextReview_call None 7 "t1" 0 = Normal r /\
    efactor r = nextEfactor (efactor_of None) 7 /\
    ((3 <=? 7)%float = false -> repetition r = 0%float /\ interval r = 1%float) /\
    ((3 <=? 7)%float = true -> repetition r = (0 + 1)%float).
Proof.
  split; [exact seven_is_no_Rating|].
  exact (rating_not_validated None 7 "t1" 0 seven_is_no_Rating).
Defined.

(** *** Successful reviews *)

(** C7, as stated: from repetition 2 and interval 0, a rating of 3 gives
    interval 0. *)
Lemma success_with_interval_0 :
  (0 <=? repetition zero_interval)%float = true /\
  (0 <=? interval zero_interval)%float = true /\
  (3 <=? 3)%float = true /\
  let r := calculateNextReview (Some zero_interval) 3 "t1" 0 in
  ~ (repetition r = (repetition zero_interval + 1)%float /\
     (0 <? interval r)%float = true).
Proof.
  do 3 (split; [reflexivity|]). intros r [_ H]. vm_compute in H. discriminate.
Qed.

Lemma interval_calculateNextReview_success (p : option UserProgress)
    (rating : number) (id : string) (now : Clock) :
  (3 <=? rating)%float = true -> schedulable p ->
  (1 <=? interval (calculateNextReview p rating id now))%float = true.
Proof.
  intros Hr Hp. unfold calculateNextReview. rewrite Hr.
  destruct p as [q|]; simpl.
  - destruct (repetition q =? 0)%float eqn:E0.
    { simpl. destruct (rating =? 5)%float; reflexivity. }
    destruct (repetition q =? 1)%float eqn:E1; [reflexivity|]. simpl.
    destruct Hp as [Hp|[Hp|[Hi He]]]; [congruence|congruence|].
    apply Math_round_ge_one.
    rewrite FloatAxioms.leb_spec, FloatAxioms.mul_spec, Prim2SF_one.
    apply SF64mul_ge_one; try apply Prim2SF_valid.
    + rewrite <- Prim2SF_one, <- FloatAxioms.leb_spec. exact Hi.
    + rewrite <- Prim2SF_one, <- FloatAxioms.leb_spec.
      apply (leb_trans _ 1.3); [reflexivity|exact He].
  - destruct (rating =? 5)%float; reflexivity.
Qed.

(** C7, amended: for every rating of at least 3 and every previous
    state, the new repetition is the previous one plus 1; the new interval
    is greater than 0 when there is no record, when the record has
    repetition 0 or 1, or when its interval is at least 1 and its ease
    factor at least 1.3. *)
Theorem success_increments_repetition (p : option UserProgress)
    (rating : number) (id : string) (now : Clock) :
  (3 <=? rating)%float = true ->
  let r := calculateNextReview p rating id now in
  repetition r = (match p with Some q => repetition q | None => 0 end + 1)%float /\
  (schedulable p -> (0 <? interval r)%float = true).
Proof.
  intros Hr r. split.
  - subst r. unfold calculateNextReview. rewrite Hr. destruct p; reflexivity.
  - intros Hp. apply ltb_zero_of_ge_one, interval_calculateNextReview_success; assumption.
Qed.

Lemma success_increments_repetition_witness :
  (3 <=? 4)%float = true /\
  schedulable (Some (twice_reviewed "t1" 0)) /\
  let r := calculateNextReview (Some (twice_reviewed "t1" 0)) 4 "t1" 1000 in
  repetition r = (2 + 1)%float /\
  (schedulable (Some (twice_reviewed "t1" 0)) -> (0 <? interval r)%float = true).
Proof.
  assert (H1 : (3 <=? 4)%float = true) by reflexivity.
  assert (H2 : schedulable (Some (twice_reviewed "t1" 0)))
    by (simpl; right; right; split; reflexivity).
  split; [exact H1|]. split; [exact H2|].
  exact (success_increments_repetition (Some (twice_reviewed "t1" 0)) 4 "t1" 1000 H1).
Defined.

(** Every record the scheduler returns for a rating among 0, ..., 5, from a
    state as above, is such a state again. *)
Lemma schedulable_calculateNextReview (p : option UserProgress)
    (rating : number) (id : string) (now : Clock) :
  Rating rating -> schedulable p ->
  (1.3 <=? efactor_of p)%float = true ->
  schedulable (Some (calculateNextReview p rating id now)).
Proof.
  intros Hr Hp He. simpl. right. right. split.
  - destruct (3 <=? rating)%float eqn:E.
    + apply interval_calculateNextReview_success; assumption.
    + unfold calculateNextReview. rewrite E. destruct p; reflexivity.
  - rewrite efactor_calculateNextReview. apply nextEfactor_floor; [|exact Hr].
    apply leb_not_nan in He. apply He.
Qed.

(** *** The due predicate *)

(** C9: a record that is due at one reading of the clock is due at every
    later reading. *)
Theorem isDue_monotonic (p : option UserProgress) (now later : Clock) :
  (now <=? later)%float = true -> isDue p now = true -> isDue p later = true.
Proof.
  intros Hl Hd. destruct p as [q|]; [|reflexivity].
  simpl in *. exact (leb_trans _ _ _ Hd Hl).
Qed.

Lemma isDue_monotonic_witness :
  (1000 <=? 2000)%float = true /\
  isDue (Some (once_reviewed "t1" 500)) 1000 = true /\
  isDue (Some (once_reviewed "t1" 500)) 2000 = true.
Proof.
  assert (H1 : (1000 <=? 2000)%float = true) by reflexivity.
  assert (H2 : isDue (Some (once_reviewed "t1" 500)) 1000 = true) by reflexivity.
  split; [exact H1|]. split; [exact H2|].
  exact (isDue_monotonic (Some (once_reviewed "t1" 500)) 1000 2000 H1 H2).
Defined.

End SM2_Facts.

(** ** The edit distance *)

Module Levenshtein_Facts.
Import JS Types Quiz.

(** *** The recurrence *)

Lemma levenshtein_0_l (a b : str) (j : nat) : levenshtein a b 0 j = j.
Proof. reflexivity. Qed.

Lemma levenshtein_0_r (a b : str) (i : nat) : levenshtein a b i 0 = i.
Proof. destruct i; reflexivity. Qed.

Lemma levenshtein_S_S (a b : str) (i j : nat) :
  levenshtein a b (S i) (S j) =
  Nat.min (levenshtein a b i (S j) + 1)
    (Nat.min (levenshtein a b (S i) j + 1)
       (levenshtein a b i j + indicator a b i j)).
Proof. reflexivity. Qed.

(** *** Loops over index ranges *)

Lemma foldl_seq_invariant {S : Type} (P : nat -> S -> Prop) (f : S -> nat -> S)
    (start len : nat) (s : S) :
  P start s ->
  (forall k s, start <= k < start + len -> P k s -> P (Datatypes.S k) (f s k)) ->
  P (start + len) (foldl f s (seq start len)).
Proof.
  intros H0 Hstep. induction len as [|len IH].
  - rewrite Nat.add_0_r. exact H0.
  - rewrite seq_S, foldl_app. simpl.
    replace (start + Datatypes.S len) with (Datatypes.S (start + len)) by lia.
    apply Hstep; [lia|]. apply IH. intros k s' Hk. apply Hstep. lia.
Qed.

(** *** Cells *)

Lemma shaped_new_matrix (la lb : nat) : shaped la lb (new_matrix (S lb) (S la)).
Proof.
  split.
  - apply length_replicate.
  - apply Forall_replicate, length_replicate.
Qed.

Lemma shaped_set_cell (la lb j i v : nat) (m : matrix) :
  shaped la lb m -> shaped la lb (set_cell j i v m).
Proof.
  intros [Hl Hr]. split.
  - unfold set_cell. rewrite length_alter. exact Hl.
  - unfold set_cell. apply Forall_alter; [exact Hr|].
    intros row _ Hrow. rewrite length_insert. exact Hrow.
Qed.

Lemma get_set_cell_eq (la lb j i v : nat) (m : matrix) :
  shaped la lb m -> j <= lb -> i <= la ->
  get_cell (set_cell j i v m) j i = v.
Proof.
  intros [Hl Hr] Hj Hi. unfold get_cell, set_cell.
  rewrite list_lookup_alter_eq.
  destruct (lookup_lt_is_Some_2 m j ltac:(lia)) as [row Hrow].
  rewrite Hrow. simpl.
  rewrite list_lookup_insert_eq; [reflexivity|].
  rewrite Forall_lookup in Hr. rewrite (Hr _ _ Hrow). lia.
Qed.

Lemma get_set_cell_ne (j i v j' i' : nat) (m : matrix) :
  (j, i) <> (j', i') ->
  get_cell (set_cell j i v m) j' i' = get_cell m j' i'.
Proof.
  intros Hne. unfold get_cell, set_cell.
  destruct (decide (j = j')) as [->|Hj].
  - rewrite list_lookup_alter_eq. destruct (m !! j') as [row|]; simpl; [|reflexivity].
    rewrite list_lookup_insert_ne; [reflexivity|]. congruence.
  - rewrite list_lookup_alter_ne by exact Hj. reflexivity.
Qed.

(** *** The invariant of the loops *)

Section Invariant.
Variables a b : str.

Lemma init_row_spec (m : matrix) :
  shaped (length a) (length b) m ->
  let m' := init_row (length a) m in
  shaped (length a) (length b) m' /\
  forall i, i <= length a -> cell_ok a b m' 0 i.
Proof.
  intros Hm m'. subst m'. unfold init_row.
  pose proof (foldl_seq_invariant
    (fun k m => shaped (length a) (length b) m /\ forall i, i < k -> cell_ok a b m 0 i)
    (fun m i => set_cell 0 i i m) 0 (S (length a)) m) as H.
  simpl in H. destruct H as [H1 H2].
  - split; [exact Hm|]. intros i Hi. lia.
  - intros k s Hk [Hs Hc]. split; [apply shaped_set_cell, Hs|].
    intros i Hi. unfold cell_ok. destruct (decide (i = k)) as [->|Hne].
    + rewrite (get_set_cell_eq (length a) (length b)); try lia; try exact Hs.
      rewrite levenshtein_0_r. reflexivity.
    + rewrite get_set_cell_ne by congruence. apply Hc. lia.
  - split; [exact H1|]. intros i Hi. apply H2. lia.
Qed.

Lemma init_col_spec (m : matrix) :
  shaped (length a) (length b) m ->
  (forall i, i <= length a -> cell_ok a b m 0 i) ->
  filled a b 1 1 (init_col (length b) m).
Proof.
  intros Hm Hrow. unfold init_col.
  pose proof (foldl_seq_invariant
    (fun k m => shaped (length a) (length b) m /\
                (forall i, i <= length a -> cell_ok a b m 0 i) /\
                forall j, j < k -> cell_ok a b m j 0)
    (fun m j => set_cell j 0 j m) 0 (S (length b)) m) as H.
  simpl in H. destruct H as (H1 & H2 & H3).
  - repeat split; [apply Hm|apply Hm|exact Hrow|]. intros j Hj. lia.
  - intros k s Hk (Hs & Hr & Hc).
    assert (Hk0 : cell_ok a b (set_cell k 0 k s) k 0).
    { unfold cell_ok.
      rewrite (get_set_cell_eq (length a) (length b)); try lia; try exact Hs.
      reflexivity. }
    split; [apply shaped_set_cell, Hs|]. split.
    + intros i Hi. destruct (decide ((k, 0) = (0, i))) as [E|Hne].
      * inversion E; subst. exact Hk0.
      * unfold cell_ok. rewrite get_set_cell_ne by exact Hne. apply Hr, Hi.
    + intros j Hj. destruct (decide (j = k)) as [->|Hne]; [exact Hk0|].
      unfold cell_ok. rewrite get_set_cell_ne by congruence. apply Hc. lia.
  - split; [exact H1|]. intros j i (Hj & Hi & [->|[->|[Hlt|[-> Hlt]]]]).
    + apply H2, Hi.
    + apply H3. lia.
    + replace j with 0 by lia. apply H2, Hi.
    + replace i with 0 by lia. apply H3. lia.
Qed.

Lemma fill_cell_spec (J I : nat) (m : matrix) :
  1 <= J <= length b -> 1 <= I <= length a ->
  filled a b J I m -> filled a b J (S I) (fill_cell a b J I m).
Proof.
  intros HJ HI [Hs Hc]. split; [apply shaped_set_cell, Hs|].
  intros j i Hw. unfold cell_ok, fill_cell.
  destruct (decide ((J, I) = (j, i))) as [E|Hne].
  - inversion E; subst j i.
    rewrite (get_set_cell_eq (length a) (length b)); try lia; try exact Hs.
    destruct J as [|J']; [lia|]. destruct I as [|I']; [lia|].
    rewrite levenshtein_S_S.
    replace (S J' - 1) with J' by lia. replace (S I' - 1) with I' by lia.
    rewrite (Hc (S J') I'), (Hc J' (S I')), (Hc J' I'); [reflexivity| | |];
      unfold written; lia.
  - rewrite get_set_cell_ne by exact Hne. apply Hc.
    assert (j <> J \/ i <> I) by (destruct (decide (j = J)); [right|left]; congruence).
    unfold written in *. lia.
Qed.

Lemma fill_row_spec (J : nat) (m : matrix) :
  1 <= J <= length b -> filled a b J 1 m -> filled a b (S J) 1 (fill_row a b J m).
Proof.
  intros HJ Hm. unfold fill_row.
  pose proof (foldl_seq_invariant (fun k m => filled a b J k m)
    (fun m i => fill_cell a b J i m) 1 (length a) m Hm) as H.
  destruct H as [Hs Hc].
  - intros k s Hk Hf. apply fill_cell_spec; [exact HJ|lia|exact Hf].
  - split; [exact Hs|]. intros j i Hw. apply Hc. unfold written in *. lia.
Qed.

Lemma fill_matrix_spec (m : matrix) :
  filled a b 1 1 m -> filled a b (S (length b)) 1 (fill_matrix a b m).
Proof.
  intros Hm. unfold fill_matrix.
  apply (foldl_seq_invariant (fun k m => filled a b k 1 m)
    (fun m j => fill_row a b j m) 1 (length b) m Hm).
  intros k s Hk Hf. apply fill_row_spec; [lia|exact Hf].
Qed.

End Invariant.

(** The matrix computation returns the distance given by the recurrence. *)
Lemma getLevenshteinDistance_levenshtein (a b : str) :
  getLevenshteinDistance a b = levenshtein_distance a b.
Proof.
  unfold getLevenshteinDistance, levenshtein_distance.
  pose proof (shaped_new_matrix (length a) (length b)) as H0.
  destruct (init_row_spec a b _ H0) as [H1 H2].
  pose proof (init_col_spec a b _ H1 H2) as H3.
  destruct (fill_matrix_spec a b _ H3) as [_ H4].
  apply H4. unfold written. lia.
Qed.

Example getLevenshteinDistance_kitten :
  getLevenshteinDistance (list_ascii_of_string "kitten")
    (list_ascii_of_string "sitting") = 3.
Proof. vm_compute. reflexivity. Qed.

Example getLevenshteinDistance_empty :
  getLevenshteinDistance [] (list_ascii_of_string "abc") = 3.
Proof. vm_compute. reflexivity. Qed.

(** *** Edit scripts *)

Lemma indicator_le_1 (a b : str) (i j : nat) : indicator a b i j <= 1.
Proof. unfold indicator. destruct (decide _); lia. Qed.

Lemma levenshtein_S_l (a b : str) (i j : nat) :
  levenshtein a b (S i) j <= levenshtein a b i j + 1.
Proof.
  destruct j as [|j].
  - rewrite !levenshtein_0_r. lia.
  - rewrite levenshtein_S_S. lia.
Qed.

Lemma levenshtein_S_r (a b : str) (i j : nat) :
  levenshtein a b i (S j) <= levenshtein a b i j + 1.
Proof.
  destruct i as [|i].
  - rewrite !levenshtein_0_l. lia.
  - rewrite levenshtein_S_S. lia.
Qed.

Lemma snoc_take_inv (x a : str) (c : ascii) (i : nat) :
  i <= length a -> x ++ [c] = take i a ->
  exists i', i = S i' /\ x = take i' a /\ a !! i' = Some c.
Proof.
  intros Hi E.
  assert (Hl : length (x ++ [c]) = i) by (rewrite E, length_take; lia).
  rewrite length_app in Hl. simpl in Hl.
  remember (length x) as i' eqn:Ei'.
  exists i'. split; [lia|].
  destruct (lookup_lt_is_Some_2 a i' ltac:(lia)) as [d Hd].
  replace i with (S i') in E by lia.
  rewrite (take_S_r _ _ _ Hd) in E.
  apply app_inj_tail in E as [E1 E2]. subst d. split; [exact E1|exact Hd].
Qed.

Lemma nil_take_inv (a : str) (i : nat) : i <= length a -> [] = take i a -> i = 0.
Proof.
  intros Hi E. apply (f_equal length) in E. rewrite length_take in E.
  simpl in E. lia.
Qed.

(** No script is shorter than the distance of the recurrence. *)
Lemma levenshtein_le_edits (a b x y : str) (n : nat) :
  edits x y n ->
  forall i j, i <= length a -> j <= length b ->
  x = take i a -> y = take j b -> levenshtein a b i j <= n.
Proof.
  induction 1 as [|x y c n _ IH|x y c d n _ IH|x y c n _ IH|x y d n _ IH];
    intros i j Hi Hj Ex Ey.
  - apply nil_take_inv in Ex; [|exact Hi]. apply nil_take_inv in Ey; [|exact Hj].
    subst. reflexivity.
  - apply snoc_take_inv in Ex as (i' & -> & -> & Ha); [|exact Hi].
    apply snoc_take_inv in Ey as (j' & -> & -> & Hb); [|exact Hj].
    specialize (IH i' j' ltac:(lia) ltac:(lia) eq_refl eq_refl).
    rewrite levenshtein_S_S. unfold indicator.
    rewrite Ha, Hb, decide_True by reflexivity. lia.
  - apply snoc_take_inv in Ex as (i' & -> & -> & Ha); [|exact Hi].
    apply snoc_take_inv in Ey as (j' & -> & -> & Hb); [|exact Hj].
    specialize (IH i' j' ltac:(lia) ltac:(lia) eq_refl eq_refl).
    rewrite levenshtein_S_S. pose proof (indicator_le_1 a b i' j'). lia.
  - apply snoc_take_inv in Ex as (i' & -> & -> & Ha); [|exact Hi].
    specialize (IH i' j ltac:(lia) Hj eq_refl Ey).
    pose proof (levenshtein_S_l a b i' j). lia.
  - apply snoc_take_inv in Ey as (j' & -> & -> & Hb); [|exact Hj].
    specialize (IH i j' Hi ltac:(lia) Ex eq_refl).
    pose proof (levenshtein_S_r a b i j'). lia.
Qed.

Lemma edits_delete_all (a : str) (i : nat) :
  i <= length a -> edits (take i a) [] i.
Proof.
  induction i as [|i IH]; intros Hi.
  - rewrite take_0. constructor.
  - destruct (lookup_lt_is_Some_2 a i ltac:(lia)) as [c Hc].
    rewrite (take_S_r _ _ _ Hc). apply edits_delete, IH. lia.
Qed.

Lemma edits_insert_all (b : str) (j : nat) :
  j <= length b -> edits [] (take j b) j.
Proof.
  induction j as [|j IH]; intros Hj.
  - rewrite take_0. constructor.
  - destruct (lookup_lt_is_Some_2 b j ltac:(lia)) as [c Hc].
    rewrite (take_S_r _ _ _ Hc). apply edits_insert, IH. lia.
Qed.

(** Some script has the length of the distance of the recurrence. *)
Lemma edits_levenshtein (a b : str) (i j : nat) :
  i <= length a -> j <= length b ->
  edits (take i a) (take j b) (levenshtein a b i j).
Proof.
  revert j. induction i as [|i IHi]; intros j Hi Hj.
  - rewrite levenshtein_0_l, take_0. apply edits_insert_all, Hj.
  - induction j as [|j IHj].
    + rewrite levenshtein_0_r, take_0. apply edits_delete_all, Hi.
    + destruct (lookup_lt_is_Some_2 a i ltac:(lia)) as [c Hc].
      destruct (lookup_lt_is_Some_2 b j ltac:(lia)) as [d Hd].
      pose proof (IHi (S j) ltac:(lia) Hj) as E1.
      pose proof (IHj ltac:(lia)) as E2.
      pose proof (IHi j ltac:(lia) ltac:(lia)) as E3.
      rewrite levenshtein_S_S.
      rewrite (take_S_r _ _ _ Hc) in *. rewrite (take_S_r _ _ _ Hd) in *.
      destruct (Nat.min_spec (levenshtein a b i (S j) + 1)
                  (Nat.min (levenshtein a b (S i) j + 1)
                     (levenshtein a b i j + indicator a b i j))) as [[_ ->]|[_ ->]].
      { rewrite Nat.add_1_r. apply edits_delete. exact E1. }
      destruct (Nat.min_spec (levenshtein a b (S i) j + 1)
                  (levenshtein a b i j + indicator a b i j)) as [[_ ->]|[_ ->]].
      { rewrite Nat.add_1_r. apply edits_insert. exact E2. }
      unfold indicator. rewrite Hc, Hd. destruct (decide (Some c = Some d)) as [E|E].
      * inversion E; subst d. rewrite Nat.add_0_r. apply edits_keep, E3.
      * rewrite Nat.add_1_r. apply edits_substitute, E3.
Qed.

(** The distance of the recurrence is the length of a shortest edit
    script. *)
Lemma levenshtein_distance_least (a b : str) :
  edits a b (levenshtein_distance a b) /\
  forall n, edits a b n -> levenshtein_distance a b <= n.
Proof.
  unfold levenshtein_distance. split.
  - pose proof (edits_levenshtein a b (length a) (length b) ltac:(lia) ltac:(lia)) as H.
    rewrite !firstn_all in H. exact H.
  - intros n H. apply (levenshtein_le_edits a b a b n H); try lia;
      symmetry; apply firstn_all.
Qed.

End Levenshtein_Facts.

(** ** The answer verifier *)

Module Verifier_Facts.
Import JS Types Quiz Levenshtein_Facts.

Lemma fuzzy_match_true (user : str) (cands : list str) :
  fuzzy_match user cands = true <->
  exists cand, In cand cands /\ within_tolerance user cand.
Proof.
  unfold within_tolerance. induction cands as [|cand rest IH]; cbn [fuzzy_match In].
  - split; [discriminate|]. intros (c & [] & _).
  - rewrite getLevenshteinDistance_levenshtein. unfold allowedErrors.
    destruct (Nat.ltb_spec 3 (length cand)) as [H3|H3];
      [destruct (Nat.leb_spec (levenshtein_distance user cand) (length cand / 4)) as [Hd|Hd]|].
    + split; [|reflexivity]. intros _. exists cand. auto.
    + rewrite IH. split.
      * intros (c & Hc & Hw). exists c. auto.
      * intros (c & [<-|Hc] & Hw); [lia|]. exists c. auto.
    + rewrite IH. split.
      * intros (c & Hc & Hw). exists c. auto.
      * intros (c & [<-|Hc] & Hw); [lia|]. exists c. auto.
Qed.

Lemma target_in_candidates (correctTerm : str) :
  In (normalize correctTerm) (candidates correctTerm).
Proof.
  unfold candidates.
  destruct (includes_slash correctTerm), (trim (remove_parens correctTerm));
    rewrite ?in_app_iff; simpl; tauto.
Qed.

(** Acceptance: the normalized input is not empty, and it is a candidate
    or within the tolerance of a candidate of more than 3 characters. *)
Lemma checkAnswerSmart_true (input correctTerm : str) :
  checkAnswerSmart input correctTerm = true <->
  normalize input <> [] /\
  (In (normalize input) (candidates correctTerm) \/
   exists cand, In cand (candidates correctTerm) /\
                within_tolerance (normalize input) cand).
Proof.
  unfold checkAnswerSmart.
  destruct (normalize input) as [|c user] eqn:E.
  - split; [discriminate|]. intros [H _]. congruence.
  - case_bool_decide as Ht.
    + split; [|reflexivity]. intros _. split; [discriminate|]. left.
      rewrite Ht. apply target_in_candidates.
    + case_bool_decide as Hc.
      * split; [|reflexivity]. intros _. split; [discriminate|]. left.
        apply list_elem_of_In, Hc.
      * rewrite fuzzy_match_true. split.
        -- intros H. split; [discriminate|]. right. exact H.
        -- intros [_ [H|H]]; [|exact H]. exfalso. apply Hc, list_elem_of_In, H.
Qed.

(** C8: for every candidate of more than 3 characters, the input is
    accepted when the Levenshtein distance between the normalized input and
    the candidate is at most a quarter of the length of the candidate,
    rounded down; and an accepted input is a candidate itself, or within
    that distance of a candidate of more than 3 characters, so that no
    candidate of at most 3 characters is matched other than exactly.  The
    distance is the length of a shortest edit script, which
    [getLevenshteinDistance] computes. *)
Theorem fuzzy_matching_rule (input correctTerm : str) :
  let user := normalize input in
  (forall cand,
     In cand (candidates correctTerm) -> 3 < length cand ->
     levenshtein_distance user cand <= length cand / 4 ->
     checkAnswerSmart input correctTerm = true) /\
  (checkAnswerSmart input correctTerm = true ->
   In user (candidates correctTerm) \/
   exists cand, In cand (candidates correctTerm) /\ 3 < length cand /\
                levenshtein_distance user cand <= length cand / 4) /\
  (forall cand,
     getLevenshteinDistance user cand = levenshtein_distance user cand /\
     edits user cand (levenshtein_distance user cand) /\
     forall n, edits user cand n -> levenshtein_distance user cand <= n).
Proof.
  intros user. split; [|split].
  - intros cand Hc H3 Hd. apply checkAnswerSmart_true.
    assert (Hu : user <> []).
    { intros E. rewrite E in Hd. unfold levenshtein_distance in Hd.
      cbn [length] in Hd. rewrite levenshtein_0_l in Hd.
      assert (length cand / 4 < length cand); [|lia].
      apply Nat.div_lt; lia. }
    split; [exact Hu|]. right. exists cand. split; [exact Hc|]. split; assumption.
  - intros H. apply checkAnswerSmart_true in H as [_ H]. exact H.
  - intros cand. split; [apply getLevenshteinDistance_levenshtein|].
    apply levenshtein_distance_least.
Qed.

(** The tolerance as the source computes it on numbers, against the
    quotient by 4. *)
Example allowedErrors_binary64 :
  forallb (fun n : nat =>
             PrimFloat.Leibniz.eqb
               (Math_floor (number_of_Z (Z.of_nat n) * 0.25)%float)
               (number_of_Z (Z.of_nat (n / 4))))
          (seq 0 401) = true.
Proof. vm_compute. reflexivity. Qed.

(** The examples of the specification. *)
Example checkAnswerSmart_acronym :
  checkAnswerSmart (list_ascii_of_string "ide")
    (list_ascii_of_string "Integrated Development Environment (IDE)") = true.
Proof. vm_compute. reflexivity. Qed.

Example checkAnswerSmart_typo :
  checkAnswerSmart (list_ascii_of_string "objct oriented programming")
    (list_ascii_of_string "Object Oriented Programming") = true.
Proof. vm_compute. reflexivity. Qed.

Example checkAnswerSmart_wrong :
  checkAnswerSmart (list_ascii_of_string "xyz")
    (list_ascii_of_string "Object Oriented Programming") = false.
Proof. vm_compute. reflexivity. Qed.

(** A typo in a candidate of 3 characters is not accepted, a typo in a
    candidate of 9 characters is. *)
Example checkAnswerSmart_short_candidate :
  checkAnswerSmart (list_ascii_of_string "ida")
    (list_ascii_of_string "Integrated Development Environment (IDE)") = false /\
  checkAnswerSmart (list_ascii_of_string "algoritm")
    (list_ascii_of_string "Algorithm") = true.
Proof. vm_compute. split; reflexivity. Qed.

Example candidates_acronym :
  candidates (list_ascii_of_string "Integrated Development Environment (IDE)") =
  map list_ascii_of_string
    ["integrateddevelopmentenvironmentide"; "ide"; "integrateddevelopmentenvironment"].
Proof. vm_compute. reflexivity. Qed.

Example candidates_slash :
  candidates (list_ascii_of_string "Term A / Term B (x) ((y) () (z") =
  map list_ascii_of_string
    ["termatermbxyz"; "x"; "y"; "termatermbz"; "terma"; "termbxyz"].
Proof. vm_compute. reflexivity. Qed.

End Verifier_Facts.

(** ** The runtime *)

Module JS_Facts.
Import JS.

(** A slice from the start of an array is a prefix of it. *)
Lemma Array_slice_0 {A : Type} (k : Z) (arr : list A) :
  (0 <= k)%Z -> Array_slice 0 k arr = firstn (Z.to_nat k) arr.
Proof.
  intros Hk. unfold Array_slice, relative_index.
  destruct (Z.ltb_spec k 0) as [?|_]; [lia|].
  change (0 <? 0)%Z with false. cbv iota.
  rewrite (Z.min_l 0) by lia. rewrite Z.sub_0_r.
  change (skipn (Z.to_nat 0) arr) with arr.
  destruct (Z.le_ge_cases k (Z.of_nat (length arr))) as [Hle|Hle].
  - rewrite Z.min_l by exact Hle. reflexivity.
  - rewrite Z.min_r by exact Hle. rewrite Nat2Z.id.
    rewrite firstn_all. symmetry. apply firstn_all2. lia.
Qed.

Lemma In_firstn {A : Type} (n : nat) (l : list A) (x : A) :
  In x (firstn n l) -> In x l.
Proof.
  intros Hx. rewrite <- (firstn_skipn n l). apply in_or_app. left. exact Hx.
Qed.

Lemma insert_random_Permutation {A : Type} (x : A) (l : list A) (g : N) :
  Permutation (x :: l) (insert_random x l g).1.
Proof.
  revert g. induction l as [|y l IH]; intros g; cbn [insert_random].
  - reflexivity.
  - destruct (lcg_random g) as [r g']. destruct (0.5 - r <? 0)%float.
    + reflexivity.
    + specialize (IH g'). destruct (insert_random x l g') as [l'' g''].
      cbn [fst] in *. rewrite perm_swap. apply perm_skip, IH.
Qed.

Lemma insertion_sort_random_Permutation {A : Type} (l : list A) (g : N) :
  Permutation l (insertion_sort_random l g).1.
Proof.
  induction l as [|x l IH]; cbn [insertion_sort_random].
  - reflexivity.
  - destruct (insertion_sort_random l g) as [sorted g']. cbn [fst] in IH.
    rewrite <- insert_random_Permutation. apply perm_skip, IH.
Qed.

(** The reference engine. *)
#[export] Instance reference_engine : RandomEngine := {
  rng := N;
  Math_random := lcg_random;
  sort_random := @insertion_sort_random;
  sort_random_Permutation := @insertion_sort_random_Permutation
}.

End JS_Facts.

(** ** The question generator *)

Module Generator_Facts.
Import JS Types Quiz JS_Facts Samples.

Section Generator.
Context `{RandomEngine}.

Lemma length_sort_random {A : Type} (l : list A) (g : rng) :
  length (sort_random l g).1 = length l.
Proof. symmetry. apply Permutation_length, sort_random_Permutation. Qed.

(** With unique identifiers, all terms but one have another identifier
    than a term of the pool. *)
Lemma length_filter_others (terms : list Term) (t : Term) :
  NoDup (map id terms) -> In t terms ->
  length (List.filter (fun t' => negb (String.eqb t'.(id) t.(id))) terms)
  = length terms - 1.
Proof.
  induction terms as [|u terms IH]; intros Hnd Hin; [destruct Hin|].
  cbn [map] in Hnd. apply List.NoDup_cons_iff in Hnd as [Hu Hnd]. cbn [List.filter].
  destruct (String.eqb_spec (id u) (id t)) as [E|E]; cbn [negb length].
  - replace (S (length terms) - 1) with (length terms) by lia. clear IH Hin Hnd.
    induction terms as [|v terms IH]; [reflexivity|]. cbn [List.filter].
    destruct (String.eqb_spec (id v) (id t)) as [E'|E']; cbn [negb length].
    + exfalso. apply Hu. left. congruence.
    + f_equal. apply IH. intros Hin. apply Hu. right. exact Hin.
  - destruct Hin as [->|Hin]; [congruence|]. rewrite (IH Hnd Hin).
    destruct terms; [destruct Hin|]. cbn [length]. lia.
Qed.

Lemma makeQuestion_spec (terms : list Term) (t : Term) (g : rng) :
  NoDup (map id terms) -> In t terms ->
  let q := (makeQuestion terms t g).1 in
  q.(q_term) = t /\
  (q.(q_type) = multiple_choice <-> (0.5 <? (Math_random g).1)%float = true) /\
  (q.(q_type) = input -> q.(q_options) = []) /\
  (q.(q_type) = multiple_choice ->
   exists ds, distractors_of terms t ds /\
              Permutation q.(q_options) (map term ds ++ [t.(term)])).
Proof.
  intros Hnd Hin. unfold makeQuestion.
  destruct (Math_random g) as [r g1]. simpl fst.
  destruct (0.5 <? r)%float eqn:Er.
  - set (others := List.filter _ terms).
    pose proof (sort_random_Permutation _ others g1) as Hp.
    destruct (sort_random others g1) as [shuffled g2]. simpl in Hp.
    pose proof (sort_random_Permutation _
                  (map term (Array_slice 0 3 shuffled) ++ [term t]) g2) as Hq.
    destruct (sort_random _ g2) as [options g3]. simpl in Hq. simpl.
    repeat split; try discriminate; try reflexivity.
    intros _. exists (Array_slice 0 3 shuffled).
    split; [|symmetry; exact Hq].
    rewrite Array_slice_0 by lia.
    assert (Hnd' : NoDup terms) by (eapply List.NoDup_map_inv; exact Hnd).
    assert (Hs : NoDup shuffled).
    { eapply Permutation_NoDup; [exact Hp|]. apply List.NoDup_filter, Hnd'. }
    split; [|split].
    + rewrite <- (firstn_skipn 3 shuffled) in Hs.
      apply List.NoDup_app_remove_r in Hs. exact Hs.
    + intros d Hd. apply In_firstn in Hd.
      apply (Permutation_in _ (Permutation_sym Hp)) in Hd.
      apply List.filter_In in Hd as [Hd Hne]. split; [exact Hd|].
      apply negb_true_iff in Hne. apply String.eqb_neq in Hne. exact Hne.
    + rewrite length_take. rewrite <- (Permutation_length Hp).
      unfold others. rewrite (length_filter_others _ _ Hnd Hin). lia.
  - simpl. repeat split; try discriminate; try reflexivity; intros; discriminate.
Qed.

Lemma length_map_random {A B : Type} (f : A -> rng -> B * rng) (l : list A) (g : rng) :
  length (map_random f l g).1 = length l.
Proof.
  revert g. induction l as [|x l IH]; intros g; cbn [map_random]; [reflexivity|].
  destruct (f x g) as [y g1]. specialize (IH g1).
  destruct (map_random f l g1) as [ys g2]. cbn [fst length] in *. lia.
Qed.

(** Every element of the result is the result of the callback on an
    element of the array. *)
Lemma In_map_random {A B : Type} (f : A -> rng -> B * rng) (l : list A) (g : rng) (y : B) :
  In y (map_random f l g).1 -> exists x gx, In x l /\ y = (f x gx).1.
Proof.
  revert g. induction l as [|x l IH]; intros g; cbn [map_random]; [intros []|].
  destruct (f x g) as [y1 g1] eqn:E. specialize (IH g1).
  destruct (map_random f l g1) as [ys g2]. cbn [fst] in *.
  intros [<-|Hy].
  - exists x, g. rewrite E. split; [left|]; reflexivity.
  - destruct (IH Hy) as (x' & gx & Hx & ->). exists x', gx. split; [right; exact Hx|reflexivity].
Qed.

(** C10: for a pool of at least one term, with unique identifiers, the
    quiz is generated: it has as many questions as the pool has terms, up
    to 10; whether a question is multiple-choice is decided by its draw
    alone, whatever the size of the pool; and the options of a
    multiple-choice question are, in some order, the display string of its
    term and those of min (|pool| - 1, 3) other terms of the pool, all
    different, so fewer than 4 options when the pool has fewer than 4
    terms. *)
Theorem generateQuiz_small_pool (terms : list Term) (g : rng) :
  terms <> [] -> NoDup (map id terms) ->
  exists questions g',
    generateQuiz terms g = (Some questions, g') /\
    length questions = Nat.min 10 (length terms) /\
    forall q, In q questions ->
      In q.(q_term) terms /\
      (exists gq, q = (makeQuestion terms q.(q_term) gq).1 /\
         (q.(q_type) = multiple_choice <-> (0.5 <? (Math_random gq).1)%float = true)) /\
      (q.(q_type) = multiple_choice ->
       exists ds, distractors_of terms q.(q_term) ds /\
         Permutation q.(q_options) (map term ds ++ [q.(q_term).(term)]) /\
         length q.(q_options) = Nat.min (length terms) 4).
Proof.
  intros Hne Hnd. unfold generateQuiz.
  destruct terms as [|t0 terms']; [congruence|].
  set (terms := t0 :: terms') in *.
  pose proof (sort_random_Permutation _ terms g) as Hp.
  destruct (sort_random terms g) as [shuffled g1]. simpl in Hp.
  set (selected := Array_slice 0 _ shuffled).
  assert (Hsel : selected = firstn (Nat.min 10 (length terms)) shuffled).
  { unfold selected. rewrite Array_slice_0 by lia. f_equal. lia. }
  pose proof (length_map_random (makeQuestion terms) selected g1) as Hlen.
  pose proof (In_map_random (makeQuestion terms) selected g1) as Hall.
  destruct (map_random (makeQuestion terms) selected g1) as [questions g2].
  cbn [fst] in *. exists questions, g2. split; [reflexivity|]. split.
  - rewrite Hlen, Hsel, length_take, <- (Permutation_length Hp). lia.
  - intros q Hq. destruct (Hall q Hq) as (t & gq & Ht & ->).
    assert (Hin : In t terms).
    { rewrite Hsel in Ht. apply In_firstn in Ht.
      apply (Permutation_in _ (Permutation_sym Hp)), Ht. }
    destruct (makeQuestion_spec terms t gq Hnd Hin) as (Et & Hty & _ & Hmc).
    rewrite Et. split; [exact Hin|]. split.
    + exists gq. split; [reflexivity|exact Hty].
    + intros Hq'. destruct (Hmc Hq') as (ds & Hds & Hopts).
      exists ds. split; [exact Hds|]. split; [exact Hopts|].
      rewrite (Permutation_length Hopts), length_app, length_map.
      destruct Hds as (_ & _ & ->). cbn [length]. unfold terms. cbn [length]. lia.
Qed.

End Generator.

Lemma generateQuiz_small_pool_witness :
  [term1; term2] <> [] /\
  NoDup (map id [term1; term2]) /\
  let terms := [term1; term2] in
  exists questions g',
    generateQuiz terms 6%N = (Some questions, g') /\
    length questions = Nat.min 10 (length terms) /\
    forall q, In q questions ->
      In q.(q_term) terms /\
      (exists gq, q = (makeQuestion terms q.(q_term) gq).1 /\
         (q.(q_type) = multiple_choice <-> (0.5 <? (Math_random gq).1)%float = true)) /\
      (q.(q_type) = multiple_choice ->
       exists ds, distractors_of terms q.(q_term) ds /\
         Permutation q.(q_options) (map term ds ++ [q.(q_term).(term)]) /\
         length q.(q_options) = Nat.min (length terms) 4).
Proof.
  assert (H1 : [term1; term2] <> []) by discriminate.
  assert (H2 : NoDup (map id [term1; term2])).
  { simpl. repeat constructor; simpl; intuition discriminate. }
  split; [exact H1|]. split; [exact H2|].
  exact (generateQuiz_small_pool (H := reference_engine) [term1; term2] 6%N H1 H2).
Defined.

(** With the reference engine, a pool of two terms yields multiple-choice
    questions of two options, and a pool of one term a multiple-choice
    question whose only option is the answer. *)
Example generateQuiz_two_terms :
  (generateQuiz [term1; term2] 6%N).1 =
  Some [ {| q_term := term2; q_type := multiple_choice;
            q_options := [term2.(term); term1.(term)] |};
         {| q_term := term1; q_type := multiple_choice;
            q_options := [term1.(term); term2.(term)] |} ].
Proof. vm_compute. reflexivity. Qed.

Example generateQuiz_one_term :
  (generateQuiz [term1] 3%N).1 =
  Some [ {| q_term := term1; q_type := multiple_choice;
            q_options := [term1.(term)] |} ].
Proof. vm_compute. reflexivity. Qed.

Example generateQuiz_no_term : (generateQuiz [] 3%N).1 = None.
Proof. reflexivity. Qed.

End Generator_Facts.

(** ** The session queue *)

Module App_Facts.
Import JS Types SM2 App Binary64_Facts JS_Facts Samples.

(** *** Rating a card *)

(** Rating the card at the last position of the deck ends the session,
    whatever the rating: the deck is emptied and the index reset. *)
Lemma handleRate_last_card (rating : number) (s : State) (Date_now : Readings) (t : Term) :
  truthy_string s.(selectedChapter) = true ->
  s.(sessionDeck) !! s.(activeCardIndex) = Some t ->
  S s.(activeCardIndex) = length s.(sessionDeck) ->
  let s' := handleRate rating s Date_now in
  s'.(sessionDeck) = [] /\ s'.(activeCardIndex) = 0 /\
  s'.(selectedChapter) = s.(selectedChapter) /\ s'.(quizActive) = s.(quizActive).
Proof.
  intros Hc Ht Hlast. unfold handleRate. rewrite Hc, Ht.
  destruct (Nat.eqb_spec (length (sessionDeck s)) 0) as [E|_]; [lia|].
  cbn [negb orb].
  destruct (Z.ltb_spec (Z.of_nat (activeCardIndex s))
              (Z.of_nat (length (sessionDeck s)) - 1)) as [Hlt|_]; [lia|].
  unfold stopSessionTimer.
  destruct (rating <? 3)%float, (truthy_number (sessionStartTime s));
    repeat split.
Qed.

(** Rating a card before the last position with a rating below 3 appends
    the card to the deck and moves to the next card. *)
Lemma handleRate_recycles (rating : number) (s : State) (Date_now : Readings) (t : Term) :
  truthy_string s.(selectedChapter) = true ->
  s.(sessionDeck) !! s.(activeCardIndex) = Some t ->
  S s.(activeCardIndex) < length s.(sessionDeck) ->
  (rating <? 3)%float = true ->
  let s' := handleRate rating s Date_now in
  s'.(sessionDeck) = s.(sessionDeck) ++ [t] /\
  s'.(activeCardIndex) = s.(activeCardIndex) + 1 /\
  s'.(selectedChapter) = s.(selectedChapter) /\ s'.(quizActive) = s.(quizActive).
Proof.
  intros Hc Ht Hlast Hr. unfold handleRate. rewrite Hc, Ht, Hr.
  destruct (Nat.eqb_spec (length (sessionDeck s)) 0) as [E|_]; [lia|].
  cbn [negb orb].
  destruct (Z.ltb_spec (Z.of_nat (activeCardIndex s))
              (Z.of_nat (length (sessionDeck s)) - 1)) as [_|Hge]; [|lia].
  repeat split.
Qed.

(** C2, on the code: at the last position of a deck of two cards, a
    rating of 1 ends the session: the deck is emptied instead of growing by
    the card rated, and the session-complete screen is shown. *)
Theorem last_card_low_rating_completes :
  let s := session [term1; term2] 1 in
  let s' := handleRate 1 s (readings [61000; 61005]%float) in
  view s = Active /\ (1 <? 3)%float = true /\
  s.(sessionDeck) !! s.(activeCardIndex) = Some term2 /\
  s'.(sessionDeck) = [] /\ view s' = Complete.
Proof.
  intros s s'.
  destruct (handleRate_last_card 1 s (readings [61000; 61005]%float) term2)
    as (Hd & _ & Hc & Hq); try reflexivity.
  fold s' in Hd, Hc, Hq. repeat split; try reflexivity; try exact Hd.
Qed.

(** *** The mixed session *)

Lemma Array_prototype_slice_0 {A : Type} (end_ : number) (arr : list A) :
  Array_prototype_slice 0 end_ arr
  = firstn (Z.to_nat (relative_index_of (Z.of_nat (length arr))
                        (ToIntegerOrInfinity end_))) arr.
Proof.
  unfold Array_prototype_slice.
  replace (ToIntegerOrInfinity 0) with (Finite 0) by (vm_compute; reflexivity).
  cbn [relative_index_of].
  assert (R : relative_index (Z.of_nat (length arr)) 0 = 0%Z).
  { unfold relative_index. destruct (Z.ltb_spec 0 0); lia. }
  rewrite R, Z.sub_0_r. reflexivity.
Qed.

Section Mixed.
Context `{RandomEngine}.
Variable TERMS : list Term.

(** The deck is a prefix of the shuffled catalog, of the length that
    [slice] makes of its second argument. *)
Lemma mixedDeck_spec (n : number) (g : rng) :
  exists shuffled,
    Permutation TERMS shuffled /\
    (mixedDeck TERMS n g).1 =
      firstn (Z.to_nat (relative_index_of (Z.of_nat (length TERMS))
                (ToIntegerOrInfinity (Math_max 1 (Math_min n (Array_length TERMS))))))
        shuffled.
Proof.
  unfold mixedDeck.
  pose proof (sort_random_Permutation _ TERMS g) as Hp.
  destruct (sort_random TERMS g) as [allTerms g1]. cbn [fst] in *.
  exists allTerms. split; [exact Hp|].
  rewrite Array_prototype_slice_0. unfold Array_length.
  rewrite (Permutation_length Hp). reflexivity.
Qed.

(** The number of cards of the deck. *)
Lemma mixedDeck_length (n : number) (g : rng) :
  TERMS <> [] -> (Z.of_nat (length TERMS) < 2 ^ 53)%Z ->
  Z.of_nat (length (mixedDeck TERMS n g).1)
  = if PrimFloat.is_nan n then 0%Z
    else clamp 1 (Z.of_nat (length TERMS)) (ToIntegerOrInfinity n).
Proof.
  intros Hne Hlt.
  assert (Hl : 1 <= length TERMS) by (destruct TERMS; [congruence|simpl; lia]).
  destruct (mixedDeck_spec n g) as (shuffled & Hp & ->).
  unfold Array_length. rewrite slice_end_clamped by lia.
  rewrite length_take, <- (Permutation_length Hp).
  destruct (PrimFloat.is_nan n); [simpl; lia|].
  destruct (ToIntegerOrInfinity n) as [z| |]; cbn [clamp]; lia.
Qed.

(** C5, amended: for a pool that is not empty, the deck of a mixed
    session is a prefix of a rearrangement of the pool, and neither the
    progress records nor the clock have a part in it.  The quantity n is a
    number: the deck holds max (1, min (t, |pool|)) terms where t is n
    without its fractional part, +infinity and -infinity counting as above
    and below every integer, and no term when n is NaN.  For an integer n
    of at least 1 this is min (n, |pool|), and for n below 1 it is 1. *)
Theorem mixed_session_size (s : State) (now : Clock) (g : rng) :
  TERMS <> [] -> (Z.of_nat (length TERMS) < 2 ^ 53)%Z ->
  let deck := (startMixedSession TERMS s now g).1.(sessionDeck) in
  let n := s.(mixedCount) in
  let pool := Z.of_nat (length TERMS) in
  (PrimFloat.is_nan n = false ->
   Z.of_nat (length deck) = clamp 1 pool (ToIntegerOrInfinity n)) /\
  (PrimFloat.is_nan n = true -> deck = []) /\
  (forall z : Z, (1 <= z < 2 ^ 53)%Z -> n = number_of_Z z ->
     Z.of_nat (length deck) = Z.min z pool) /\
  ((n <? 1)%float = true -> length deck = 1) /\
  (exists rest, Permutation TERMS (deck ++ rest)) /\
  (forall (s0 : State) (now0 : Clock),
     s0.(mixedCount) = n ->
     (startMixedSession TERMS s0 now0 g).1.(sessionDeck) = deck).
Proof.
  intros Hne Hlt deck n pool.
  assert (Hdeck : forall s0 now0,
            (startMixedSession TERMS s0 now0 g).1.(sessionDeck)
            = (mixedDeck TERMS s0.(mixedCount) g).1).
  { intros s0 now0. unfold startMixedSession.
    destruct (mixedDeck TERMS (mixedCount s0) g) as [d g1]. reflexivity. }
  assert (Hl : 1 <= length TERMS) by (destruct TERMS; [congruence|simpl; lia]).
  assert (E : deck = (mixedDeck TERMS n g).1) by (unfold deck; apply Hdeck).
  pose proof (mixedDeck_length n g Hne Hlt) as Hlen. rewrite <- E in Hlen.
  split; [|split; [|split; [|split; [|split]]]].
  - intros Hn. rewrite Hn in Hlen. exact Hlen.
  - intros Hn. rewrite Hn in Hlen. destruct deck; [reflexivity|simpl in Hlen; lia].
  - intros z Hz En.
    destruct (number_of_Z_exact z Hz) as (m & e & Ez & _).
    assert (Hn : PrimFloat.is_nan n = false)
      by (rewrite is_nan_Prim2SF, En, Ez; reflexivity).
    rewrite Hn, En, ToIntegerOrInfinity_number_of_Z in Hlen by exact Hz.
    rewrite Hlen. unfold clamp, pool. lia.
  - intros Hn1.
    destruct (clamp_below_one n (Z.of_nat (length TERMS)) ltac:(lia) Hn1) as [Hn Hc].
    rewrite Hn, Hc in Hlen. lia.
  - destruct (mixedDeck_spec n g) as (shuffled & Hp & Hd).
    rewrite <- E in Hd. eexists. rewrite Hd, firstn_skipn. exact Hp.
  - intros s0 now0 Hn. rewrite Hdeck, Hn. symmetry. exact E.
Qed.

End Mixed.

(** C5, as stated: with quantity 0 and a pool of two terms, the deck of
    the mixed session has one term, not min (0, 2) = 0. *)
Lemma mixed_session_quantity_0 :
  let deck := (startMixedSession [term1; term2] (home 0) 1000 7%N).1.(sessionDeck) in
  [term1; term2] <> [] /\
  length deck = 1 /\
  Z.of_nat (length deck) <> Z.min 0 (Z.of_nat (length [term1; term2])).
Proof. vm_compute. repeat split; discriminate. Qed.

Lemma mixed_session_size_witness :
  let TERMS := [term1; term2; term3] in
  TERMS <> [] /\ (Z.of_nat (length TERMS) < 2 ^ 53)%Z /\
  let deck := (startMixedSession TERMS (home 2.5) 1000 7%N).1.(sessionDeck) in
  let n := (home 2.5).(mixedCount) in
  let pool := Z.of_nat (length TERMS) in
  (PrimFloat.is_nan n = false ->
   Z.of_nat (length deck) = clamp 1 pool (ToIntegerOrInfinity n)) /\
  (PrimFloat.is_nan n = true -> deck = []) /\
  (forall z : Z, (1 <= z < 2 ^ 53)%Z -> n = number_of_Z z ->
     Z.of_nat (length deck) = Z.min z pool) /\
  ((n <? 1)%float = true -> length deck = 1) /\
  (exists rest, Permutation TERMS (deck ++ rest)) /\
  (forall (s0 : State) (now0 : Clock),
     s0.(mixedCount) = n ->
     (startMixedSession TERMS s0 now0 7%N).1.(sessionDeck) = deck).
Proof.
  intros TERMS.
  assert (H1 : TERMS <> []) by discriminate.
  assert (H2 : (Z.of_nat (length TERMS) < 2 ^ 53)%Z) by reflexivity.
  split; [exact H1|]. split; [exact H2|].
  exact (mixed_session_size (H := reference_engine) TERMS (home 2.5) 1000 7%N H1 H2).
Defined.

(** A quantity of 2.5 gives two cards, and a quantity that is NaN none. *)
Example mixed_session_fraction :
  map (fun n => length (startMixedSession [term1; term2; term3] (home n) 1000 7%N).1.(sessionDeck))
      [2.5; 0.5; 7; -1; infinity; nan]%float
  = [2; 1; 3; 1; 3; 0].
Proof. vm_compute. reflexivity. Qed.

End App_Facts.

(** ** More on the scheduler *)

Module SM2_More.
Import JS Types SM2 Binary64 Binary64_Facts SM2_Facts Samples.
Local Open Scope Z_scope.

(** *** Adding 1 *)

Lemma shl_align_value (m : positive) (e e' : Z) :
  e' <= e -> Zpos (shl_align m e e').1 = Zpos m * 2 ^ (e - e').
Proof.
  intros He. unfold shl_align. destruct (e' - e) as [|d|d] eqn:E; simpl fst.
  - replace (e - e') with 0 by lia. lia.
  - lia.
  - rewrite Zpos_iter_xO. f_equal. f_equal. lia.
Qed.

(** The sum of a number that is at least 0 and 1 is at least 1. *)
Lemma SF64add_one_ge_one (x : spec_float) :
  SFleb (S754_zero false) x = true -> SFleb SF_one (SF64add x SF_one) = true.
Proof.
  destruct x as [s|[]| |[] m e]; try discriminate; intros _; try reflexivity.
  unfold SF64add, SFadd, SF_one.
  set (ez := Z.min e (-52)).
  assert (H1 := shl_align_value m e ez ltac:(lia)).
  assert (H2 := shl_align_value 4503599627370496 (-52) ez ltac:(lia)).
  simpl cond_Zopp.
  assert (P1 : 0 < 2 ^ (e - ez)) by (apply Z.pow_pos_nonneg; lia).
  assert (P2 : 2 ^ (- ez) <= Zpos (shl_align 4503599627370496 (-52) ez).1).
  { rewrite H2. change 4503599627370496 with (2 ^ 52).
    rewrite <- Z.pow_add_r by lia. apply Z.pow_le_mono_r; lia. }
  destruct (Zpos (shl_align m e ez).1 + Zpos (shl_align 4503599627370496 (-52) ez).1)
    as [|p|p] eqn:S; try lia.
  simpl binary_normalize.
  assert (Hd : - ez < Zpos (digits2_pos p)) by (apply digits2_pos_lower; lia).
  destruct (binary_round_normal prec emax false p ez)
    as [H|(m' & e' & H & Hm & He)];
    try (unfold SpecFloat.emin, emax, prec; lia);
    rewrite H; [reflexivity|].
  apply SFleb_one_normal; [exact Hm|]. unfold prec in He. lia.
Qed.

Lemma add_one_ge_one (x : number) :
  (0 <=? x)%float = true -> (1 <=? x + 1)%float = true.
Proof.
  rewrite !FloatAxioms.leb_spec, FloatAxioms.add_spec, Prim2SF_one.
  apply SF64add_one_ge_one.
Qed.

Lemma eqb_zero_of_ge_one (x : number) :
  (1 <=? x)%float = true -> (x =? 0)%float = false.
Proof.
  rewrite FloatAxioms.leb_spec, FloatAxioms.eqb_spec, Prim2SF_one. intros H.
  apply SFleb_pos_inv in H as [->|(m & e & -> & _)]; reflexivity.
Qed.

(** Adding +0 to a number that is at least 1.3 gives the number. *)
Lemma add_zero_r (x : number) : (1.3 <=? x)%float = true -> (x + 0)%float = x.
Proof.
  intros H. apply Prim2SF_inj. rewrite FloatAxioms.add_spec.
  rewrite FloatAxioms.leb_spec in H.
  change (Prim2SF 1.3) with (S754_finite false 5854679515581645 (-52)) in H.
  apply SFleb_pos_inv in H as [->|(m & e & -> & _)]; reflexivity.
Qed.

Lemma ltb_false_of_leb (x y : number) :
  (x <=? y)%float = true -> (y <? x)%float = false.
Proof.
  rewrite FloatAxioms.leb_spec, FloatAxioms.ltb_spec. unfold SFleb, SFltb.
  rewrite (SFcompare_swap (Prim2SF x) (Prim2SF y)).
  destruct (SFcompare (Prim2SF x) (Prim2SF y)) as [[]|]; simpl; congruence.
Qed.

(** *** Records the scheduler returns *)

Lemma calculateNextReview_bounds (p : option UserProgress) (rating : number)
    (id : string) (now : Clock) :
  Rating rating -> schedulable p -> (1.3 <=? efactor_of p)%float = true ->
  let r := calculateNextReview p rating id now in
  (1 <=? interval r)%float = true /\ (1.3 <=? efactor r)%float = true.
Proof.
  intros Hr Hp He r. split.
  - destruct (3 <=? rating)%float eqn:E.
    + apply interval_calculateNextReview_success; assumption.
    + subst r. unfold calculateNextReview. rewrite E. destruct p; reflexivity.
  - subst r. rewrite efactor_calculateNextReview. apply nextEfactor_floor; [|exact Hr].
    apply leb_not_nan in He. apply He.
Qed.

Lemma review_all_bounds (p : option UserProgress) (id : string)
    (steps : list (number * Clock)) :
  schedulable p -> (1.3 <=? efactor_of p)%float = true ->
  steps <> [] -> Forall (fun step => Rating step.1) steps ->
  exists r, review_all p id steps = Some r /\
    (1 <=? interval r)%float = true /\ (1.3 <=? efactor r)%float = true.
Proof.
  intros Hp He Hne Hs. revert p Hp He Hne.
  induction Hs as [|[rating now] steps Hr _ IH]; intros p Hp He Hne; [congruence|].
  cbn [review_all].
  destruct (calculateNextReview_bounds p rating id now Hr Hp He) as [Hi He'].
  destruct steps as [|step steps].
  - eexists. split; [reflexivity|]. split; assumption.
  - apply IH; [|exact He'|discriminate].
    simpl. right. right. split; assumption.
Qed.

(** X1: from a term never studied, every non-empty sequence of reviews
    with ratings among 0, ..., 5 leaves a record whose interval is at least
    one day and whose ease factor is at least 1.3. *)
Theorem reviews_from_new_card (id : string) (steps : list (number * Clock)) :
  steps <> [] -> Forall (fun step => Rating step.1) steps ->
  exists r, review_all None id steps = Some r /\
    (1 <=? interval r)%float = true /\ (1.3 <=? efactor r)%float = true.
Proof.
  intros Hne Hs. apply review_all_bounds; try assumption; [exact I|reflexivity].
Qed.

Lemma review_steps_Rating : Forall (fun step => Rating step.1) review_steps.
Proof. unfold Rating. repeat constructor; simpl; tauto. Qed.

Lemma reviews_from_new_card_witness :
  review_steps <> [] /\
  Forall (fun step => Rating step.1) review_steps /\
  exists r, review_all None "t1" review_steps = Some r /\
    (1 <=? interval r)%float = true /\ (1.3 <=? efactor r)%float = true.
Proof.
  assert (H1 : review_steps <> []) by discriminate.
  split; [exact H1|]. split; [exact review_steps_Rating|].
  exact (reviews_from_new_card "t1" review_steps H1 review_steps_Rating).
Defined.

(** X2: a rating of 4 leaves an ease factor of at least 1.3 as it is: in
    binary64, 0.1 - 1 * (0.08 + 1 * 0.02) is 0. *)
Theorem rating_4_keeps_ease (p : option UserProgress) (id : string) (now : Clock) :
  (1.3 <=? efactor_of p)%float = true ->
  efactor (calculateNextReview p 4 id now) = efactor_of p.
Proof.
  intros He. rewrite efactor_calculateNextReview. unfold nextEfactor.
  change (0.1 - (5 - 4) * (0.08 + (5 - 4) * 0.02))%float with 0%float.
  rewrite (add_zero_r _ He), (ltb_false_of_leb _ _ He). reflexivity.
Qed.

Lemma rating_4_keeps_ease_witness :
  (1.3 <=? efactor_of (Some (twice_reviewed "t1" 0)))%float = true /\
  efactor (calculateNextReview (Some (twice_reviewed "t1" 0)) 4 "t1" 1000)
  = efactor_of (Some (twice_reviewed "t1" 0)).
Proof.
  assert (H1 : (1.3 <=? efactor_of (Some (twice_reviewed "t1" 0)))%float = true)
    by reflexivity.
  split; [exact H1|].
  exact (rating_4_keeps_ease (Some (twice_reviewed "t1" 0)) "t1" 1000 H1).
Defined.

(** X3: a failed review erases the streak: whatever the record before,
    a rating below 3 gives repetition 0 and interval 1, and the next
    successful review gives repetition 1 and the interval of a first
    success, 4 days for a rating of 5 and 1 day otherwise. *)
Theorem failure_restarts_streak (p : option UserProgress) (failed passed : number)
    (id : string) (now now' : Clock) :
  (3 <=? failed)%float = false -> (3 <=? passed)%float = true ->
  let r := calculateNextReview p failed id now in
  let r' := calculateNextReview (Some r) passed id now' in
  repetition r = 0%float /\ interval r = 1%float /\
  nextReviewDate r = (now + 1 * oneDay)%float /\
  repetition r' = 1%float /\
  interval r' = (if (passed =? 5)%float then 4 else 1)%float.
Proof.
  intros Hf Hs. unfold calculateNextReview. rewrite Hf, Hs.
  destruct p; cbn; destruct (passed =? 5)%float; repeat split.
Qed.

Lemma failure_restarts_streak_witness :
  (3 <=? 1)%float = false /\ (3 <=? 5)%float = true /\
  let r := calculateNextReview (Some (twice_reviewed "t1" 0)) 1 "t1" 1000 in
  let r' := calculateNextReview (Some r) 5 "t1" 2000 in
  repetition r = 0%float /\ interval r = 1%float /\
  nextReviewDate r = (1000 + 1 * oneDay)%float /\
  repetition r' = 1%float /\
  interval r' = (if (5 =? 5)%float then 4 else 1)%float.
Proof.
  assert (H1 : (3 <=? 1)%float = false) by reflexivity.
  assert (H2 : (3 <=? 5)%float = true) by reflexivity.
  split; [exact H1|]. split; [exact H2|].
  exact (failure_restarts_streak (Some (twice_reviewed "t1" 0)) 1 5 "t1" 1000 2000 H1 H2).
Defined.

End SM2_More.

(** ** More on the session queue *)

Module App_More.
Import JS Types SM2 App Binary64 Binary64_Facts JS_Facts SM2_Facts SM2_More App_Facts Samples.

(** *** Values read from the progress object *)

Lemma Get_Some {A : Type} (obj : gmap string A) (key : string) (v : A) :
  obj !! key = Some v -> Get obj key = Own v.
Proof. intros E. unfold Get. rewrite E. reflexivity. Qed.

Lemma Get_insert_eq {A : Type} (obj : gmap string A) (key : string) (v : A) :
  Get (<[key := v]> obj) key = Own v.
Proof. apply Get_Some, lookup_insert_eq. Qed.

Lemma Get_insert_ne {A : Type} (obj : gmap string A) (key k : string) (v : A) :
  k <> key -> Get (<[key := v]> obj) k = Get obj k.
Proof. intros Hk. unfold Get. rewrite lookup_insert_ne by congruence. reflexivity. Qed.

Lemma Get_ordinary {A : Type} (obj : gmap string A) (key : string) :
  key ∉ Object_prototype ->
  Get obj key = match obj !! key with Some v => Own v | None => Undefined end.
Proof.
  intros Hk. unfold Get. destruct (obj !! key); [reflexivity|].
  rewrite bool_decide_eq_false_2 by exact Hk. reflexivity.
Qed.

Lemma Get_inherited {A : Type} (obj : gmap string A) (key : string) :
  obj !! key = None -> key ∈ Object_prototype -> Get obj key = Inherited.
Proof.
  intros E Hk. unfold Get. rewrite E, bool_decide_eq_true_2 by exact Hk. reflexivity.
Qed.

(** A sum with NaN is NaN, so that the ease factor computed from NaN is
    NaN. *)
Lemma nextEfactor_nan (rating : number) :
  PrimFloat.is_nan (nextEfactor nan rating) = true.
Proof.
  unfold nextEfactor.
  set (d := (0.1 - (5 - rating) * (0.08 + (5 - rating) * 0.02))%float).
  assert (E : Prim2SF (nan + d)%float = S754_nan).
  { rewrite FloatAxioms.add_spec.
    replace (Prim2SF nan) with S754_nan by (vm_compute; reflexivity). reflexivity. }
  assert (L : (nan + d <? 1.3)%float = false).
  { rewrite FloatAxioms.ltb_spec, E. reflexivity. }
  rewrite L, is_nan_Prim2SF, E. reflexivity.
Qed.

(** *** Rating a card *)

(** The rating of a card that is there: the progress map gets the new
    record of the card, and the deck and index change with the position. *)
Lemma handleRate_rated (rating : number) (s : State) (Date_now : Readings) (t : Term) :
  truthy_string s.(selectedChapter) = true ->
  s.(sessionDeck) !! s.(activeCardIndex) = Some t ->
  let s' := handleRate rating s Date_now in
  s'.(progress) =
    <[t.(id) := calculateNextReview (received (Get s.(progress) t.(id))) rating
                  t.(id) (Date_now 0)]>
      s.(progress) /\
  s'.(selectedChapter) = s.(selectedChapter) /\
  s'.(quizActive) = s.(quizActive) /\
  s'.(mixedCount) = s.(mixedCount).
Proof.
  intros Hc Ht. unfold handleRate. rewrite Hc, Ht.
  assert (Hlen : s.(activeCardIndex) < length s.(sessionDeck))
    by (apply lookup_lt_is_Some_1; eauto).
  destruct (Nat.eqb_spec (length (sessionDeck s)) 0) as [E|_]; [lia|].
  cbn [negb orb]. unfold stopSessionTimer.
  destruct (_ <? _)%Z, (rating <? 3)%float, (truthy_number (sessionStartTime s));
    repeat split.
Qed.

Lemma handleRate_before_last_deck (rating : number) (s : State) (Date_now : Readings) (t : Term) :
  truthy_string s.(selectedChapter) = true ->
  s.(sessionDeck) !! s.(activeCardIndex) = Some t ->
  S s.(activeCardIndex) < length s.(sessionDeck) ->
  let s' := handleRate rating s Date_now in
  s'.(sessionDeck) = s.(sessionDeck) ++ (if (rating <? 3)%float then [t] else []) /\
  s'.(activeCardIndex) = s.(activeCardIndex) + 1 /\
  s'.(totalStudyTime) = s.(totalStudyTime) /\
  s'.(sessionStartTime) = s.(sessionStartTime) /\
  s'.(currentSessionDuration) = s.(currentSessionDuration).
Proof.
  intros Hc Ht Hlast. unfold handleRate. rewrite Hc, Ht.
  destruct (Nat.eqb_spec (length (sessionDeck s)) 0) as [E|_]; [lia|].
  cbn [negb orb].
  destruct (Z.ltb_spec (Z.of_nat (activeCardIndex s))
              (Z.of_nat (length (sessionDeck s)) - 1)) as [_|Hge]; [|lia].
  destruct (rating <? 3)%float; cbn; rewrite ?app_nil_r; repeat split.
Qed.

(** X4: before the last position of the deck, a rating moves to the next
    card and leaves the session active and its clock running; a rating
    below 3 appends the card rated to the deck, so that as many cards are
    left as before, and any other rating leaves the deck as it is, so that
    one card fewer is left. *)
Theorem handleRate_before_last (rating : number) (s : State) (Date_now : Readings) (t : Term) :
  truthy_string s.(selectedChapter) = true ->
  s.(sessionDeck) !! s.(activeCardIndex) = Some t ->
  S s.(activeCardIndex) < length s.(sessionDeck) ->
  let s' := handleRate rating s Date_now in
  s'.(sessionDeck) = s.(sessionDeck) ++ (if (rating <? 3)%float then [t] else []) /\
  s'.(activeCardIndex) = s.(activeCardIndex) + 1 /\
  length s'.(sessionDeck) - s'.(activeCardIndex) =
    length s.(sessionDeck) - s.(activeCardIndex)
    - (if (rating <? 3)%float then 0 else 1) /\
  view s' = view s /\
  s'.(totalStudyTime) = s.(totalStudyTime) /\
  s'.(sessionStartTime) = s.(sessionStartTime).
Proof.
  intros Hc Ht Hlast s'.
  destruct (handleRate_before_last_deck rating s Date_now t Hc Ht Hlast)
    as (Hd & Hi & Htot & Hst & _).
  destruct (handleRate_rated rating s Date_now t Hc Ht) as (_ & Hch & Hq & _).
  fold s' in Hd, Hi, Htot, Hst, Hch, Hq.
  split; [exact Hd|]. split; [exact Hi|]. split; [|split; [|split; assumption]].
  - rewrite Hd, Hi, length_app. destruct (rating <? 3)%float; cbn [length]; lia.
  - unfold view. rewrite Hch, Hq, Hd, length_app.
    destruct (sessionDeck s) as [|t0 deck]; [simpl in Hlast; lia|]. reflexivity.
Qed.

Lemma handleRate_before_last_witness :
  let s := session [term1; term2] 0 in
  let Date_now := readings [61000; 61005]%float in
  truthy_string s.(selectedChapter) = true /\
  s.(sessionDeck) !! s.(activeCardIndex) = Some term1 /\
  S s.(activeCardIndex) < length s.(sessionDeck) /\
  let s' := handleRate 1 s Date_now in
  s'.(sessionDeck) = s.(sessionDeck) ++ (if (1 <? 3)%float then [term1] else []) /\
  s'.(activeCardIndex) = s.(activeCardIndex) + 1 /\
  length s'.(sessionDeck) - s'.(activeCardIndex) =
    length s.(sessionDeck) - s.(activeCardIndex)
    - (if (1 <? 3)%float then 0 else 1) /\
  view s' = view s /\
  s'.(totalStudyTime) = s.(totalStudyTime) /\
  s'.(sessionStartTime) = s.(sessionStartTime).
Proof.
  intros s Date_now.
  assert (H1 : truthy_string s.(selectedChapter) = true) by reflexivity.
  assert (H2 : s.(sessionDeck) !! s.(activeCardIndex) = Some term1) by reflexivity.
  assert (H3 : S s.(activeCardIndex) < length s.(sessionDeck)) by (simpl; lia).
  split; [exact H1|]. split; [exact H2|]. split; [exact H3|].
  exact (handleRate_before_last 1 s Date_now term1 H1 H2 H3).
Defined.

(** X5: a rating writes, as an own property named by the id of the card
    rated, the record the scheduler returns at the first reading of the
    clock for the value read under that id, and leaves all other
    properties as they are.  The value read is the record of the card if it
    has one; otherwise it is absent, unless the id names a property of
    [Object.prototype]: the scheduler is then passed the inherited object,
    and the ease factor of the record written is NaN. *)
Theorem handleRate_records_progress (rating : number) (s : State)
    (Date_now : Readings) (t : Term) :
  truthy_string s.(selectedChapter) = true ->
  s.(sessionDeck) !! s.(activeCardIndex) = Some t ->
  let s' := handleRate rating s Date_now in
  let r := calculateNextReview (received (Get s.(progress) t.(id))) rating
             t.(id) (Date_now 0) in
  s'.(progress) !! t.(id) = Some r /\
  Get s'.(progress) t.(id) = Own r /\
  (forall k : string, k <> t.(id) ->
     s'.(progress) !! k = s.(progress) !! k /\
     Get s'.(progress) k = Get s.(progress) k) /\
  (forall p, s.(progress) !! t.(id) = Some p ->
     r = calculateNextReview (Some p) rating t.(id) (Date_now 0)) /\
  (s.(progress) !! t.(id) = None -> t.(id) ∉ Object_prototype ->
     r = calculateNextReview None rating t.(id) (Date_now 0)) /\
  (s.(progress) !! t.(id) = None -> t.(id) ∈ Object_prototype ->
     PrimFloat.is_nan r.(efactor) = true).
Proof.
  intros Hc Ht s' r. destruct (handleRate_rated rating s Date_now t Hc Ht) as (Hp & _).
  fold s' r in Hp. rewrite Hp.
  split; [apply lookup_insert_eq|]. split; [apply Get_insert_eq|].
  split; [|split; [|split]].
  - intros k Hk. split; [apply lookup_insert_ne; congruence|].
    apply Get_insert_ne, Hk.
  - intros p E. unfold r. rewrite (Get_Some _ _ _ E). reflexivity.
  - intros E Hn. unfold r. rewrite (Get_ordinary _ _ Hn), E. reflexivity.
  - intros E Hi. unfold r. rewrite (Get_inherited _ _ E Hi).
    rewrite efactor_calculateNextReview. apply nextEfactor_nan.
Qed.

Lemma handleRate_records_progress_witness :
  let s := session [term1; term2] 1 in
  let Date_now := readings [61000; 61005]%float in
  truthy_string s.(selectedChapter) = true /\
  s.(sessionDeck) !! s.(activeCardIndex) = Some term2 /\
  let s' := handleRate 5 s Date_now in
  let r := calculateNextReview (received (Get s.(progress) term2.(id))) 5
             term2.(id) (Date_now 0) in
  s'.(progress) !! term2.(id) = Some r /\
  Get s'.(progress) term2.(id) = Own r /\
  (forall k : string, k <> term2.(id) ->
     s'.(progress) !! k = s.(progress) !! k /\
     Get s'.(progress) k = Get s.(progress) k) /\
  (forall p, s.(progress) !! term2.(id) = Some p ->
     r = calculateNextReview (Some p) 5 term2.(id) (Date_now 0)) /\
  (s.(progress) !! term2.(id) = None -> term2.(id) ∉ Object_prototype ->
     r = calculateNextReview None 5 term2.(id) (Date_now 0)) /\
  (s.(progress) !! term2.(id) = None -> term2.(id) ∈ Object_prototype ->
     PrimFloat.is_nan r.(efactor) = true).
Proof.
  intros s Date_now.
  assert (H1 : truthy_string s.(selectedChapter) = true) by reflexivity.
  assert (H2 : s.(sessionDeck) !! s.(activeCardIndex) = Some term2) by reflexivity.
  split; [exact H1|]. split; [exact H2|].
  exact (handleRate_records_progress 5 s Date_now term2 H1 H2).
Defined.

(** A card whose id is [constructor]: rated for the first time, it gets a
    record whose ease factor is NaN, where a card with an ordinary id gets
    2.6. *)
Example handleRate_inherited_value :
  let card := {| id := "constructor"; chapterId := "c1"; term := "Constructor";
                 definition := "A method that initialises an object";
                 aiExplanation := None |} in
  let s' := handleRate 5 (session [card; term1] 0) (readings [61000]%float) in
  let s'' := handleRate 5 (session [term1; card] 0) (readings [61000]%float) in
  option_map (fun r => PrimFloat.is_nan r.(efactor)) (s'.(progress) !! "constructor")
    = Some true /\
  option_map efactor (s''.(progress) !! "t1") = Some 2.6%float.
Proof. vm_compute. split; reflexivity. Qed.

(** X6: a rating changes nothing when no chapter is selected, when the
    deck is empty, or when the index is past the end of the deck. *)
Theorem handleRate_nothing_to_rate (rating : number) (s : State) (Date_now : Readings) :
  truthy_string s.(selectedChapter) = false \/
  length s.(sessionDeck) <= s.(activeCardIndex) ->
  handleRate rating s Date_now = s.
Proof.
  intros [Hc|Hi]; unfold handleRate.
  - rewrite Hc. reflexivity.
  - rewrite (lookup_ge_None_2 _ _ Hi).
    destruct (negb _ || _); reflexivity.
Qed.

Lemma handleRate_nothing_to_rate_witness :
  (truthy_string (home 20).(selectedChapter) = false \/
   length (home 20).(sessionDeck) <= (home 20).(activeCardIndex)) /\
  handleRate 5 (home 20) (readings [61000; 61005]%float) = home 20.
Proof.
  assert (H1 : truthy_string (home 20).(selectedChapter) = false \/
               length (home 20).(sessionDeck) <= (home 20).(activeCardIndex))
    by (left; reflexivity).
  split; [exact H1|].
  exact (handleRate_nothing_to_rate 5 (home 20) (readings [61000; 61005]%float) H1).
Defined.

(** *** The study time *)

(** X7: when the rating of the last card ends a session whose clock is
    running, the seconds since the start of the session are added to the
    total study time, shown as the duration of the session, and the clock
    is stopped; leaving the summary afterwards adds nothing more.  The
    seconds are counted up to the second reading of the clock, the one
    taken when the timer is stopped. *)
Theorem study_time_counted_once (rating : number) (s : State)
    (Date_now : Readings) (later : Clock) (t : Term) (start : number) :
  truthy_string s.(selectedChapter) = true ->
  s.(sessionDeck) !! s.(activeCardIndex) = Some t ->
  S s.(activeCardIndex) = length s.(sessionDeck) ->
  truthy_number s.(sessionStartTime) = Some start ->
  let s' := handleRate rating s Date_now in
  let elapsed := ((Date_now 1%nat - start) / 1000)%float in
  s'.(totalStudyTime) = (s.(totalStudyTime) + elapsed)%float /\
  s'.(currentSessionDuration) = elapsed /\
  s'.(sessionStartTime) = None /\
  (exitSession s' later).(totalStudyTime) = s'.(totalStudyTime) /\
  view (exitSession s' later) = Idle.
Proof.
  intros Hc Ht Hlast Hst. unfold handleRate. rewrite Hc, Ht.
  destruct (Nat.eqb_spec (length (sessionDeck s)) 0) as [E|_]; [lia|].
  cbn [negb orb].
  destruct (Z.ltb_spec (Z.of_nat (activeCardIndex s))
              (Z.of_nat (length (sessionDeck s)) - 1)) as [Hlt|_]; [lia|].
  unfold stopSessionTimer. rewrite Hst.
  destruct (rating <? 3)%float; repeat split.
Qed.

Lemma study_time_counted_once_witness :
  let s := session [term1; term2] 1 in
  let Date_now := readings [61000; 61005]%float in
  truthy_string s.(selectedChapter) = true /\
  s.(sessionDeck) !! s.(activeCardIndex) = Some term2 /\
  S s.(activeCardIndex) = length s.(sessionDeck) /\
  truthy_number s.(sessionStartTime) = Some 1000%float /\
  let s' := handleRate 5 s Date_now in
  let elapsed := ((Date_now 1%nat - 1000) / 1000)%float in
  s'.(totalStudyTime) = (s.(totalStudyTime) + elapsed)%float /\
  s'.(currentSessionDuration) = elapsed /\
  s'.(sessionStartTime) = None /\
  (exitSession s' 99000).(totalStudyTime) = s'.(totalStudyTime) /\
  view (exitSession s' 99000) = Idle.
Proof.
  intros s Date_now.
  assert (H1 : truthy_string s.(selectedChapter) = true) by reflexivity.
  assert (H2 : s.(sessionDeck) !! s.(activeCardIndex) = Some term2) by reflexivity.
  assert (H3 : S s.(activeCardIndex) = length s.(sessionDeck)) by reflexivity.
  assert (H4 : truthy_number s.(sessionStartTime) = Some 1000%float) by reflexivity.
  split; [exact H1|]. split; [exact H2|]. split; [exact H3|]. split; [exact H4|].
  exact (study_time_counted_once 5 s Date_now 99000 term2 1000 H1 H2 H3 H4).
Defined.

(** X8: leaving a session returns to the home screen with an empty deck
    and keeps the progress records; it adds the seconds since the start
    of the session to the study time when the clock is running and nothing
    otherwise; and leaving twice is as leaving once. *)
Theorem exitSession_spec (s : State) (now later : Clock) :
  let s' := exitSession s now in
  view s' = Idle /\ s'.(sessionDeck) = [] /\ s'.(activeCardIndex) = 0 /\
  s'.(progress) = s.(progress) /\
  s'.(totalStudyTime) =
    match truthy_number s.(sessionStartTime) with
    | Some start => (s.(totalStudyTime) + (now - start) / 1000)%float
    | None => s.(totalStudyTime)
    end /\
  truthy_number s'.(sessionStartTime) = None /\
  exitSession s' later = s'.
Proof.
  unfold exitSession, stopSessionTimer.
  destruct (truthy_number (sessionStartTime s)) as [start|] eqn:E.
  - repeat split.
  - cbn. rewrite E. repeat split.
Qed.

(** *** The cards that are due *)

(** Whether a value read from the progress object counts as due at a
    reading of the clock: an absent value always, a record from its review
    date on, an inherited object never. *)
Lemma isDue_received (v : property UserProgress) (now : Clock) :
  isDue (received v) now =
    match v with
    | Undefined => true
    | Own p => (p.(nextReviewDate) <=? now)%float
    | Inherited => false
    end.
Proof.
  destruct v; try reflexivity. simpl. rewrite FloatAxioms.leb_spec.
  replace (Prim2SF nan) with S754_nan by (vm_compute; reflexivity). reflexivity.
Qed.

Lemma isDue_received_later (v : property UserProgress) (now later : Clock) :
  (now <=? later)%float = true ->
  isDue (received v) now = true -> isDue (received v) later = true.
Proof.
  intros Hl. destruct (received v) as [q|]; [|reflexivity].
  simpl. intros Hd. exact (leb_trans _ _ _ Hd Hl).
Qed.

Section Filter.
Variable progress : gmap string UserProgress.
Variable Date_now : Readings.

Lemma filter_isDue_cons (term : Term) (rest : list Term) (k : nat) :
  (filter_isDue progress (term :: rest) Date_now k).1 =
    let deck := (filter_isDue progress rest Date_now
                   (if truthy (Get progress term.(id)) then S k else k)).1 in
    if isDue (received (Get progress term.(id))) (Date_now k)
    then term :: deck else deck.
Proof.
  cbn [filter_isDue].
  destruct (filter_isDue progress rest Date_now _) as [deck n].
  destruct (isDue _ _); reflexivity.
Qed.

Lemma filter_isDue_rank (terms : list Term) (k : nat) :
  k <= (filter_isDue progress terms Date_now k).2 <= k + length terms.
Proof.
  revert k. induction terms as [|term rest IH]; intros k; cbn [filter_isDue length].
  - simpl. lia.
  - specialize (IH (if truthy (Get progress term.(id)) then S k else k)).
    destruct (filter_isDue progress rest Date_now _) as [deck n].
    cbn [snd] in *. destruct (truthy _); lia.
Qed.

(** The deck keeps terms of the list, in their order. *)
Lemma filter_isDue_sublist (terms : list Term) (k : nat) :
  sublist (filter_isDue progress terms Date_now k).1 terms.
Proof.
  revert k. induction terms as [|term rest IH]; intros k.
  - constructor.
  - rewrite filter_isDue_cons. cbv zeta.
    destruct (isDue _ _); [apply sublist_skip|apply sublist_cons]; apply IH.
Qed.

(** A term of the deck was due at one of the readings. *)
Lemma filter_isDue_sound (terms : list Term) (k : nat) (t : Term) :
  In t (filter_isDue progress terms Date_now k).1 ->
  exists j, isDue (received (Get progress t.(id))) (Date_now j) = true.
Proof.
  revert k. induction terms as [|term rest IH]; intros k.
  - intros [].
  - rewrite filter_isDue_cons. cbv zeta.
    destruct (isDue _ _) eqn:D.
    + intros [<-|Hin]; [exists k; exact D|exact (IH _ Hin)].
    + apply IH.
Qed.

(** A term that is due at every reading is in the deck. *)
Lemma filter_isDue_complete (terms : list Term) (k : nat) (t : Term) :
  In t terms ->
  (forall j, isDue (received (Get progress t.(id))) (Date_now j) = true) ->
  In t (filter_isDue progress terms Date_now k).1.
Proof.
  intros Hin Hd. revert k. induction terms as [|term rest IH]; intros k.
  - destruct Hin.
  - rewrite filter_isDue_cons. cbv zeta. destruct Hin as [->|Hin].
    + rewrite Hd. left. reflexivity.
    + destruct (isDue _ _); [right|]; apply IH, Hin.
Qed.

(** When the clock reads the same at every call, the deck is the list
    filtered by [isDue] at that reading. *)
Lemma filter_isDue_constant (terms : list Term) (k : nat) (now : Clock) :
  (forall j, Date_now j = now) ->
  (filter_isDue progress terms Date_now k).1
  = List.filter (fun t => isDue (received (Get progress t.(id))) now) terms.
Proof.
  intros Hc. revert k. induction terms as [|term rest IH]; intros k.
  - reflexivity.
  - rewrite filter_isDue_cons. cbv zeta. rewrite Hc, IH. reflexivity.
Qed.

(** When no term has a truthy value, every term is in the deck. *)
Lemma filter_isDue_new (terms : list Term) (k : nat) :
  existsb (fun t => truthy (Get progress t.(id))) terms = false ->
  (filter_isDue progress terms Date_now k).1 = terms.
Proof.
  revert k. induction terms as [|term rest IH]; intros k; [reflexivity|].
  cbn [existsb]. intros Hs. apply orb_false_iff in Hs as [Ht Hs].
  rewrite filter_isDue_cons. cbv zeta. rewrite Ht, (IH _ Hs).
  destruct (Get progress (id term)); try discriminate. reflexivity.
Qed.

End Filter.

(** A deck filtered at later readings holds the deck filtered at earlier
    ones. *)
Lemma filter_isDue_later (progress : gmap string UserProgress) (terms : list Term)
    (Date_now Date_now' : Readings) (k k' : nat) :
  (forall i j, (Date_now i <=? Date_now' j)%float = true) ->
  sublist (filter_isDue progress terms Date_now k).1
          (filter_isDue progress terms Date_now' k').1.
Proof.
  intros Hl. revert k k'. induction terms as [|term rest IH]; intros k k'.
  - constructor.
  - rewrite !filter_isDue_cons. cbv zeta.
    destruct (isDue _ (Date_now k)) eqn:D.
    + rewrite (isDue_received_later _ _ _ (Hl k k') D). apply sublist_skip, IH.
    + destruct (isDue _ (Date_now' k')); [apply sublist_cons|]; apply IH.
Qed.

(** *** Starting a session *)

Section Start.
Variable TERMS : list Term.

Lemma In_chapterTerms (chapterId : string) (t : Term) :
  In t (chapterTerms TERMS chapterId) <-> In t TERMS /\ Types.chapterId t = chapterId.
Proof. unfold chapterTerms. rewrite List.filter_In, String.eqb_eq. tauto. Qed.

(** The two outcomes of [startSession] over the due cards. *)
Lemma startSession_due (chapterId : string) (s : State) (Date_now : Readings) :
  let f := filter_isDue s.(progress) (chapterTerms TERMS chapterId) Date_now 0 in
  startSession TERMS chapterId false s Date_now =
    match f.1 with
    | [] => (s, Some "No cards due for this chapter! Try 'Review All' or choose another chapter."%string)
    | _ :: _ =>
        (setSessionStartTime (Some (Date_now f.2))
           (setActiveCardIndex 0
              (setQuizActive false
                 (setSelectedChapter (Some chapterId) (setSessionDeck f.1 s)))),
         None)
    end.
Proof.
  unfold startSession. fold (chapterTerms TERMS chapterId).
  destruct (filter_isDue _ _ _ _) as [[|t0 deck] k]; reflexivity.
Qed.

(** X9: a session over the due cards of a chapter.  The deck holds terms
    of the chapter in the order of the catalog, each reading of its
    progress value being taken at its own reading of the clock: a term
    without a value is in the deck; a term with a record is in the deck
    when its review date has come at every reading, and only if it has
    come at some reading; a term whose id names a property of
    [Object.prototype] and which has no record is not in the deck.  When
    the clock reads the same throughout, the deck is the chapter filtered
    by [isDue] at that reading.  When the deck is empty, the state is left
    as it is and an alert is raised; otherwise the session starts at the
    first card, the clock is started at a further reading, the records are
    kept, and a card is shown. *)
Theorem startSession_due_cards (chapterId : string) (s : State) (Date_now : Readings) :
  let r := startSession TERMS chapterId false s Date_now in
  let deck := (filter_isDue s.(progress) (chapterTerms TERMS chapterId) Date_now 0).1 in
  sublist deck (chapterTerms TERMS chapterId) /\
  (forall t, In t deck ->
     In t TERMS /\ Types.chapterId t = chapterId /\
     match Get s.(progress) t.(id) with
     | Undefined => True
     | Own p => exists k, (p.(nextReviewDate) <=? Date_now k)%float = true
     | Inherited => False
     end) /\
  (forall t, In t TERMS -> Types.chapterId t = chapterId ->
     match Get s.(progress) t.(id) with
     | Undefined => True
     | Own p => forall k, (p.(nextReviewDate) <=? Date_now k)%float = true
     | Inherited => False
     end -> In t deck) /\
  (forall now, (forall k, Date_now k = now) ->
     deck = List.filter (fun t => isDue (received (Get s.(progress) t.(id))) now)
              (chapterTerms TERMS chapterId)) /\
  (deck = [] -> r.1 = s /\ r.2 <> None) /\
  (deck <> [] ->
   r.2 = None /\
   r.1.(sessionDeck) = deck /\ r.1.(activeCardIndex) = 0 /\
   r.1.(selectedChapter) = Some chapterId /\ r.1.(quizActive) = false /\
   (exists k, k <= totalTerms TERMS chapterId /\
              r.1.(sessionStartTime) = Some (Date_now k)) /\
   r.1.(progress) = s.(progress) /\
   r.1.(totalStudyTime) = s.(totalStudyTime) /\
   (chapterId <> ""%string -> view r.1 = Active)).
Proof.
  intros r deck. split; [|split; [|split; [|split; [|split]]]].
  - apply filter_isDue_sublist.
  - intros t Hin.
    pose proof (sublist_submseteq _ _
                  (filter_isDue_sublist (progress s) Date_now
                     (chapterTerms TERMS chapterId) 0)) as Hs.
    assert (Hc : In t (chapterTerms TERMS chapterId)).
    { apply list_elem_of_In. eapply elem_of_submseteq; [|exact Hs].
      apply list_elem_of_In, Hin. }
    apply In_chapterTerms in Hc as [H1 H2]. split; [exact H1|]. split; [exact H2|].
    destruct (filter_isDue_sound _ _ _ _ _ Hin) as [j Hj].
    rewrite isDue_received in Hj.
    destruct (Get (progress s) (id t)); [eauto|discriminate|exact I].
  - intros t H1 H2 Hv. apply filter_isDue_complete.
    + apply In_chapterTerms. auto.
    + intros j. rewrite isDue_received.
      destruct (Get (progress s) (id t)); [apply Hv|destruct Hv|reflexivity].
  - intros now Hc. apply filter_isDue_constant, Hc.
  - intros Hd. unfold r. rewrite startSession_due. fold deck. rewrite Hd.
    split; [reflexivity|discriminate].
  - intros Hd. unfold r. rewrite startSession_due. fold deck.
    destruct deck as [|t0 deck'] eqn:E; [congruence|]. cbn.
    repeat split.
    + eexists. split; [|reflexivity].
      pose proof (filter_isDue_rank (progress s) Date_now
                    (chapterTerms TERMS chapterId) 0) as Hr.
      unfold totalTerms. lia.
    + intros Hne. destruct chapterId; [congruence|reflexivity].
Qed.

(** A chapter of three terms, the second of which has the id [constructor]
    and no record: it is left out of the deck, and when it is the only
    term of its chapter the alert is raised. *)
Example startSession_inherited_value :
  let card := {| id := "constructor"; chapterId := "c1"; term := "Constructor";
                 definition := "A method that initialises an object";
                 aiExplanation := None |} in
  let other := {| id := "constructor"; chapterId := "c3"; term := "Constructor";
                  definition := "A method that initialises an object";
                  aiExplanation := None |} in
  let TERMS := [term1; card; term2; term3; other] in
  (startSession TERMS "c1" false (home 20) (readings [1000]%float)).1.(sessionDeck)
    = [term1; term2] /\
  (startSession TERMS "c3" false (home 20) (readings [1000]%float)).2 <> None.
Proof. vm_compute. split; [reflexivity|discriminate]. Qed.

(** X10: a session over all cards of a chapter holds every term of the
    chapter, due or not, and never raises the alert; on a chapter without
    terms it shows the session-complete screen at once. *)
Theorem startSession_review_all (chapterId : string) (s : State) (Date_now : Readings) :
  let s' := (startSession TERMS chapterId true s Date_now).1 in
  (startSession TERMS chapterId true s Date_now).2 = None /\
  s'.(sessionDeck) = chapterTerms TERMS chapterId /\
  (forall t, In t s'.(sessionDeck) <-> In t TERMS /\ Types.chapterId t = chapterId) /\
  s'.(activeCardIndex) = 0 /\ s'.(sessionStartTime) = Some (Date_now 0) /\
  s'.(progress) = s.(progress) /\
  (chapterId <> ""%string ->
   view s' = if decide (chapterTerms TERMS chapterId = []) then Complete else Active).
Proof.
  unfold startSession. fold (chapterTerms TERMS chapterId).
  rewrite andb_false_r. cbn.
  split; [reflexivity|]. split; [reflexivity|]. split; [|repeat split].
  - intros t. apply In_chapterTerms.
  - intros Hne. unfold view. cbn.
    destruct chapterId as [|c ch]; [congruence|]. cbn.
    destruct (chapterTerms TERMS (String c ch)); reflexivity.
Qed.

(** X11: the number of due cards on a chapter card.  With the same
    readings of the clock, it is the size of the deck a session over the
    due cards gets, and it is 0 exactly when starting that session raises
    the alert.  When every reading of a later computation is at least every
    reading of an earlier one, the later number is at least the earlier
    one, so that a chapter shown with due cards starts a session without
    the alert.  The number is at most the number of terms of the chapter,
    and equal to it for a chapter not started, none of whose terms has a
    truthy progress value. *)
Theorem dueCount_spec (chapterId : string) (s : State) (Date_now Date_now' : Readings) :
  (dueCount TERMS chapterId s Date_now = 0 <->
   (startSession TERMS chapterId false s Date_now).2 <> None) /\
  (dueCount TERMS chapterId s Date_now <> 0 ->
   length (startSession TERMS chapterId false s Date_now).1.(sessionDeck)
   = dueCount TERMS chapterId s Date_now) /\
  ((forall i j, (Date_now i <=? Date_now' j)%float = true) ->
   dueCount TERMS chapterId s Date_now <= dueCount TERMS chapterId s Date_now' /\
   (dueCount TERMS chapterId s Date_now <> 0 ->
    (startSession TERMS chapterId false s Date_now').2 = None /\
    dueCount TERMS chapterId s Date_now
    <= length (startSession TERMS chapterId false s Date_now').1.(sessionDeck))) /\
  dueCount TERMS chapterId s Date_now <= totalTerms TERMS chapterId /\
  (hasStarted TERMS chapterId s = false ->
   dueCount TERMS chapterId s Date_now = totalTerms TERMS chapterId).
Proof.
  assert (Hstart : forall D,
            (dueCount TERMS chapterId s D = 0 <->
             (startSession TERMS chapterId false s D).2 <> None) /\
            (dueCount TERMS chapterId s D <> 0 ->
             length (startSession TERMS chapterId false s D).1.(sessionDeck)
             = dueCount TERMS chapterId s D)).
  { intros D. rewrite startSession_due. unfold dueCount.
    destruct (filter_isDue _ _ _ _).1 as [|t0 deck]; cbn; split.
    - split; [discriminate|reflexivity].
    - congruence.
    - split; [discriminate|congruence].
    - reflexivity. }
  split; [apply Hstart|]. split; [apply Hstart|]. split; [|split].
  - intros Hl.
    assert (Hle : dueCount TERMS chapterId s Date_now
                  <= dueCount TERMS chapterId s Date_now').
    { unfold dueCount. apply sublist_length, filter_isDue_later, Hl. }
    split; [exact Hle|]. intros Hne.
    assert (Hne' : dueCount TERMS chapterId s Date_now' <> 0) by lia.
    destruct (Hstart Date_now') as [H0 Hlen]. rewrite (Hlen Hne').
    split; [|exact Hle].
    destruct (startSession TERMS chapterId false s Date_now').2 eqn:E; [|reflexivity].
    exfalso. apply Hne', H0. discriminate.
  - unfold dueCount, totalTerms. apply sublist_length, filter_isDue_sublist.
  - intros Hs. unfold dueCount, totalTerms. f_equal.
    apply filter_isDue_new, Hs.
Qed.

End Start.

(** *** A session without failures *)

Lemma handleRate_keeps_records (rating : number) (s : State) (Date_now : Readings) (k : string) :
  is_Some (s.(progress) !! k) ->
  is_Some ((handleRate rating s Date_now).(progress) !! k).
Proof.
  intros Hk. unfold handleRate.
  destruct (negb _ || _); [exact Hk|].
  destruct (s.(sessionDeck) !! s.(activeCardIndex)) as [t|]; [|exact Hk].
  unfold stopSessionTimer.
  destruct (_ <? _)%Z, (rating <? 3)%float, (truthy_number (sessionStartTime s));
    cbn; (destruct (decide (t.(id) = k)) as [<-|Hne];
          [rewrite lookup_insert_eq; eauto
          |rewrite lookup_insert_ne by exact Hne; exact Hk]).
Qed.

Lemma rate_all_keeps_records (ratings : list (number * Readings)) (s : State) (k : string) :
  is_Some (s.(progress) !! k) -> is_Some ((rate_all ratings s).(progress) !! k).
Proof.
  revert s. induction ratings as [|[rating now] rest IH]; intros s Hk; [exact Hk|].
  cbn [rate_all]. apply IH, handleRate_keeps_records, Hk.
Qed.

(** X12: in a session rated without any rating below 3, every card from
    the present one on is shown once: after as many ratings as cards are
    left, the deck is empty, the session-complete screen is shown, and
    every one of these cards has a progress record. *)
Theorem session_without_failures (ratings : list (number * Readings)) (s : State) :
  truthy_string s.(selectedChapter) = true ->
  s.(quizActive) = false ->
  s.(activeCardIndex) < length s.(sessionDeck) ->
  Forall (fun r => (r.1 <? 3)%float = false) ratings ->
  length ratings = length s.(sessionDeck) - s.(activeCardIndex) ->
  let s' := rate_all ratings s in
  s'.(sessionDeck) = [] /\ view s' = Complete /\
  forall t, In t (skipn s.(activeCardIndex) s.(sessionDeck)) ->
            is_Some (s'.(progress) !! t.(id)).
Proof.
  intros Hc Hq Hi Hr. revert s Hc Hq Hi.
  induction Hr as [|[rating now] rest Hr _ IH]; intros s Hc Hq Hi Hlen;
    [simpl in Hlen; lia|].
  destruct (lookup_lt_is_Some_2 _ _ Hi) as [t Ht].
  destruct (handleRate_rated rating s now t Hc Ht) as (Hp & Hch & Hqa & _).
  assert (Hrec : is_Some ((handleRate rating s now).(progress) !! t.(id)))
    by (rewrite Hp, lookup_insert_eq; eauto).
  rewrite (drop_S _ _ _ Ht). cbn [rate_all length] in *.
  destruct (decide (S s.(activeCardIndex) = length s.(sessionDeck))) as [Hlast|Hmore].
  - destruct rest; [|simpl in Hlen; lia]. cbn [rate_all].
    destruct (handleRate_last_card rating s now t Hc Ht Hlast) as (Hd & _ & _ & _).
    split; [exact Hd|]. split.
    + unfold view. rewrite Hch, Hc, Hqa, Hq, Hd. reflexivity.
    + intros t' [<-|Hin]; [exact Hrec|].
      rewrite drop_ge in Hin by lia. destruct Hin.
  - destruct (handleRate_before_last_deck rating s now t Hc Ht ltac:(lia))
      as (Hd & Hidx & _).
    simpl in Hr. rewrite Hr, app_nil_r in Hd.
    destruct (IH (handleRate rating s now)) as (Hd' & Hv & Hall).
    + rewrite Hch. exact Hc.
    + rewrite Hqa. exact Hq.
    + rewrite Hd, Hidx. lia.
    + rewrite Hd, Hidx. lia.
    + split; [exact Hd'|]. split; [exact Hv|].
      intros t' [<-|Hin].
      * apply rate_all_keeps_records, Hrec.
      * apply Hall. rewrite Hd, Hidx, Nat.add_1_r. exact Hin.
Qed.

Lemma session_without_failures_witness :
  let s := session [term1; term2; term3] 1 in
  let ratings := [(3%float, readings [61000; 61005]%float);
                  (5%float, readings [62000; 62005]%float)] in
  truthy_string s.(selectedChapter) = true /\
  s.(quizActive) = false /\
  s.(activeCardIndex) < length s.(sessionDeck) /\
  Forall (fun r => (r.1 <? 3)%float = false) ratings /\
  length ratings = length s.(sessionDeck) - s.(activeCardIndex) /\
  let s' := rate_all ratings s in
  s'.(sessionDeck) = [] /\ view s' = Complete /\
  forall t, In t (skipn s.(activeCardIndex) s.(sessionDeck)) ->
            is_Some (s'.(progress) !! t.(id)).
Proof.
  intros s ratings.
  assert (H1 : truthy_string s.(selectedChapter) = true) by reflexivity.
  assert (H2 : s.(quizActive) = false) by reflexivity.
  assert (H3 : s.(activeCardIndex) < length s.(sessionDeck)) by (simpl; lia).
  assert (H4 : Forall (fun r => (r.1 <? 3)%float = false) ratings)
    by (repeat constructor).
  assert (H5 : length ratings = length s.(sessionDeck) - s.(activeCardIndex))
    by reflexivity.
  split; [exact H1|]. split; [exact H2|]. split; [exact H3|].
  split; [exact H4|]. split; [exact H5|].
  exact (session_without_failures ratings s H1 H2 H3 H4 H5).
Defined.

(** *** The mixed session *)

Section MixedDeck.
Context `{RandomEngine}.
Variable TERMS : list Term.

(** X13: the deck of a mixed session holds terms of the catalog only, and
    none twice when the catalog holds none twice; the session starts at the
    first card under the chapter name MIXED, and shows a card when the
    catalog is not empty and the quantity is a number; over an empty
    catalog, or with a quantity that is NaN, the deck is empty and the
    session-complete screen is shown at once.  The catalog is an array, of
    fewer than 2^32 terms. *)
Theorem startMixedSession_deck (s : State) (now : Clock) (g : rng) :
  (Z.of_nat (length TERMS) < 2 ^ 32)%Z ->
  let s' := (startMixedSession TERMS s now g).1 in
  (forall t, In t s'.(sessionDeck) -> In t TERMS) /\
  (NoDup TERMS -> NoDup s'.(sessionDeck)) /\
  s'.(selectedChapter) = Some "MIXED"%string /\ s'.(activeCardIndex) = 0 /\
  s'.(sessionStartTime) = Some now /\ s'.(progress) = s.(progress) /\
  view s' = (if decide (TERMS = []) then Complete
             else if PrimFloat.is_nan s.(mixedCount) then Complete else Active).
Proof.
  intros Hlt. unfold startMixedSession.
  destruct (mixedDeck_spec TERMS s.(mixedCount) g) as (shuffled & Hp & Hd).
  pose proof (mixedDeck_length TERMS s.(mixedCount) g) as Hlen.
  destruct (mixedDeck TERMS (mixedCount s) g) as [deck g1]. cbn [fst] in *.
  cbn.
  split; [|split; [|repeat split]].
  - intros t Ht. rewrite Hd in Ht. apply In_firstn in Ht.
    apply (Permutation_in _ (Permutation_sym Hp)), Ht.
  - intros Hnd. apply (Permutation_NoDup Hp) in Hnd.
    rewrite Hd. set (n := Z.to_nat _).
    rewrite <- (firstn_skipn n shuffled) in Hnd.
    apply List.NoDup_app_remove_r in Hnd. exact Hnd.
  - unfold view. cbn.
    destruct (decide (TERMS = [])) as [->|Hne].
    + apply Permutation_nil in Hp. subst shuffled. rewrite Hd, firstn_nil. reflexivity.
    + assert (H53 : (Z.of_nat (length TERMS) < 2 ^ 53)%Z).
      { apply Z.lt_trans with (1 := Hlt). reflexivity. }
      specialize (Hlen Hne H53).
      destruct (PrimFloat.is_nan (mixedCount s)).
      * destruct deck; [reflexivity|simpl in Hlen; lia].
      * destruct deck as [|t0 deck]; [|reflexivity]. exfalso.
        destruct (ToIntegerOrInfinity (mixedCount s)); cbn [clamp length] in Hlen;
          destruct TERMS; try congruence; simpl in Hlen; lia.
Qed.

End MixedDeck.

Lemma startMixedSession_deck_witness :
  let TERMS := [term1; term2; term3] in
  (Z.of_nat (length TERMS) < 2 ^ 32)%Z /\
  let s' := (startMixedSession TERMS (home 2.5) 1000 7%N).1 in
  (forall t, In t s'.(sessionDeck) -> In t TERMS) /\
  (NoDup TERMS -> NoDup s'.(sessionDeck)) /\
  s'.(selectedChapter) = Some "MIXED"%string /\ s'.(activeCardIndex) = 0 /\
  s'.(sessionStartTime) = Some 1000%float /\ s'.(progress) = (home 2.5).(progress) /\
  view s' = (if decide (TERMS = []) then Complete
             else if PrimFloat.is_nan (home 2.5).(mixedCount) then Complete else Active).
Proof.
  intros TERMS.
  assert (H1 : (Z.of_nat (length TERMS) < 2 ^ 32)%Z) by reflexivity.
  split; [exact H1|].
  exact (startMixedSession_deck (H := reference_engine) TERMS (home 2.5) 1000 7%N H1).
Defined.

(** *** Strength labels *)

(** X14: the colour and the label of the mastery list agree: grey for a
    new term, red for a weak one, orange for a moderate one, and green for
    a good or a strong one. *)
Theorem strength_colour_matches_label (p : option UserProgress) :
  (getStrengthLabel p = "New"%string <->
   getStrengthColor p = "bg-slate-200 text-slate-400"%string) /\
  (getStrengthLabel p = "Weak"%string <->
   getStrengthColor p = "bg-red-100 text-red-600"%string) /\
  (getStrengthLabel p = "Moderate"%string <->
   getStrengthColor p = "bg-orange-100 text-orange-600"%string) /\
  (getStrengthLabel p = "Good"%string \/ getStrengthLabel p = "Strong"%string <->
   getStrengthColor p = "bg-green-100 text-green-600"%string).
Proof.
  unfold getStrengthLabel, getStrengthColor.
  destruct p as [q|];
    [destruct (repetition q =? 0)%float, (interval q <? 4)%float,
       (interval q <? 21)%float|];
    repeat split; try discriminate; try tauto; try (intros [?|?]; discriminate);
    intros _; try reflexivity; auto.
Qed.

(** X15: a record the scheduler returns is labelled weak exactly when the
    review failed, for a card that is new or has a repetition count of at
    least 0; it is never labelled new. *)
Theorem weak_after_failure (p : option UserProgress) (rating : number)
    (id : string) (now : Clock) :
  match p with Some q => (0 <=? q.(repetition))%float = true | None => True end ->
  let r := calculateNextReview p rating id now in
  (getStrengthLabel (Some r) = "Weak"%string <-> (3 <=? rating)%float = false) /\
  getStrengthLabel (Some r) <> "New"%string.
Proof.
  intros Hp r. unfold getStrengthLabel.
  assert (Hrep : (repetition r =? 0)%float = negb (3 <=? rating)%float).
  { subst r. unfold calculateNextReview.
    destruct (3 <=? rating)%float.
    - destruct p as [q|]; cbn; [|reflexivity].
      apply eqb_zero_of_ge_one, add_one_ge_one, Hp.
    - destruct p; reflexivity. }
  rewrite Hrep. destruct (3 <=? rating)%float; cbn.
  - destruct (interval r <? 4)%float, (interval r <? 21)%float;
      split; try discriminate; split; discriminate.
  - split; [tauto|discriminate].
Qed.

Lemma weak_after_failure_witness :
  (0 <=? (twice_reviewed "t1" 0).(repetition))%float = true /\
  let r := calculateNextReview (Some (twice_reviewed "t1" 0)) 2 "t1" 1000 in
  (getStrengthLabel (Some r) = "Weak"%string <-> (3 <=? 2)%float = false) /\
  getStrengthLabel (Some r) <> "New"%string.
Proof.
  assert (H1 : (0 <=? (twice_reviewed "t1" 0).(repetition))%float = true)
    by reflexivity.
  split; [exact H1|].
  exact (weak_after_failure (Some (twice_reviewed "t1" 0)) 2 "t1" 1000 H1).
Defined.

End App_More.

(** ** More on the answer verifier *)

Module Verifier_More.
Import JS Types Quiz Levenshtein_Facts Verifier_Facts.

(** *** Characters *)

Ltac each_ascii c :=
  destruct c as [[] [] [] [] [] [] [] []]; vm_compute; repeat split; congruence.

Lemma toLowerCase_char_class (c : ascii) :
  is_a_z_0_9 c = true -> toLowerCase_char c = c.
Proof. each_ascii c. Qed.

Lemma toLowerCase_char_facts (c : ascii) :
  toLowerCase_char (toLowerCase_char c) = toLowerCase_char c /\
  (toLowerCase_char c =? "(")%char = (c =? "(")%char /\
  (toLowerCase_char c =? ")")%char = (c =? ")")%char /\
  (toLowerCase_char c =? "/")%char = (c =? "/")%char /\
  is_space (toLowerCase_char c) = is_space c.
Proof. each_ascii c. Qed.

(** *** [normalize] *)

Lemma normalize_class (s : str) : Forall (fun c => is_a_z_0_9 c = true) (normalize s).
Proof.
  unfold normalize. apply Forall_forall. intros c Hc.
  apply List.filter_In in Hc. apply Hc.
Qed.

Lemma normalize_fixed (s : str) :
  Forall (fun c => is_a_z_0_9 c = true) s -> normalize s = s.
Proof.
  unfold normalize, toLowerCase. induction 1 as [|c s Hc _ IH]; [reflexivity|].
  cbn [map List.filter]. rewrite (toLowerCase_char_class c Hc), Hc. f_equal. exact IH.
Qed.

Lemma normalize_idempotent (s : str) : normalize (normalize s) = normalize s.
Proof. apply normalize_fixed, normalize_class. Qed.

Lemma normalize_toLowerCase (s : str) : normalize (toLowerCase s) = normalize s.
Proof.
  unfold normalize, toLowerCase. rewrite List.map_map. f_equal.
  apply List.map_ext. intros c. apply toLowerCase_char_facts.
Qed.

(** X16: normalizing keeps only characters among a-z and 0-9, never adds
    any, leaves such a string as it is, so that normalizing twice is as
    normalizing once, and does not depend on the case of the letters. *)
Theorem normalize_spec (s : str) :
  Forall (fun c => is_a_z_0_9 c = true) (normalize s) /\
  length (normalize s) <= length s /\
  normalize (normalize s) = normalize s /\
  normalize (toLowerCase s) = normalize s /\
  (Forall (fun c => is_a_z_0_9 c = true) s -> normalize s = s).
Proof.
  split; [apply normalize_class|]. split; [|split; [|split]].
  - unfold normalize, toLowerCase.
    etransitivity; [apply List.filter_length_le|]. rewrite List.length_map. reflexivity.
  - apply normalize_idempotent.
  - apply normalize_toLowerCase.
  - apply normalize_fixed.
Qed.

(** *** The parenthesis scanner *)

Lemma scan_parens_text (pending : option str) (s : str) :
  concat (map token_text (scan_parens pending s)) = pending_text pending ++ s.
Proof.
  revert pending. induction s as [|c s IH]; intros pending.
  - destruct pending as [acc|]; cbn; [|reflexivity].
    rewrite app_nil_r. f_equal. induction acc as [|a acc IHa]; cbn; congruence.
  - cbn [scan_parens]. destruct pending as [acc|].
    + destruct (Ascii.eqb_spec c ")") as [->|Hc].
      * destruct acc as [|a acc]; cbn; rewrite IH; cbn; [reflexivity|].
        rewrite <- !app_assoc. reflexivity.
      * rewrite IH. cbn. rewrite <- app_assoc. reflexivity.
    + destruct (Ascii.eqb_spec c "(") as [->|Hc]; cbn; rewrite IH; reflexivity.
Qed.

Lemma scan_parens_matches (pending : option str) (s : str) (m : str) :
  open_run pending -> In (inr m) (scan_parens pending s) -> paren_match m.
Proof.
  revert pending. induction s as [|c s IH]; intros pending Hp Hm.
  - destruct pending as [acc|]; cbn in Hm; [|destruct Hm].
    destruct Hm as [Hm|Hm]; [discriminate|].
    apply in_map_iff in Hm as (x & Hx & _). discriminate.
  - cbn [scan_parens] in Hm. destruct pending as [acc|].
    + destruct (Ascii.eqb_spec c ")") as [->|Hc].
      * destruct acc as [|a acc].
        -- destruct Hm as [Hm|[Hm|Hm]]; try discriminate. apply (IH None I Hm).
        -- destruct Hm as [Hm|Hm]; [|apply (IH None I Hm)].
           inversion Hm; subst m. exists (a :: acc). repeat split; [discriminate|exact Hp].
      * apply (IH (Some (acc ++ [c]))); [|exact Hm].
        cbn. apply Forall_app. split; [exact Hp|]. constructor; [exact Hc|constructor].
    + destruct (Ascii.eqb_spec c "(") as [->|Hc].
      * apply (IH (Some [])); [constructor|exact Hm].
      * destruct Hm as [Hm|Hm]; [discriminate|]. apply (IH None I Hm).
Qed.

Lemma In_match_parens (s m : str) :
  In m (match_parens s) <-> In (inr m) (scan_parens None s).
Proof.
  unfold match_parens. rewrite <- !list_elem_of_In, list_elem_of_omap. split.
  - intros ([c|m'] & Hin & E); [discriminate|]. inversion E; subst. exact Hin.
  - intros Hin. exists (inr m). split; [exact Hin|reflexivity].
Qed.

Lemma omap_inl_text (tokens : list (ascii + str)) :
  Forall (fun t => exists c, t = inl c) tokens ->
  omap (fun t => match t with inl c => Some c | inr _ => None end) tokens
  = concat (map token_text tokens).
Proof.
  induction 1 as [|t tokens [c ->] _ IH]; [reflexivity|]. cbn. f_equal. exact IH.
Qed.

(** X17: the scanner splits a term into its matches of an opening
    parenthesis, one or more characters other than a closing parenthesis
    and a closing parenthesis, and the characters outside them: put back
    together in order they give the term; removing the matches shortens it
    by their lengths; and a term without a match is left as it is. *)
Theorem scan_parens_partition (s : str) :
  concat (map token_text (scan_parens None s)) = s /\
  (forall m, In m (match_parens s) -> paren_match m) /\
  length (remove_parens s) + length (concat (match_parens s)) = length s /\
  (match_parens s = [] -> remove_parens s = s).
Proof.
  split; [apply (scan_parens_text None)|]. split; [|split].
  - intros m Hm. apply In_match_parens in Hm.
    apply (scan_parens_matches None s m I Hm).
  - rewrite <- (scan_parens_text None s) at 3. cbn [pending_text app].
    unfold remove_parens, match_parens.
    induction (scan_parens None s) as [|[c|m] tokens IH]; cbn; [reflexivity| |].
    + lia.
    + rewrite !length_app. lia.
  - intros Hm. unfold remove_parens. rewrite omap_inl_text.
    + apply (scan_parens_text None).
    + apply Forall_forall. intros [c|m] Ht; [eauto|].
      apply In_match_parens in Ht. rewrite Hm in Ht. destruct Ht.
Qed.

(** *** Splitting at slashes *)

Lemma split_slash_not_nil (s : str) : split_slash s <> [].
Proof.
  destruct s as [|c s]; cbn; [discriminate|].
  destruct (c =? "/")%char; [discriminate|]. destruct (split_slash s); discriminate.
Qed.

Lemma join_slash_cons (seg : str) (rest : list str) :
  rest <> [] -> join_slash (seg :: rest) = seg ++ "/"%char :: join_slash rest.
Proof. destruct rest; [congruence|reflexivity]. Qed.

Lemma join_split_slash (s : str) : join_slash (split_slash s) = s.
Proof.
  induction s as [|c s IH]; [reflexivity|]. cbn [split_slash].
  destruct (Ascii.eqb_spec c "/") as [->|Hc].
  - rewrite join_slash_cons by apply split_slash_not_nil. rewrite IH. reflexivity.
  - pose proof (split_slash_not_nil s) as Hne.
    destruct (split_slash s) as [|seg segs]; [congruence|].
    destruct segs as [|seg' segs]; cbn in *; congruence.
Qed.

Lemma split_slash_no_slash (s : str) : Forall no_slash (split_slash s).
Proof.
  induction s as [|c s IH]; cbn [split_slash].
  - repeat constructor.
  - destruct (Ascii.eqb_spec c "/") as [->|Hc].
    + constructor; [constructor|exact IH].
    + destruct (split_slash s) as [|seg segs]; [repeat constructor; exact Hc|].
      inversion IH; subst. constructor; [constructor; assumption|assumption].
Qed.

Lemma split_slash_no_slash_seg (seg : str) : no_slash seg -> split_slash seg = [seg].
Proof.
  induction 1 as [|c seg Hc _ IH]; [reflexivity|]. cbn [split_slash].
  destruct (Ascii.eqb_spec c "/") as [->|_]; [congruence|]. rewrite IH. reflexivity.
Qed.

Lemma split_slash_app (seg s : str) :
  no_slash seg -> split_slash (seg ++ "/"%char :: s) = seg :: split_slash s.
Proof.
  induction 1 as [|c seg Hc _ IH]; [reflexivity|]. cbn [split_slash app].
  destruct (Ascii.eqb_spec c "/") as [->|_]; [congruence|]. rewrite IH. reflexivity.
Qed.

Lemma split_join_slash (segments : list str) :
  segments <> [] -> Forall no_slash segments ->
  split_slash (join_slash segments) = segments.
Proof.
  intros Hne Hs. induction Hs as [|seg rest Hseg Hrest IH]; [congruence|].
  destruct rest as [|seg' rest].
  - apply split_slash_no_slash_seg, Hseg.
  - rewrite join_slash_cons by discriminate.
    rewrite split_slash_app by exact Hseg. f_equal. apply IH. discriminate.
Qed.

(** Splitting a string at its slashes and joining the segments with
    slashes gives the string back; no segment holds a slash; there is one
    segment more than slashes; and joining segments without slashes and
    splitting the result gives the segments back. *)
Theorem split_slash_round_trip (s : str) :
  join_slash (split_slash s) = s /\
  Forall no_slash (split_slash s) /\
  length (split_slash s) = S (length (List.filter (fun c => (c =? "/")%char) s)) /\
  (forall segments, segments <> [] -> Forall no_slash segments ->
     split_slash (join_slash segments) = segments).
Proof.
  split; [apply join_split_slash|]. split; [apply split_slash_no_slash|].
  split; [|apply split_join_slash].
  induction s as [|c s IH]; [reflexivity|]. cbn [split_slash List.filter].
  destruct (c =? "/")%char; cbn [length]; [congruence|].
  pose proof (split_slash_not_nil s).
  destruct (split_slash s); [congruence|exact IH].
Qed.

(** *** Trimming *)

Lemma trimStart_split (s : str) :
  exists pre, s = pre ++ trimStart s /\ Forall (fun c => is_space c = true) pre.
Proof.
  induction s as [|c s (pre & E & Hpre)]; [exists []; split; [reflexivity|constructor]|].
  cbn [trimStart]. destruct (is_space c) eqn:Hc.
  - exists (c :: pre). split; [cbn; congruence|constructor; assumption].
  - exists []. split; [reflexivity|constructor].
Qed.

Lemma trimStart_head (s : str) (c : ascii) (rest : str) :
  trimStart s = c :: rest -> is_space c = false.
Proof.
  induction s as [|a s IH]; [discriminate|]. cbn [trimStart].
  destruct (is_space a) eqn:Ha; [exact IH|]. intros E. inversion E; subst. exact Ha.
Qed.

Lemma trimStart_fixed (s : str) :
  (forall c, head s = Some c -> is_space c = false) -> trimStart s = s.
Proof.
  destruct s as [|c s]; [reflexivity|]. intros H. cbn.
  rewrite (H c eq_refl). reflexivity.
Qed.

Lemma trimStart_spaces (s : str) :
  trimStart s = [] <-> Forall (fun c => is_space c = true) s.
Proof.
  induction s as [|c s IH]; cbn [trimStart]; [split; [constructor|reflexivity]|].
  destruct (is_space c) eqn:Hc.
  - rewrite IH. split; [constructor; assumption|]. intros H. inversion H; assumption.
  - split; [discriminate|]. intros H. inversion H; congruence.
Qed.

Lemma trim_split (s : str) :
  exists pre post, s = pre ++ trim s ++ post /\
    Forall (fun c => is_space c = true) pre /\
    Forall (fun c => is_space c = true) post.
Proof.
  unfold trim. destruct (trimStart_split s) as (pre & E1 & Hpre).
  destruct (trimStart_split (rev (trimStart s))) as (post & E2 & Hpost).
  exists pre, (rev post). split; [|split; [exact Hpre|]].
  - rewrite E1 at 1. f_equal. rewrite <- rev_app_distr, <- E2, rev_involutive.
    reflexivity.
  - apply Forall_forall. intros c Hc. rewrite <- in_rev in Hc.
    rewrite Forall_forall in Hpost. apply Hpost, Hc.
Qed.

Lemma trim_trimmed (s : str) : trimmed (trim s).
Proof.
  unfold trim. split.
  - intros c Hc.
    destruct (trimStart_split (rev (trimStart s))) as (post & E2 & Hpost).
    apply (f_equal (@rev ascii)) in E2.
    rewrite rev_involutive, rev_app_distr in E2.
    destruct (rev (trimStart (rev (trimStart s)))) as [|c' w]; [discriminate|].
    cbn in Hc. inversion Hc; subst c'.
    destruct (trimStart s) as [|c1 u] eqn:Eu; [discriminate|].
    cbn in E2. inversion E2; subst c1. apply (trimStart_head s c u Eu).
  - intros c Hc. rewrite rev_involutive in Hc.
    destruct (trimStart (rev (trimStart s))) as [|c' w] eqn:Ew; [discriminate|].
    cbn in Hc. inversion Hc; subst c'.
    apply (trimStart_head _ c w Ew).
Qed.

Lemma trim_fixed (s : str) : trimmed s -> trim s = s.
Proof.
  intros [Hh Hl]. unfold trim.
  rewrite (trimStart_fixed s Hh).
  rewrite (trimStart_fixed (rev s) Hl). apply rev_involutive.
Qed.

(** Trimming removes a run of white space from each end of a string
    and nothing else: what is left neither starts nor ends with white
    space, is empty exactly when the string is white space only, and is
    left as it is by trimming again. *)
Theorem trim_spec (s : str) :
  (exists pre post, s = pre ++ trim s ++ post /\
     Forall (fun c => is_space c = true) pre /\
     Forall (fun c => is_space c = true) post) /\
  trimmed (trim s) /\
  (trim s = [] <-> Forall (fun c => is_space c = true) s) /\
  trim (trim s) = trim s.
Proof.
  split; [apply trim_split|]. split; [apply trim_trimmed|].
  split; [|apply trim_fixed, trim_trimmed].
  split.
  - intros E. destruct (trim_split s) as (pre & post & Es & Hpre & Hpost).
    rewrite E in Es. rewrite Es. apply Forall_app. split; assumption.
  - intros Hs. unfold trim. apply trimStart_spaces in Hs. rewrite Hs. reflexivity.
Qed.

(** *** Letter case *)

Lemma scan_parens_toLowerCase (pending : option str) (s : str) :
  scan_parens (option_map toLowerCase pending) (toLowerCase s)
  = map token_toLowerCase (scan_parens pending s).
Proof.
  revert pending. induction s as [|c s IH]; intros pending.
  - destruct pending as [acc|]; cbn; [|reflexivity]. f_equal.
    unfold toLowerCase. rewrite !List.map_map. reflexivity.
  - cbn [toLowerCase map scan_parens].
    destruct (toLowerCase_char_facts c) as (_ & Ho & Hc & _).
    destruct pending as [acc|]; cbn [option_map].
    + rewrite Hc. destruct (c =? ")")%char.
      * destruct acc as [|a acc]; cbn [toLowerCase map token_toLowerCase].
        -- f_equal. f_equal. apply (IH None).
        -- f_equal; [|apply (IH None)]. unfold toLowerCase.
           rewrite List.map_app. reflexivity.
      * rewrite <- (IH (Some (acc ++ [c]))). cbn [option_map]. unfold toLowerCase.
        rewrite List.map_app. reflexivity.
    + rewrite Ho. destruct (c =? "(")%char.
      * apply (IH (Some [])).
      * cbn. f_equal. apply (IH None).
Qed.

Lemma scan_parens_None_toLowerCase (s : str) :
  scan_parens None (toLowerCase s) = map token_toLowerCase (scan_parens None s).
Proof. exact (scan_parens_toLowerCase None s). Qed.

Lemma match_parens_toLowerCase (s : str) :
  match_parens (toLowerCase s) = map toLowerCase (match_parens s).
Proof.
  unfold match_parens. rewrite scan_parens_None_toLowerCase.
  induction (scan_parens None s) as [|[c|m] tokens IH]; cbn; congruence.
Qed.

Lemma remove_parens_toLowerCase (s : str) :
  remove_parens (toLowerCase s) = toLowerCase (remove_parens s).
Proof.
  unfold remove_parens. rewrite scan_parens_None_toLowerCase.
  induction (scan_parens None s) as [|[c|m] tokens IH]; [reflexivity| |].
  - cbn. unfold toLowerCase in *. cbn. f_equal. exact IH.
  - cbn. exact IH.
Qed.

Lemma trimStart_toLowerCase (s : str) :
  trimStart (toLowerCase s) = toLowerCase (trimStart s).
Proof.
  induction s as [|c s IH]; [reflexivity|]. cbn [toLowerCase map trimStart].
  destruct (toLowerCase_char_facts c) as (_ & _ & _ & _ & ->).
  destruct (is_space c); [exact IH|reflexivity].
Qed.

Lemma trim_toLowerCase (s : str) : trim (toLowerCase s) = toLowerCase (trim s).
Proof.
  unfold trim. rewrite trimStart_toLowerCase. unfold toLowerCase at 1.
  rewrite <- List.map_rev. fold (toLowerCase (rev (trimStart s))).
  rewrite trimStart_toLowerCase. unfold toLowerCase. rewrite List.map_rev.
  reflexivity.
Qed.

Lemma split_slash_toLowerCase (s : str) :
  split_slash (toLowerCase s) = map toLowerCase (split_slash s).
Proof.
  induction s as [|c s IH]; [reflexivity|]. cbn [toLowerCase map split_slash].
  destruct (toLowerCase_char_facts c) as (_ & _ & _ & -> & _).
  fold (toLowerCase s). rewrite IH.
  destruct (c =? "/")%char; [reflexivity|].
  destruct (split_slash s); reflexivity.
Qed.

Lemma includes_slash_toLowerCase (s : str) :
  includes_slash (toLowerCase s) = includes_slash s.
Proof.
  unfold includes_slash, toLowerCase.
  induction s as [|c s IH]; [reflexivity|]. cbn [map existsb].
  destruct (toLowerCase_char_facts c) as (_ & _ & _ & -> & _). rewrite IH. reflexivity.
Qed.

Lemma map_normalize_toLowerCase (l : list str) :
  map normalize (map toLowerCase l) = map normalize l.
Proof.
  rewrite List.map_map. apply List.map_ext. intros m. apply normalize_toLowerCase.
Qed.

Lemma candidates_toLowerCase (correctTerm : str) :
  candidates (toLowerCase correctTerm) = candidates correctTerm.
Proof.
  unfold candidates.
  rewrite includes_slash_toLowerCase, split_slash_toLowerCase,
    match_parens_toLowerCase, remove_parens_toLowerCase, trim_toLowerCase,
    !map_normalize_toLowerCase, !normalize_toLowerCase.
  destruct (trim (remove_parens correctTerm)); reflexivity.
Qed.

(** X18: the verdict does not depend on the case of the letters of the
    answer or of the term, nor on the characters of the answer other than
    letters and digits. *)
Theorem checkAnswerSmart_case_insensitive (input correctTerm : str) :
  checkAnswerSmart (toLowerCase input) correctTerm = checkAnswerSmart input correctTerm /\
  checkAnswerSmart (normalize input) correctTerm = checkAnswerSmart input correctTerm /\
  checkAnswerSmart input (toLowerCase correctTerm) = checkAnswerSmart input correctTerm.
Proof.
  unfold checkAnswerSmart.
  rewrite normalize_toLowerCase, normalize_idempotent, candidates_toLowerCase,
    normalize_toLowerCase.
  repeat split.
Qed.

(** *** What is accepted *)

Lemma In_candidates (correctTerm c : str) :
  In c (candidates correctTerm) <->
  c = normalize correctTerm \/
  In c (map normalize (match_parens correctTerm)) \/
  (trim (remove_parens correctTerm) <> [] /\
   c = normalize (trim (remove_parens correctTerm))) \/
  (includes_slash correctTerm = true /\
   In c (map normalize (split_slash correctTerm))).
Proof.
  unfold candidates.
  destruct (includes_slash correctTerm), (trim (remove_parens correctTerm)) as [|a w];
    rewrite ?in_app_iff; cbn [In];
    intuition (try discriminate; try congruence).
Qed.

Lemma checkAnswerSmart_candidate (input correctTerm : str) :
  normalize input <> [] -> In (normalize input) (candidates correctTerm) ->
  checkAnswerSmart input correctTerm = true.
Proof. intros Hne Hin. apply checkAnswerSmart_true. auto. Qed.

(** A string has a non-empty normal form exactly when it holds one of
    the characters A-Z, a-z, 0-9. *)
Lemma is_a_z_0_9_toLowerCase_char (c : ascii) :
  is_a_z_0_9 (toLowerCase_char c) = is_A_Z_a_z_0_9 c.
Proof. destruct c as [[] [] [] [] [] [] [] []]; vm_compute; reflexivity. Qed.

Lemma normalize_nil (s : str) :
  normalize s = [] <-> existsb is_A_Z_a_z_0_9 s = false.
Proof.
  unfold normalize, toLowerCase. induction s as [|c s IH]; [tauto|].
  cbn [map List.filter existsb]. rewrite is_a_z_0_9_toLowerCase_char.
  destruct (is_A_Z_a_z_0_9 c); cbn [orb]; [|exact IH].
  split; discriminate.
Qed.

Lemma normalize_not_nil (s : str) :
  normalize s <> [] <-> existsb is_A_Z_a_z_0_9 s = true.
Proof.
  rewrite normalize_nil. destruct (existsb is_A_Z_a_z_0_9 s); split; congruence.
Qed.

(** X19: an answer that holds none of the characters A-Z, a-z, 0-9 is
    never accepted; an answer that holds one and has the normal form of the
    term is accepted; and the term itself is accepted as its own answer
    exactly when it holds one of these characters. *)
Theorem checkAnswerSmart_exact (input correctTerm : str) :
  (existsb is_A_Z_a_z_0_9 input = false ->
   checkAnswerSmart input correctTerm = false) /\
  (existsb is_A_Z_a_z_0_9 input = true ->
   normalize input = normalize correctTerm ->
   checkAnswerSmart input correctTerm = true) /\
  checkAnswerSmart correctTerm correctTerm = existsb is_A_Z_a_z_0_9 correctTerm.
Proof.
  assert (Hnil : forall a b, existsb is_A_Z_a_z_0_9 a = false ->
                             checkAnswerSmart a b = false).
  { intros a b E. apply normalize_nil in E. unfold checkAnswerSmart.
    rewrite E. reflexivity. }
  assert (Hsame : forall a b, existsb is_A_Z_a_z_0_9 a = true ->
                              normalize a = normalize b -> checkAnswerSmart a b = true).
  { intros a b E En. apply normalize_not_nil in E.
    apply checkAnswerSmart_candidate; [exact E|]. apply In_candidates. auto. }
  split; [apply Hnil|]. split; [apply Hsame|].
  destruct (existsb is_A_Z_a_z_0_9 correctTerm) eqn:E; auto.
Qed.

(** The accented letter with code 233 is not among these characters: a
    term made of it is not accepted as its own answer. *)
Example checkAnswerSmart_accented_letter :
  let e_acute := [ascii_of_nat 233] in
  normalize e_acute = [] /\ checkAnswerSmart e_acute e_acute = false.
Proof. vm_compute. split; reflexivity. Qed.

(** X20: the alternatives of a term are accepted: the text of each
    parenthesis, such as an acronym, the term without its parentheses, and
    each side of a slash, whenever the alternative holds one of the
    characters A-Z, a-z, 0-9. *)
Theorem checkAnswerSmart_alternatives (correctTerm : str) :
  (forall m, In m (match_parens correctTerm) ->
     existsb is_A_Z_a_z_0_9 m = true ->
     checkAnswerSmart m correctTerm = true) /\
  (existsb is_A_Z_a_z_0_9 (remove_parens correctTerm) = true ->
   checkAnswerSmart (remove_parens correctTerm) correctTerm = true) /\
  (forall seg, In seg (split_slash correctTerm) ->
     In "/"%char correctTerm -> existsb is_A_Z_a_z_0_9 seg = true ->
     checkAnswerSmart seg correctTerm = true).
Proof.
  split; [|split].
  - intros m Hm Hne. apply normalize_not_nil in Hne.
    apply checkAnswerSmart_candidate; [exact Hne|].
    apply In_candidates. right. left. apply in_map, Hm.
  - intros Hne. apply normalize_not_nil in Hne.
    apply checkAnswerSmart_candidate; [exact Hne|].
    apply In_candidates. right. right. left.
    destruct (trim_split (remove_parens correctTerm)) as (pre & post & E & Hpre & Hpost).
    assert (Hsp : forall w, Forall (fun c => is_space c = true) w -> normalize w = []).
    { induction 1 as [|c w Hc _ IH]; [reflexivity|]. unfold normalize in *.
      cbn [toLowerCase map List.filter].
      replace (is_a_z_0_9 (toLowerCase_char c)) with false; [exact IH|].
      clear -Hc. revert Hc.
      destruct c as [[] [] [] [] [] [] [] []]; vm_compute; congruence. }
    assert (En : normalize (remove_parens correctTerm)
                 = normalize (trim (remove_parens correctTerm))).
    { rewrite E at 1. unfold normalize, toLowerCase.
      rewrite !List.map_app, !List.filter_app.
      fold (toLowerCase pre) (toLowerCase post). fold (normalize pre) (normalize post).
      rewrite (Hsp pre Hpre), (Hsp post Hpost), app_nil_r. reflexivity. }
    split; [|exact En]. intros Et. rewrite Et in En. apply Hne. exact En.
  - intros seg Hseg Hsl Hne. apply normalize_not_nil in Hne.
    apply checkAnswerSmart_candidate; [exact Hne|].
    apply In_candidates. right. right. right. split; [|apply in_map, Hseg].
    unfold includes_slash. apply existsb_exists. exists "/"%char. split; [exact Hsl|reflexivity].
Qed.

(** A parenthesis that holds an accented letter only is a match, and is
    not accepted as an answer. *)
Example checkAnswerSmart_accented_alternative :
  let alternative := ["("%char; ascii_of_nat 233; ")"%char] in
  let correctTerm := ["x"%char; " "%char] ++ alternative in
  match_parens correctTerm = [alternative] /\
  checkAnswerSmart alternative correctTerm = false.
Proof. vm_compute. split; reflexivity. Qed.

End Verifier_More.

(** ** The edit distance as a metric *)

Module Levenshtein_More.
Import JS Types Quiz Levenshtein_Facts Verifier_Facts Verifier_More.

(** *** Scripts from either end *)

Lemma edits_from_end_rev (a b : str) (n : nat) :
  edits a b n -> edits_from_end (rev a) (rev b) n.
Proof.
  induction 1; rewrite ?rev_app_distr; cbn; try constructor; assumption.
Qed.

Lemma edits_rev (a b : str) (n : nat) :
  edits_from_end a b n -> edits (rev a) (rev b) n.
Proof.
  induction 1; cbn; try constructor; assumption.
Qed.

Lemma edits_iff_from_end (a b : str) (n : nat) :
  edits a b n <-> edits_from_end (rev a) (rev b) n.
Proof.
  split; [apply edits_from_end_rev|]. intros H. apply edits_rev in H.
  rewrite !rev_involutive in H. exact H.
Qed.

(** *** Properties of scripts *)

Lemma efe_sym (a b : str) (n : nat) : edits_from_end a b n -> edits_from_end b a n.
Proof. induction 1; constructor; assumption. Qed.

Lemma efe_refl (a : str) : edits_from_end a a 0.
Proof. induction a; constructor; assumption. Qed.

Lemma efe_0 (a b : str) (n : nat) : edits_from_end a b n -> n = 0 -> a = b.
Proof. induction 1; intros E; try discriminate; [reflexivity|]. f_equal. auto. Qed.

Lemma efe_length (a b : str) (n : nat) :
  edits_from_end a b n -> length a <= length b + n /\ length b <= length a + n.
Proof. induction 1; cbn [length]; lia. Qed.

Lemma efe_max (a b : str) : edits_from_end a b (Nat.max (length a) (length b)).
Proof.
  revert b. induction a as [|c a IH]; intros b.
  - induction b as [|d b IHb]; [constructor|]. cbn in *. apply efe_insert, IHb.
  - destruct b as [|d b].
    + cbn [length Nat.max]. apply efe_delete.
      specialize (IH []). rewrite Nat.max_0_r in IH. exact IH.
    + cbn [length]. rewrite <- Nat.succ_max_distr. apply efe_substitute, IH.
Qed.

(** Two scripts in a row are matched by one script that is no longer than
    both together. *)
Lemma efe_trans (a b : str) (n : nat) :
  edits_from_end a b n ->
  forall c m, edits_from_end b c m -> exists k, k <= n + m /\ edits_from_end a c k.
Proof.
  induction 1 as [|a b x n _ IH|a b x y n _ IH|a b x n _ IH|a b y n _ IH].
  - intros c m H2. exists m. split; [lia|exact H2].
  - intros c m H2. remember (x :: b) as b0 eqn:Eb.
    induction H2 as [|b' c' z m H2' _|b' c' z w m H2' _|b' c' z m H2' _|b' c' w m H2' IH2];
      try discriminate.
    + inversion Eb; subst. destruct (IH _ _ H2') as (k & Hk & Hs).
      exists k. split; [lia|]. apply efe_keep, Hs.
    + inversion Eb; subst. destruct (IH _ _ H2') as (k & Hk & Hs).
      exists (S k). split; [lia|]. apply efe_substitute, Hs.
    + inversion Eb; subst. destruct (IH _ _ H2') as (k & Hk & Hs).
      exists (S k). split; [lia|]. apply efe_delete, Hs.
    + destruct (IH2 Eb) as (k & Hk & Hs).
      exists (S k). split; [lia|]. apply efe_insert, Hs.
  - intros c m H2. remember (y :: b) as b0 eqn:Eb.
    induction H2 as [|b' c' z m H2' _|b' c' z w m H2' _|b' c' z m H2' _|b' c' w m H2' IH2];
      try discriminate.
    + inversion Eb; subst. destruct (IH _ _ H2') as (k & Hk & Hs).
      exists (S k). split; [lia|]. apply efe_substitute, Hs.
    + inversion Eb; subst. destruct (IH _ _ H2') as (k & Hk & Hs).
      exists (S k). split; [lia|]. apply efe_substitute, Hs.
    + inversion Eb; subst. destruct (IH _ _ H2') as (k & Hk & Hs).
      exists (S k). split; [lia|]. apply efe_delete, Hs.
    + destruct (IH2 Eb) as (k & Hk & Hs).
      exists (S k). split; [lia|]. apply efe_insert, Hs.
  - intros c m H2. destruct (IH _ _ H2) as (k & Hk & Hs).
    exists (S k). split; [lia|]. apply efe_delete, Hs.
  - intros c m H2. remember (y :: b) as b0 eqn:Eb.
    induction H2 as [|b' c' z m H2' _|b' c' z w m H2' _|b' c' z m H2' _|b' c' w m H2' IH2];
      try discriminate.
    + inversion Eb; subst. destruct (IH _ _ H2') as (k & Hk & Hs).
      exists (S k). split; [lia|]. apply efe_insert, Hs.
    + inversion Eb; subst. destruct (IH _ _ H2') as (k & Hk & Hs).
      exists (S k). split; [lia|]. apply efe_insert, Hs.
    + inversion Eb; subst. destruct (IH _ _ H2') as (k & Hk & Hs).
      exists k. split; [lia|]. exact Hs.
    + destruct (IH2 Eb) as (k & Hk & Hs).
      exists (S k). split; [lia|]. apply efe_insert, Hs.
Qed.

(** *** The distance the code computes *)

Lemma distance_script (a b : str) :
  edits_from_end (rev a) (rev b) (getLevenshteinDistance a b).
Proof.
  rewrite getLevenshteinDistance_levenshtein.
  apply edits_iff_from_end, levenshtein_distance_least.
Qed.

Lemma distance_least (a b : str) (n : nat) :
  edits_from_end (rev a) (rev b) n -> getLevenshteinDistance a b <= n.
Proof.
  rewrite getLevenshteinDistance_levenshtein. intros H.
  apply levenshtein_distance_least, edits_iff_from_end, H.
Qed.

(** X21: the distance is symmetric, and it is 0 exactly between a string
    and itself. *)
Theorem getLevenshteinDistance_symmetric (a b : str) :
  getLevenshteinDistance a b = getLevenshteinDistance b a /\
  (getLevenshteinDistance a b = 0 <-> a = b).
Proof.
  split; [|split].
  - apply Nat.le_antisymm; apply distance_least, efe_sym, distance_script.
  - intros E. pose proof (distance_script a b) as H.
    apply (efe_0 _ _ _ H) in E. apply (f_equal (@rev ascii)) in E.
    rewrite !rev_involutive in E. exact E.
  - intros ->. apply Nat.le_0_r, distance_least, efe_refl.
Qed.

(** X22: the distance is at least the difference of the lengths of the
    two strings and at most the greater of the lengths. *)
Theorem getLevenshteinDistance_bounds (a b : str) :
  length a - length b <= getLevenshteinDistance a b /\
  length b - length a <= getLevenshteinDistance a b /\
  getLevenshteinDistance a b <= Nat.max (length a) (length b).
Proof.
  pose proof (efe_length _ _ _ (distance_script a b)) as [H1 H2].
  rewrite !length_rev in H1, H2.
  split; [lia|]. split; [lia|].
  apply distance_least. rewrite <- (length_rev a), <- (length_rev b). apply efe_max.
Qed.

(** X23: the distance satisfies the triangle inequality. *)
Theorem getLevenshteinDistance_triangle (a b c : str) :
  getLevenshteinDistance a c
  <= getLevenshteinDistance a b + getLevenshteinDistance b c.
Proof.
  destruct (efe_trans _ _ _ (distance_script a b) _ _ (distance_script b c))
    as (k & Hk & Hs).
  apply distance_least in Hs. lia.
Qed.

(** *** Typos *)

Lemma edits_length (a b : str) (n : nat) :
  edits a b n -> length a <= length b + n /\ length b <= length a + n.
Proof. induction 1; rewrite ?length_app; cbn [length]; lia. Qed.

(** X24: an answer is accepted when, once normalized, it can be turned
    into the normalized term by at most one edit for every four characters
    of the term, provided the term has more than 3 characters. *)
Theorem typos_tolerated (input correctTerm : str) (n : nat) :
  edits (normalize input) (normalize correctTerm) n ->
  3 < length (normalize correctTerm) ->
  n <= length (normalize correctTerm) / 4 ->
  checkAnswerSmart input correctTerm = true.
Proof.
  intros He H3 Hn.
  assert (Hq : length (normalize correctTerm) / 4 < length (normalize correctTerm))
    by (apply Nat.div_lt; lia).
  apply checkAnswerSmart_true. split.
  - intros E. rewrite E in He. apply edits_length in He. cbn [length] in He. lia.
  - right. exists (normalize correctTerm). split; [apply target_in_candidates|].
    split; [exact H3|].
    pose proof (proj2 (levenshtein_distance_least _ _) n He). lia.
Qed.

Lemma typos_tolerated_witness :
  let input := list_ascii_of_string "algoritm" in
  let correctTerm := list_ascii_of_string "Algorithm" in
  edits (normalize input) (normalize correctTerm) 1 /\
  3 < length (normalize correctTerm) /\
  1 <= length (normalize correctTerm) / 4 /\
  checkAnswerSmart input correctTerm = true.
Proof.
  intros input correctTerm.
  assert (H1 : edits (normalize input) (normalize correctTerm) 1).
  { replace 1 with (getLevenshteinDistance (normalize input) (normalize correctTerm))
      by (vm_compute; reflexivity).
    rewrite getLevenshteinDistance_levenshtein. apply levenshtein_distance_least. }
  assert (H2 : 3 < length (normalize correctTerm)) by (vm_compute; lia).
  assert (H3 : 1 <= length (normalize correctTerm) / 4) by (vm_compute; lia).
  split; [exact H1|]. split; [exact H2|]. split; [exact H3|].
  exact (typos_tolerated input correctTerm 1 H1 H2 H3).
Defined.

End Levenshtein_More.

(** ** More on the question generator *)

Module Generator_More.
Import JS Types Quiz JS_Facts Generator_Facts Samples.

Section Generator.
Context `{RandomEngine}.

Lemma q_term_makeQuestion (terms : list Term) (t : Term) (g : rng) :
  (makeQuestion terms t g).1.(q_term) = t.
Proof.
  unfold makeQuestion. destruct (Math_random g) as [r g1].
  destruct (0.5 <? r)%float; [|reflexivity].
  destruct (sort_random _ g1) as [others g2].
  destruct (sort_random _ g2) as [options g3]. reflexivity.
Qed.

Lemma map_q_term_map_random (terms selected : list Term) (g : rng) :
  map q_term (map_random (makeQuestion terms) selected g).1 = selected.
Proof.
  revert g. induction selected as [|t selected IH]; intros g; [reflexivity|].
  cbn [map_random]. pose proof (q_term_makeQuestion terms t g) as Ht.
  destruct (makeQuestion terms t g) as [q g1]. specialize (IH g1).
  destruct (map_random (makeQuestion terms) selected g1) as [qs g2].
  cbn in *. congruence.
Qed.

Lemma generateQuiz_terms (terms : list Term) (g : rng) (questions : list Question) :
  (generateQuiz terms g).1 = Some questions ->
  exists shuffled, Permutation terms shuffled /\
    map q_term questions = firstn (Nat.min 10 (length terms)) shuffled /\
    forall q, In q questions -> exists gq, q = (makeQuestion terms q.(q_term) gq).1.
Proof.
  unfold generateQuiz. destruct terms as [|t0 terms']; [discriminate|].
  set (terms := t0 :: terms').
  pose proof (sort_random_Permutation _ terms g) as Hp.
  destruct (sort_random terms g) as [shuffled g1]. cbn [fst] in Hp.
  pose proof (map_q_term_map_random terms
                (Array_slice 0 (Z.min 10 (Z.of_nat (length terms))) shuffled) g1) as Hm.
  pose proof (In_map_random (makeQuestion terms)
                (Array_slice 0 (Z.min 10 (Z.of_nat (length terms))) shuffled) g1) as Hall.
  destruct (map_random _ _ g1) as [qs g2]. cbn [fst] in *.
  intros E. inversion E; subst qs. exists shuffled. split; [exact Hp|]. split.
  - rewrite Hm, Array_slice_0 by lia. f_equal. lia.
  - intros q Hq. destruct (Hall q Hq) as (t & gq & _ & ->).
    exists gq. rewrite q_term_makeQuestion. reflexivity.
Qed.

(** X25: a quiz asks no term twice and only terms of its pool, when the
    pool holds no term twice; it asks every term of a pool of at most 10
    terms, and 10 terms of a larger pool. *)
Theorem generateQuiz_distinct_terms (terms : list Term) (g : rng)
    (questions : list Question) :
  NoDup terms -> (generateQuiz terms g).1 = Some questions ->
  NoDup (map q_term questions) /\
  (forall q, In q questions -> In q.(q_term) terms) /\
  length questions = Nat.min 10 (length terms) /\
  (length terms <= 10 -> Permutation terms (map q_term questions)).
Proof.
  intros Hnd Hq. destruct (generateQuiz_terms terms g questions Hq)
    as (shuffled & Hp & Hm & _).
  assert (Hs : NoDup shuffled) by (eapply Permutation_NoDup; eassumption).
  split; [|split; [|split]].
  - rewrite Hm. rewrite <- (firstn_skipn (Nat.min 10 (length terms)) shuffled) in Hs.
    apply List.NoDup_app_remove_r in Hs. exact Hs.
  - intros q Hin. apply (in_map q_term) in Hin. rewrite Hm in Hin.
    apply In_firstn in Hin. apply (Permutation_in _ (Permutation_sym Hp)), Hin.
  - rewrite <- (length_map q_term), Hm, length_take, <- (Permutation_length Hp). lia.
  - intros Hle. rewrite Hm, firstn_all2; [exact Hp|].
    rewrite <- (Permutation_length Hp). lia.
Qed.

Lemma makeQuestion_options (terms : list Term) (t : Term) (g : rng) :
  In t terms ->
  let q := (makeQuestion terms t g).1 in
  (q.(q_type) = multiple_choice ->
   In t.(term) q.(q_options) /\ 1 <= length q.(q_options) <= 4 /\
   forall o, In o q.(q_options) -> In o (map term terms)) /\
  (q.(q_type) = input -> q.(q_options) = []).
Proof.
  intros Hin. unfold makeQuestion. destruct (Math_random g) as [r g1].
  destruct (0.5 <? r)%float; [|cbn; split; [discriminate|reflexivity]].
  set (others := List.filter _ terms).
  pose proof (sort_random_Permutation _ others g1) as Hp.
  destruct (sort_random others g1) as [shuffled g2]. cbn [fst] in Hp.
  pose proof (sort_random_Permutation _
                (map term (Array_slice 0 3 shuffled) ++ [term t]) g2) as Hq.
  destruct (sort_random _ g2) as [options g3]. cbn [fst] in Hq. cbn.
  split; [intros _|discriminate]. rewrite Array_slice_0 in Hq by lia.
  split; [|split].
  - apply (Permutation_in _ Hq), in_or_app. right. left. reflexivity.
  - rewrite <- (Permutation_length Hq), length_app, length_map, length_take.
    cbn [length]. lia.
  - intros o Ho. apply (Permutation_in _ (Permutation_sym Hq)) in Ho.
    apply in_app_or in Ho as [Ho|[<-|[]]]; [|apply in_map, Hin].
    apply in_map_iff in Ho as (d & <- & Hd). apply in_map.
    apply In_firstn in Hd. apply (Permutation_in _ (Permutation_sym Hp)) in Hd.
    apply List.filter_In in Hd. apply Hd.
Qed.

(** X26: every multiple-choice question of a quiz offers the display
    string of its term among its options, has between 1 and 4 options, all
    of them display strings of terms of the pool; a question to type has no
    options. *)
Theorem generateQuiz_options (terms : list Term) (g : rng)
    (questions : list Question) :
  (generateQuiz terms g).1 = Some questions ->
  forall q, In q questions ->
    (q.(q_type) = multiple_choice ->
     In q.(q_term).(term) q.(q_options) /\ 1 <= length q.(q_options) <= 4 /\
     forall o, In o q.(q_options) -> In o (map term terms)) /\
    (q.(q_type) = input -> q.(q_options) = []).
Proof.
  intros Hq q Hin.
  destruct (generateQuiz_terms terms g questions Hq) as (shuffled & Hp & Hm & Hall).
  destruct (Hall q Hin) as (gq & Eq).
  assert (Ht : In q.(q_term) terms).
  { apply (in_map q_term) in Hin. rewrite Hm in Hin. apply In_firstn in Hin.
    apply (Permutation_in _ (Permutation_sym Hp)), Hin. }
  pose proof (makeQuestion_options terms q.(q_term) gq Ht) as Ho.
  cbn zeta in Ho. rewrite <- Eq in Ho. exact Ho.
Qed.

End Generator.

Lemma generateQuiz_distinct_terms_witness :
  let terms := [term1; term2; term3] in
  let questions := match (generateQuiz terms 6%N).1 with Some qs => qs | None => [] end in
  NoDup terms /\ (generateQuiz terms 6%N).1 = Some questions /\
  NoDup (map q_term questions) /\
  (forall q, In q questions -> In q.(q_term) terms) /\
  length questions = Nat.min 10 (length terms) /\
  (length terms <= 10 -> Permutation terms (map q_term questions)).
Proof.
  intros terms questions.
  assert (H1 : NoDup terms).
  { repeat constructor; cbn; intuition discriminate. }
  assert (H2 : (generateQuiz terms 6%N).1 = Some questions) by reflexivity.
  split; [exact H1|]. split; [exact H2|].
  exact (generateQuiz_distinct_terms (H := reference_engine) terms 6%N questions H1 H2).
Defined.

Lemma generateQuiz_options_witness :
  let terms := [term1; term2] in
  let questions := match (generateQuiz terms 6%N).1 with Some qs => qs | None => [] end in
  (generateQuiz terms 6%N).1 = Some questions /\
  forall q, In q questions ->
    (q.(q_type) = multiple_choice ->
     In q.(q_term).(term) q.(q_options) /\ 1 <= length q.(q_options) <= 4 /\
     forall o, In o q.(q_options) -> In o (map term terms)) /\
    (q.(q_type) = input -> q.(q_options) = []).
Proof.
  intros terms questions.
  assert (H1 : (generateQuiz terms 6%N).1 = Some questions) by reflexivity.
  split; [exact H1|].
  exact (generateQuiz_options (H := reference_engine) terms 6%N questions H1).
Defined.

End Generator_More.
